(** * The [Common] class of ethereumjs-common: hardfork timeline, parameter
      resolution and fork hashes

    Shallow embedding of [packages/common/src/index.ts].  JavaScript objects
    used as dictionaries are finite maps of their own members, and what
    they inherit through the prototype chain is taken from a description of
    the runtime; [number | null] fields are options, thrown errors are the
    [Err] case of a result type, and the methods that assign to the
    instance run in a small state-and-error monad. *)

From Stdlib Require Import ZArith Ascii String List Lia.
From stdpp Require Import base decidable option list sorting strings pretty gmap.

Local Open Scope Z_scope.

(* ===================================================================== *)
(** ** JavaScript values and primitives used by the class *)
(* ===================================================================== *)

(** The values that the resolver handles: the [v] of a parameter entry is
    [null] or a number, and reading a member that is not there gives
    [undefined]. *)
Inductive JsValue : Type :=
| VNull
| VNum (n : Z)
| VUndefined.

#[global] Instance JsValue_eq_dec : EqDecision JsValue.
Proof. solve_decision. Defined.

(** A field of type [string | null] that may also be missing ([undefined]). *)
Inductive JsString : Type :=
| SUndefined
| SNull
| SStr (s : string).

#[global] Instance JsString_eq_dec : EqDecision JsString.
Proof. solve_decision. Defined.

(** [ToNumber] on a [number | null]: [null] converts to [0]. *)
Definition toNumber (x : option Z) : Z :=
  match x with
  | Some n => n
  | None => 0
  end.

(** [Number.MAX_SAFE_INTEGER]: integers up to here are exact JS numbers. *)
Definition MAX_SAFE_INTEGER : Z := 2 ^ 53 - 1.

(** *** [Number.prototype.toString(16)] on integers *)

Definition hex_digit (d : Z) : ascii :=
  if d <? 10 then ascii_of_N (Z.to_N (48 + d)) else ascii_of_N (Z.to_N (87 + d)).

(** Digits are produced least significant first and pushed in front of
    [acc]; the loop ends when the quotient is zero. *)
Fixpoint hex_digits_aux (fuel : nat) (n : Z) (acc : list ascii) : list ascii :=
  match fuel with
  | O => acc
  | S fuel' =>
      let acc' := hex_digit (n mod 16) :: acc in
      if n / 16 =? 0 then acc' else hex_digits_aux fuel' (n / 16) acc'
  end.

Definition hex_digits (n : Z) : list ascii :=
  hex_digits_aux (S (Z.to_nat (Z.log2 n))) n [].

Definition toString16 (n : Z) : string :=
  if n <? 0 then String "-" (string_of_list_ascii (hex_digits (- n)))
  else string_of_list_ascii (hex_digits n).

(** *** [String.prototype.padStart] with a one-character filler and
        [String.prototype.substr(start)] *)

Definition padStart (targetLength : nat) (fill : ascii) (s : string) : string :=
  string_of_list_ascii
    (replicate (targetLength - String.length s) fill ++ list_ascii_of_string s).

Definition substr (start : nat) (s : string) : string :=
  string_of_list_ascii (drop start (list_ascii_of_string s)).

(** *** [Buffer.from(s, 'hex')] and [Buffer.concat]

    A buffer is the list of its bytes, each an integer in [0, 255]. Decoding
    reads two hex digits per byte and stops at the first pair that is not
    hexadecimal (or at a trailing single character). *)

Definition hex_value (c : ascii) : option Z :=
  let n := Z.of_N (N_of_ascii c) in
  if (48 <=? n) && (n <=? 57) then Some (n - 48)
  else if (97 <=? n) && (n <=? 102) then Some (n - 87)
  else if (65 <=? n) && (n <=? 70) then Some (n - 55)
  else None.

Fixpoint hex_decode (cs : list ascii) : list Z :=
  match cs with
  | hi :: lo :: rest =>
      match hex_value hi, hex_value lo with
      | Some h, Some l => (16 * h + l) :: hex_decode rest
      | _, _ => []
      end
  | _ => []
  end.

Definition Buffer_from_hex (s : string) : list Z :=
  hex_decode (list_ascii_of_string s).

(** *** The [buf] function of the [crc-32] package *)

(** One bit of the reflected polynomial [0xEDB88320]. *)
Definition crc32_shift (c : Z) : Z :=
  if Z.testbit c 0 then Z.lxor (Z.shiftr c 1) 0xEDB88320 else Z.shiftr c 1.

Definition crc32_update (c : Z) (b : Z) : Z :=
  Nat.iter 8 crc32_shift (Z.lxor c b).

(** The standard CRC-32 of a byte sequence: initial value and final
    complement [0xFFFFFFFF]. *)
Definition crc32_unsigned (bs : list Z) : Z :=
  Z.lxor (fold_left crc32_update bs 0xFFFFFFFF) 0xFFFFFFFF.

(** Modelled from the spec: [buf] of the imported package [crc-32], whose
    code is not in the sources; the standard CRC-32, which the package
    delivers as a signed 32-bit integer. *)
Definition crc32Buffer (bs : list Z) : Z :=
  let u := crc32_unsigned bs in
  if u <? 2 ^ 31 then u else u - 2 ^ 32.

(** [x >>> 0]: reinterpret an integer as unsigned 32-bit. *)
Definition ushr0 (x : Z) : Z := x mod 2 ^ 32.

(* ===================================================================== *)
(** ** Data model *)
(* ===================================================================== *)

(** Errors thrown by the class, one constructor per message, and the
    [TypeError] of the runtime when it is raised inside a lookup of the
    class (reading a member of [null], or through an accessor that throws). *)
Inductive error : Type :=
| UnsupportedHardfork (hardfork : string)
    (* Hardfork ... not set as supported in supportedHardforks *)
| UnknownHardfork (hardfork : string)
    (* Hardfork ... not defined for chain ... / Hardfork with name ... not supported *)
| UnknownEIP (eip : Z)
    (* ... not supported *)
| HardforkTooOld (eip : Z) (hardfork : string)
    (* ... cannot be activated on hardfork ... *)
| UnknownTopic (topic : string)
    (* Topic ... not defined *)
| NotFound
    (* No (supported) active hardfork found *)
| NoForkHash
    (* No fork hash calculation possible for non-applied or future hardfork *)
| JsTypeError.
    (* Cannot read properties of null ... *)

#[global] Instance error_eq_dec : EqDecision error.
Proof. solve_decision. Defined.

Inductive result (A : Type) : Type :=
| Ok (a : A)
| Err (e : error).

Arguments Ok {A} a.
Arguments Err {A} e.

#[global] Instance result_eq_dec {A} `{EqDecision A} : EqDecision (result A).
Proof. solve_decision. Defined.

#[global] Instance result_ret : MRet result := fun A a => Ok a.
#[global] Instance result_bind : MBind result := fun A B f r =>
  match r with
  | Ok a => f a
  | Err e => Err e
  end.

(** Modelled from the spec: the entries of the JSON files behind
    [./hardforks] and [./eips], which are not in the sources. An entry
    [{ v: ... }] of a topic carries a value. *)
Record ParamEntry : Type := { v : JsValue }.

(** A topic maps parameter names to entries; a parameter surface maps topic
    names to topics. These maps hold the own members of the parsed JSON
    objects; what the objects inherit is in [Runtime] below. *)
Abbreviation Topic := (gmap string ParamEntry).
Abbreviation Topics := (gmap string Topic).

(** Modelled from the spec: the second component of an entry of
    [HARDFORK_CHANGES], a file that has an [eips] property or one that
    inlines its parameters, an object whose own members are the topics. The
    constructor records what [hfChanges[1].hasOwnProperty('eips')]
    answers. *)
Inductive HardforkParams : Type :=
| EIPReferencing (eips : list Z)
| ParameterInlining (topics : Topics).

(** Modelled from the spec: an EIP file, an object whose own members are
    [minimumHardfork] and the topics. *)
Module EIP.
Record t : Type := mk { minimumHardfork : string; topics : Topics }.
End EIP.

(** What [x[name]] is, for a value [x] that is not a topic of a file and a
    name given by the caller: [undefined]; or a value other than [undefined]
    and [null] (built-in values have no member [v], so its [v] is
    [undefined]); or the read ends in a [TypeError], because [x[name]] is
    [null] and its [v] is read next, or because [name] is an accessor of
    [x] that throws. *)
Inductive Read : Type :=
| Absent
| Present
| Throws.

(** The part of the runtime that lookups by caller-given keys depend on.
    The files are plain objects, so a key that is not their own is looked
    up in [Object.prototype]. *)
Record Runtime : Type := {
  (** [key in {}]: the members every plain object inherits. They are
      functions or, for [__proto__], the prototype object: truthy, and
      without a member [v]. *)
  inherits : string -> bool;
  (** [({})[key][name]] for such a key *)
  inherited_member : string -> string -> Read;
  (** [s[name]] for a string [s] *)
  string_member : string -> string -> Read
}.

(** Modelled from the spec: the [Hardfork] interface of [./types], a record
    of a chain's [hardforks] with [name], [block] (a number or null) and
    [forkHash] (a string, null, or missing). *)
Module Hardfork.
Record t : Type := mk { name : string; block : option Z; forkHash : JsString }.
End Hardfork.

#[global] Instance Hardfork_eq_dec : EqDecision Hardfork.t.
Proof. solve_decision. Defined.

(** Modelled from the spec: the [GenesisBlock] interface of [./types]; the
    class reads its [hash]. *)
Module GenesisBlock.
Record t : Type := mk { hash : string }.
End GenesisBlock.

(** Modelled from the spec: the [Chain] interface of [./types]. *)
Module Chain.
Record t : Type := mk {
  name : string;
  chainId : Z;
  networkId : Z;
  genesis : GenesisBlock.t;
  hardforks : list Hardfork.t
}.
End Chain.

Record hardforkOptions : Type := {
  onlySupported : option bool;
  onlyActive : option bool
}.

(** The private fields of an instance. *)
Record Common : Type := {
  _chainParams : Chain.t;
  _hardfork : string;
  _supportedHardforks : list string;
  _eips : list Z
}.

Definition DEFAULT_HARDFORK : string := "istanbul".

(** Methods that assign to a field: state passing with errors. A throw
    leaves the instance as it is at that point. *)
Definition M (A : Type) : Type := Common -> result A * Common.

Definition pure {A} (a : A) : M A := fun c => (Ok a, c).
Definition throw {A} (e : error) : M A := fun c => (Err e, c).
Definition lift {A} (f : Common -> result A) : M A := fun c => (f c, c).
Definition andThen {A B} (m : M A) (k : A -> M B) : M B := fun c =>
  match m c with
  | (Ok a, c') => k a c'
  | (Err e, c') => (Err e, c')
  end.
Definition assign_eips (eips : list Z) : M unit := fun c =>
  (Ok tt, {| _chainParams := _chainParams c; _hardfork := _hardfork c;
             _supportedHardforks := _supportedHardforks c; _eips := eips |}).

(** [for (const x of xs) body(x)] where the body may throw. *)
Fixpoint forOf {A} (xs : list A) (body : A -> M unit) : M unit :=
  match xs with
  | [] => pure tt
  | x :: rest => andThen (body x) (fun _ => forOf rest body)
  end.

Definition assign_hardfork (hardfork : string) : M unit := fun c =>
  (Ok tt, {| _chainParams := _chainParams c; _hardfork := hardfork;
             _supportedHardforks := _supportedHardforks c; _eips := _eips c |}).

(** A call completes as the class has it, with a value or one of its errors,
    or dies on the [TypeError] that the runtime raises when a property of
    [undefined] is read. *)
Inductive outcome (A : Type) : Type :=
| Completes (r : result A)
| TypeError.

Arguments Completes {A} r.
Arguments TypeError {A}.

(** The options that the constructor reads once the chain is set; a field
    is [None] when the caller leaves it out. *)
Module CommonOpts.
Record t : Type := mk {
  hardfork : option string;
  supportedHardforks : option (list string);
  eips : option (list Z)
}.
End CommonOpts.

(* ===================================================================== *)
(** ** Example datasets *)
(* ===================================================================== *)

Module Examples.

Definition mainnet_genesis : GenesisBlock.t :=
  GenesisBlock.mk "0xd4e56740f876aef8c010b86a40d5f56745a118d0906a34e69aec8c0db1cb8fa3".

Definition chain_of (hfs : list Hardfork.t) : Chain.t :=
  Chain.mk "mainnet" 1 1 mainnet_genesis hfs.

Definition common_of (hfs : list Hardfork.t) (hardfork : string)
    (supported : list string) (eips : list Z) : Common :=
  {| _chainParams := chain_of hfs; _hardfork := hardfork;
     _supportedHardforks := supported; _eips := eips |}.

(** The timeline [chainstart@0, homestead@1150000, byzantium@4370000,
    istanbul@null], without stored fork hashes. *)
Definition mainnet_hardforks : list Hardfork.t :=
  [ Hardfork.mk "chainstart" (Some 0) SUndefined;
    Hardfork.mk "homestead" (Some 1150000) SUndefined;
    Hardfork.mk "byzantium" (Some 4370000) SUndefined;
    Hardfork.mk "istanbul" None SUndefined ].

(** The same timeline with its fork hashes stored in the records. *)
Definition mainnet_hardforks_hashed : list Hardfork.t :=
  [ Hardfork.mk "chainstart" (Some 0) (SStr "0xfc64ec04");
    Hardfork.mk "homestead" (Some 1150000) (SStr "0x97c2c34c");
    Hardfork.mk "byzantium" (Some 4370000) (SStr "0xf112505f");
    Hardfork.mk "istanbul" None SNull ].

Definition entry (n : Z) : ParamEntry := {| v := VNum n |}.

(** Hardfork files: two inline their parameters, the third refers to an
    EIP. *)
Definition hardfork_changes : list (string * HardforkParams) :=
  [ ("chainstart",
     ParameterInlining
       (list_to_map
          [ ("gasConfig", list_to_map [ ("minGasLimit", entry 5000) ]);
            ("gasPrices", list_to_map [ ("sstoreSet", entry 200) ]) ]));
    ("homestead",
     ParameterInlining
       (list_to_map
          [ ("gasConfig", ∅);
            ("gasPrices", list_to_map [ ("delegatecall", entry 40) ]) ]));
    ("byzantium", EIPReferencing [ 100 ]);
    ("istanbul",
     ParameterInlining (list_to_map [ ("gasConfig", ∅) ])) ].

(** EIP 100 is referenced by a hardfork; 1 has no [gasPrices] topic; 2
    sets [gasPrices.sstoreSet]; 3 has the topic but not the name; 4 needs
    a later hardfork. *)
Definition eip_files : gmap Z EIP.t :=
  list_to_map
    [ (100, EIP.mk "chainstart"
              (list_to_map
                 [ ("gasConfig", ∅);
                   ("gasPrices", list_to_map [ ("modexp", entry 20) ]) ]));
      (1, EIP.mk "chainstart" (list_to_map [ ("gasConfig", ∅) ]));
      (2, EIP.mk "chainstart"
            (list_to_map
               [ ("gasConfig", ∅);
                 ("gasPrices", list_to_map [ ("sstoreSet", entry 500) ]) ]));
      (3, EIP.mk "homestead"
            (list_to_map
               [ ("gasConfig", ∅);
                 ("gasPrices", list_to_map [ ("sload", entry 800) ]) ]));
      (4, EIP.mk "istanbul" (list_to_map [ ("gasConfig", ∅); ("gasPrices", ∅) ])) ].

Definition mainnet_byzantium (eips : list Z) : Common :=
  common_of mainnet_hardforks "byzantium" [] eips.

(** A custom timeline whose blocks are not in ascending order. *)
Definition unordered_hardforks : list Hardfork.t :=
  [ Hardfork.mk "chainstart" (Some 0) SUndefined;
    Hardfork.mk "homestead" (Some 2000) SUndefined;
    Hardfork.mk "byzantium" (Some 1000) SUndefined ].

(** A custom timeline that starts with two hardforks at block 0, of which
    only the second stores its fork hash. *)
Definition genesis_forks : list Hardfork.t :=
  [ Hardfork.mk "chainstart" (Some 0) SUndefined;
    Hardfork.mk "homestead" (Some 0) (SStr "0xfc64ec04");
    Hardfork.mk "byzantium" (Some 4370000) (SStr "0x133874dd") ].

(** A runtime with the built-in objects of ECMAScript 2020, Annex B
    included: the string-named members of [Object.prototype], of a
    built-in function (its own and those of [Function.prototype]), of the
    [Object] constructor and of [String.prototype]. *)
Definition Object_prototype : list string :=
  [ "constructor"; "__defineGetter__"; "__defineSetter__"; "hasOwnProperty";
    "__lookupGetter__"; "__lookupSetter__"; "isPrototypeOf";
    "propertyIsEnumerable"; "toString"; "valueOf"; "__proto__";
    "toLocaleString" ].

Definition Function_members : list string :=
  [ "length"; "name"; "apply"; "bind"; "call"; "constructor"; "toString" ].

Definition Object_statics : list string :=
  [ "prototype"; "assign"; "create"; "defineProperties"; "defineProperty";
    "entries"; "freeze"; "fromEntries"; "getOwnPropertyDescriptor";
    "getOwnPropertyDescriptors"; "getOwnPropertyNames";
    "getOwnPropertySymbols"; "getPrototypeOf"; "is"; "isExtensible";
    "isFrozen"; "isSealed"; "keys"; "preventExtensions"; "seal";
    "setPrototypeOf"; "values" ].

Definition String_prototype : list string :=
  [ "constructor"; "anchor"; "big"; "blink"; "bold"; "charAt"; "charCodeAt";
    "codePointAt"; "concat"; "endsWith"; "fontcolor"; "fontsize"; "fixed";
    "includes"; "indexOf"; "italics"; "lastIndexOf"; "link"; "localeCompare";
    "match"; "matchAll"; "normalize"; "padEnd"; "padStart"; "repeat";
    "replace"; "search"; "slice"; "small"; "split"; "strike"; "sub";
    "substr"; "substring"; "sup"; "startsWith"; "toString"; "trim";
    "trimStart"; "trimLeft"; "trimEnd"; "trimRight"; "toLocaleLowerCase";
    "toLocaleUpperCase"; "toLowerCase"; "toUpperCase"; "valueOf" ].

(** [({}).__proto__] is [Object.prototype], whose own [__proto__] is
    [null]; the other inherited members are built-in functions, on which
    [caller] and [arguments] are accessors that throw. A string has its
    [length], its indices and the members of its prototypes. *)
Definition standard_runtime : Runtime :=
  {| inherits key := bool_decide (key ∈ Object_prototype);
     inherited_member key name :=
       if decide (key = "__proto__")
       then if decide (name = "__proto__") then Throws
            else if bool_decide (name ∈ Object_prototype) then Present
                 else Absent
       else if bool_decide (name ∈ ["caller"; "arguments"]) then Throws
            else if bool_decide
                      (name ∈ Function_members ++ Object_prototype
                              ++ (if decide (key = "constructor")
                                  then Object_statics else []))
                 then Present
                 else Absent;
     string_member s name :=
       if bool_decide
            (name ∈ "length" :: (pretty <$> seq 0 (String.length s))
                    ++ String_prototype ++ Object_prototype)
       then Present
       else Absent |}.

End Examples.

(* ===================================================================== *)
(** ** The class *)
(* ===================================================================== *)

Section CommonClass.

(** The imported tables [hardforks as HARDFORK_CHANGES] (pairs of a name
    and the contents of the hardfork's file) and [EIPs], and the runtime
    that the class runs on. *)
Variable HARDFORK_CHANGES : list (string * HardforkParams).
Variable EIPs : gmap Z EIP.t.
Variable runtime : Runtime.

Definition genesis (c : Common) : GenesisBlock.t := Chain.genesis (_chainParams c).
Definition hardforks (c : Common) : list Hardfork.t := Chain.hardforks (_chainParams c).
Definition hardfork (c : Common) : string := _hardfork c.
Definition eips (c : Common) : list Z := _eips c.

Definition _isSupportedHardfork (c : Common) (hardfork : string) : bool :=
  if (0 <? length (_supportedHardforks c))%nat
  then bool_decide (hardfork ∈ _supportedHardforks c)
  else true.

(** [hardfork] is [None] for [undefined] and [null]; the empty string is
    falsy as well. [onlySupported] is [None] when the caller passes
    [undefined], which selects the default [true]. *)
Definition _chooseHardfork (c : Common) (hardfork : option string)
    (onlySupported : option bool) : result string :=
  match hardfork with
  | None => Ok (_hardfork c)
  | Some hf =>
      if decide (hf = "") then Ok (_hardfork c)
      else if default true onlySupported && negb (_isSupportedHardfork c hf)
      then Err (UnsupportedHardfork hf)
      else Ok hf
  end.

Fixpoint find_hardfork (hardfork : string) (hfs : list Hardfork.t) : option Hardfork.t :=
  match hfs with
  | [] => None
  | hf :: rest =>
      if decide (Hardfork.name hf = hardfork) then Some hf else find_hardfork hardfork rest
  end.

Definition _getHardfork (c : Common) (hardfork : string) : result Hardfork.t :=
  match find_hardfork hardfork (hardforks c) with
  | Some hf => Ok hf
  | None => Err (UnknownHardfork hardfork)
  end.

(** *** Active hardforks *)

Fixpoint activeHardforks_loop (c : Common) (blockNumber : option Z)
    (opts : hardforkOptions) (hfs : list Hardfork.t) : list Hardfork.t :=
  match hfs with
  | [] => []
  | hf :: rest =>
      match Hardfork.block hf with
      | None => activeHardforks_loop c blockNumber opts rest
      | Some b =>
          if match blockNumber with Some bn => bn <? b | None => false end
          then []
          else if default false (onlySupported opts)
                  && negb (_isSupportedHardfork c (Hardfork.name hf))
          then activeHardforks_loop c blockNumber opts rest
          else hf :: activeHardforks_loop c blockNumber opts rest
      end
  end.

Definition no_opts : hardforkOptions := {| onlySupported := None; onlyActive := None |}.

Definition activeHardforks (c : Common) (blockNumber : option Z)
    (opts : option hardforkOptions) : list Hardfork.t :=
  let opts := default no_opts opts in
  activeHardforks_loop c blockNumber opts (hardforks c).

Definition activeHardfork (c : Common) (blockNumber : option Z)
    (opts : option hardforkOptions) : result string :=
  match last (activeHardforks c blockNumber opts) with
  | Some hf => Ok (Hardfork.name hf)
  | None => Err NotFound
  end.

(** *** Position comparison *)

Definition positions (hardfork1 hardfork2 : string) (hfs : list Hardfork.t) : Z * Z :=
  let '(posHf1, posHf2, _) :=
    fold_left
      (fun '(posHf1, posHf2, index) hf =>
         (if decide (Hardfork.name hf = hardfork1) then index else posHf1,
          if decide (Hardfork.name hf = hardfork2) then index else posHf2,
          index + 1))
      hfs (-1, -1, 0)
  in (posHf1, posHf2).

Definition hardforkGteHardfork (c : Common) (hardfork1 : option string)
    (hardfork2 : string) (opts : option hardforkOptions) : result bool :=
  let opts := default no_opts opts in
  let onlyActive := default false (onlyActive opts) in
  hardfork1 ← _chooseHardfork c hardfork1 (onlySupported opts);
  let hardforks :=
    if onlyActive then activeHardforks c None (Some opts) else hardforks c in
  let '(posHf1, posHf2) := positions hardfork1 hardfork2 hardforks in
  Ok (posHf2 <=? posHf1).

Definition gteHardfork (c : Common) (hardfork : string)
    (opts : option hardforkOptions) : result bool :=
  hardforkGteHardfork c None hardfork opts.

(** *** Active EIPs *)

(** The body of the loop of [setEIPs]. *)
Definition setEIPs_body (eip : Z) : M unit :=
  match EIPs !! eip with
  | None => throw (UnknownEIP eip)
  | Some eipParams =>
      andThen
        (lift (fun c => gteHardfork c (EIP.minimumHardfork eipParams) None))
        (fun minHF : bool =>
           if negb minHF
           then andThen (lift (fun c => Ok (hardfork c)))
                        (fun hf => throw (HardforkTooOld eip hf))
           else pure tt)
  end.

Definition setEIPs (eips : list Z) : M unit :=
  andThen (forOf eips setEIPs_body) (fun _ => assign_eips eips).

(** *** Parameter resolution *)

(** What a file has under a key given by the caller: one of its topics,
    its [minimumHardfork], or a member that every object inherits. *)
Inductive Member : Type :=
| OwnTopic (params : Topic)
| OwnString (s : string)
| Inherited (key : string).

(** [eipParams[topic]], [None] for [undefined]. *)
Definition EIP_member (eipParams : EIP.t) (topic : string) : option Member :=
  match EIP.topics eipParams !! topic with
  | Some params => Some (OwnTopic params)
  | None =>
      if decide (topic = "minimumHardfork")
      then Some (OwnString (EIP.minimumHardfork eipParams))
      else if inherits runtime topic then Some (Inherited topic) else None
  end.

(** [hfChanges[1][topic]] for a parameter-inlining file, [None] for
    [undefined]. *)
Definition file_member (topics : Topics) (topic : string) : option Member :=
  match topics !! topic with
  | Some params => Some (OwnTopic params)
  | None => if inherits runtime topic then Some (Inherited topic) else None
  end.

(** [member[name]] compared with [undefined] and, when it is not, its [v]:
    [None] stands for [member[name] === undefined]. An entry of the topic
    itself comes before a member that the topic inherits. *)
Definition member_v (member : Member) (name : string) : result (option JsValue) :=
  let read r :=
    match r with
    | Absent => Ok None
    | Present => Ok (Some VUndefined)
    | Throws => Err JsTypeError
    end in
  match member with
  | OwnTopic params =>
      match params !! name with
      | Some entry => Ok (Some (v entry))
      | None => Ok (if inherits runtime name then Some VUndefined else None)
      end
  | OwnString s => read (string_member runtime s name)
  | Inherited key => read (inherited_member runtime key name)
  end.

(** [topic in eipParams] is true for every member, own or inherited. *)
Definition paramByEIP (topic name : string) (eip : Z) : result JsValue :=
  match EIPs !! eip with
  | None => Err (UnknownEIP eip)
  | Some eipParams =>
      match EIP_member eipParams topic with
      | None => Err (UnknownTopic topic)
      | Some member =>
          value ← member_v member name;
          Ok (default VNull value)
      end
  end.

(** The inner loop over the [eips] of an EIP-referencing file. *)
Fixpoint hfEIPs_loop (topic name : string) (hfEIPs : list Z) (value : JsValue)
    : result JsValue :=
  match hfEIPs with
  | [] => Ok value
  | eip :: rest =>
      valueEIP ← paramByEIP topic name eip;
      hfEIPs_loop topic name rest
        (if decide (valueEIP = VNull) then value else valueEIP)
  end.

(** One iteration of the loop of [paramByHardfork], before the [break]
    test. *)
Definition hfChanges_step (topic name : string) (params : HardforkParams)
    (value : JsValue) : result JsValue :=
  match params with
  | EIPReferencing hfEIPs => hfEIPs_loop topic name hfEIPs value
  | ParameterInlining topics =>
      match file_member topics topic with
      | None => Err (UnknownTopic topic)
      | Some member =>
          found ← member_v member name;
          Ok (default value found)
      end
  end.

Fixpoint hfChanges_loop (topic name hardfork : string)
    (changes : list (string * HardforkParams)) (value : JsValue) : result JsValue :=
  match changes with
  | [] => Ok value
  | hfChanges :: rest =>
      value' ← hfChanges_step topic name hfChanges.2 value;
      if decide (hfChanges.1 = hardfork) then Ok value'
      else hfChanges_loop topic name hardfork rest value'
  end.

Definition paramByHardfork (c : Common) (topic name hardfork : string)
    : result JsValue :=
  hardfork ← _chooseHardfork c (Some hardfork) None;
  hfChanges_loop topic name hardfork HARDFORK_CHANGES VNull.

Fixpoint param_loop (c : Common) (topic name : string) (eips : list Z)
    : result JsValue :=
  match eips with
  | [] => paramByHardfork c topic name (_hardfork c)
  | eip :: rest =>
      value ← paramByEIP topic name eip;
      if decide (value = VNull) then param_loop c topic name rest else Ok value
  end.

Definition param (c : Common) (topic name : string) : result JsValue :=
  param_loop c topic name (_eips c).

(** *** Hardfork blocks *)

Definition hardforkBlock (c : Common) (hardfork : option string) : result (option Z) :=
  hardfork ← _chooseHardfork c hardfork (Some false);
  hf ← _getHardfork c hardfork;
  Ok (Hardfork.block hf).

(** The callback given to [reduce]; [>] converts a null block to [0]. *)
Definition nextHardforkBlock_reducer (hfBlock : option Z) (acc : option Z)
    (hf : Hardfork.t) : option Z :=
  if (toNumber hfBlock <? toNumber (Hardfork.block hf)) && bool_decide (acc = None)
  then Hardfork.block hf else acc.

Definition nextHardforkBlock (c : Common) (hardfork : option string)
    : result (option Z) :=
  hardfork ← _chooseHardfork c hardfork (Some false);
  hfBlock ← hardforkBlock c (Some hardfork);
  Ok (fold_left (nextHardforkBlock_reducer hfBlock) (hardforks c) None).

(** *** Fork hashes *)

Fixpoint _calcForkHash_loop (hardfork : string) (hfs : list Hardfork.t)
    (hfBuffer : list Z) (prevBlock : option Z) : list Z :=
  match hfs with
  | [] => hfBuffer
  | hf :: rest =>
      let hfBuffer' :=
        match Hardfork.block hf with
        | Some block =>
            if negb (block =? 0) && negb (bool_decide (Some block = prevBlock))
            then hfBuffer ++ Buffer_from_hex (padStart 16 "0" (toString16 block))
            else hfBuffer
        | None => hfBuffer
        end in
      if decide (Hardfork.name hf = hardfork) then hfBuffer'
      else _calcForkHash_loop hardfork rest hfBuffer' (Hardfork.block hf)
  end.

Definition _calcForkHash (c : Common) (hardfork : string) : string :=
  let genesis := Buffer_from_hex (substr 2 (GenesisBlock.hash (genesis c))) in
  let hfBuffer := _calcForkHash_loop hardfork (hardforks c) [] (Some 0) in
  let inputBuffer := genesis ++ hfBuffer in
  let forkhash := toString16 (ushr0 (crc32Buffer inputBuffer)) in
  String.append "0x" forkhash.

Definition forkHash (c : Common) (hardfork : option string) : result JsString :=
  hardfork ← _chooseHardfork c hardfork (Some false);
  data ← _getHardfork c hardfork;
  match Hardfork.block data with
  | None => Err NoForkHash
  | Some _ =>
      match Hardfork.forkHash data with
      | SUndefined => Ok (SStr (_calcForkHash c hardfork))
      | precomputed => Ok precomputed
      end
  end.

Definition hardforkForForkHash (c : Common) (forkHash : JsString) : option Hardfork.t :=
  let resArray := filter (fun hf => Hardfork.forkHash hf = forkHash) (hardforks c) in
  match resArray with
  | [hf] => Some hf
  | _ => None
  end.

(** *** Setting the hardfork *)

(** The loop of [setHardfork]; [changed] is its local flag. *)
Fixpoint setHardfork_loop (hardfork : string)
    (changes : list (string * HardforkParams)) (changed : bool) : M bool :=
  match changes with
  | [] => pure changed
  | hfChanges :: rest =>
      if decide (hfChanges.1 = hardfork)
      then andThen (assign_hardfork hardfork)
                   (fun _ => setHardfork_loop hardfork rest true)
      else setHardfork_loop hardfork rest changed
  end.

Definition setHardfork (hardfork : string) : M unit :=
  andThen (lift (fun c => Ok (_isSupportedHardfork c hardfork)))
    (fun supported : bool =>
       if negb supported then throw (UnsupportedHardfork hardfork)
       else
         andThen (setHardfork_loop hardfork HARDFORK_CHANGES false)
           (fun changed : bool =>
              if negb changed then throw (UnknownHardfork hardfork) else pure tt)).

(** The loop of [setHardforkByBlockNumber]; [hardfork] is the name kept so
    far. *)
Definition setHardforkByBlockNumber_loop (blockNumber : Z) (hfs : list Hardfork.t)
    (hardfork : string) : string :=
  fold_left
    (fun hardfork hf =>
       match Hardfork.block hf with
       | None => hardfork
       | Some hardforkBlock =>
           if hardforkBlock <=? blockNumber then Hardfork.name hf else hardfork
       end)
    hfs hardfork.

Definition setHardforkByBlockNumber (blockNumber : Z) : M string :=
  andThen
    (lift (fun c => Ok (setHardforkByBlockNumber_loop blockNumber (hardforks c)
                          "chainstart")))
    (fun hardfork => andThen (setHardfork hardfork) (fun _ => pure hardfork)).

(** *** Queries by block number *)

(** [activeHfs[activeHfs.length - 1]] is [undefined] for an empty array, and
    reading its [name] raises. *)
Definition paramByBlock (c : Common) (topic name : string) (blockNumber : Z)
    : outcome JsValue :=
  let activeHfs := activeHardforks c (Some blockNumber) None in
  match last activeHfs with
  | None => TypeError
  | Some hf => Completes (paramByHardfork c topic name (Hardfork.name hf))
  end.

Definition hardforkIsActiveOnBlock (c : Common) (hardfork : option string)
    (blockNumber : Z) (opts : option hardforkOptions) : result bool :=
  let opts := default no_opts opts in
  let onlySupported := default false (onlySupported opts) in
  hardfork ← _chooseHardfork c hardfork (Some onlySupported);
  hfBlock ← hardforkBlock c (Some hardfork);
  Ok (match hfBlock with
      | Some b => b <=? blockNumber
      | None => false
      end).

Definition activeOnBlock (c : Common) (blockNumber : Z)
    (opts : option hardforkOptions) : result bool :=
  hardforkIsActiveOnBlock c None blockNumber opts.

Definition hardforkIsActiveOnChain (c : Common) (hardfork : option string)
    (opts : option hardforkOptions) : result bool :=
  let opts := default no_opts opts in
  let onlySupported := default false (onlySupported opts) in
  hardfork ← _chooseHardfork c hardfork (Some onlySupported);
  Ok (existsb
        (fun hf => bool_decide (Hardfork.name hf = hardfork)
                   && bool_decide (Hardfork.block hf ≠ None))
        (hardforks c)).

Definition isHardforkBlock (c : Common) (blockNumber : Z) (hardfork : option string)
    : result bool :=
  hardfork ← _chooseHardfork c hardfork (Some false);
  hfBlock ← hardforkBlock c (Some hardfork);
  Ok (bool_decide (hfBlock = Some blockNumber)).

Definition isNextHardforkBlock (c : Common) (blockNumber : Z)
    (hardfork : option string) : result bool :=
  hardfork ← _chooseHardfork c hardfork (Some false);
  nextHfBlock ← nextHardforkBlock c (Some hardfork);
  Ok (bool_decide (nextHfBlock = Some blockNumber)).

(** *** Construction *)

(** The constructor from the point where [setChain] has returned
    [chainParams]: the field initialisers, then the three optional steps in
    their order. An array is truthy even when empty, the empty string is
    not. A constructor that throws gives no instance. *)
Definition new_Common (chainParams : Chain.t) (opts : CommonOpts.t) : result Common :=
  let this :=
    {| _chainParams := chainParams; _hardfork := DEFAULT_HARDFORK;
       _supportedHardforks := default [] (CommonOpts.supportedHardforks opts);
       _eips := [] |} in
  let steps :=
    andThen
      (match CommonOpts.hardfork opts with
       | Some hardfork =>
           if decide (hardfork = "") then pure tt else setHardfork hardfork
       | None => pure tt
       end)
      (fun _ =>
         match CommonOpts.eips opts with
         | Some eips => setEIPs eips
         | None => pure tt
         end) in
  match steps this with
  | (Ok _, this) => Ok this
  | (Err e, _) => Err e
  end.

(* =================================================================== *)
(** ** Notions used to state the properties *)
(* =================================================================== *)

(** The names of a sequence of hardfork records. *)
Definition names (hfs : list Hardfork.t) : list string := Hardfork.name <$> hfs.

(** [data] is the record that [hardfork] names in the timeline: the first
    one with this name (the only one when names are unique). *)
Definition record_of (c : Common) (hardfork : string) (data : Hardfork.t) : Prop :=
  ∃ pre post, hardforks c = pre ++ data :: post ∧ Hardfork.name data = hardfork
              ∧ hardfork ∉ names pre.

(** The sequence in which [hardforkGteHardfork] looks up positions. *)
Definition compared (c : Common) (opts : option hardforkOptions) : list Hardfork.t :=
  let opts := default no_opts opts in
  if default false (onlyActive opts) then activeHardforks c None (Some opts)
  else hardforks c.

(** The records with a non-null block. *)
Definition scheduled (hfs : list Hardfork.t) : list Hardfork.t :=
  filter (λ hf, Hardfork.block hf ≠ None) hfs.

(** [blockNumber] is given and the record's block is above it. *)
Definition exceeds (blockNumber : option Z) (hf : Hardfork.t) : bool :=
  match blockNumber, Hardfork.block hf with
  | Some bn, Some b => bn <? b
  | _, _ => false
  end.

(** The records before the first one whose block exceeds [blockNumber]. *)
Fixpoint until_exceeds (blockNumber : option Z) (hfs : list Hardfork.t)
    : list Hardfork.t :=
  match hfs with
  | [] => []
  | hf :: rest =>
      if exceeds blockNumber hf then [] else hf :: until_exceeds blockNumber rest
  end.

(** A record passes the support filter: the filter is off, or the support
    allow-list of the instance is empty (all supported), or it has the
    name of the record. *)
Definition allowed (c : Common) (opts : option hardforkOptions) (hf : Hardfork.t) : Prop :=
  default false (onlySupported (default no_opts opts)) = true →
  _supportedHardforks c = [] ∨ Hardfork.name hf ∈ _supportedHardforks c.

#[local] Instance allowed_dec c opts hf : Decision (allowed c opts hf).
Proof. unfold allowed. apply _. Defined.

(** Reasons for [setEIPs] to reject an EIP. *)
Definition unknownEIP (eip : Z) : Prop := EIPs !! eip = None.

Definition tooOld (c : Common) (eip : Z) : Prop :=
  ∃ eipParams, EIPs !! eip = Some eipParams ∧
    (positions (_hardfork c) (EIP.minimumHardfork eipParams) (hardforks c)).1
    < (positions (_hardfork c) (EIP.minimumHardfork eipParams) (hardforks c)).2.

Definition acceptable (c : Common) (eip : Z) : Prop :=
  ∃ eipParams, EIPs !! eip = Some eipParams ∧
    (positions (_hardfork c) (EIP.minimumHardfork eipParams) (hardforks c)).2
    <= (positions (_hardfork c) (EIP.minimumHardfork eipParams) (hardforks c)).1.

(** What the file of an EIP of the dataset says about [(topic, name)], in
    terms of its own topics and their own entries: it gives a non-null
    value, it has the topic but no non-null value for the name, or it does
    not have the topic. *)
Definition eip_defines (eip : Z) (topic name : string) (value : JsValue) : Prop :=
  ∃ eipParams params entry,
    EIPs !! eip = Some eipParams ∧ EIP.topics eipParams !! topic = Some params
    ∧ params !! name = Some entry ∧ v entry = value ∧ value ≠ VNull.

Definition eip_passes (topic name : string) (eip : Z) : Prop :=
  ∃ eipParams params,
    EIPs !! eip = Some eipParams ∧ EIP.topics eipParams !! topic = Some params
    ∧ ∀ entry, params !! name = Some entry → v entry = VNull.

Definition eip_lacks_topic (eip : Z) (topic : string) : Prop :=
  ∃ eipParams, EIPs !! eip = Some eipParams ∧ EIP.topics eipParams !! topic = None.

(** The record is scheduled at a block after [h]. *)
Definition above (h : Z) (hf : Hardfork.t) : Prop :=
  ∃ b, Hardfork.block hf = Some b ∧ h < b.

(** The non-null blocks do not decrease along the timeline. *)
Definition ascending (hfs : list Hardfork.t) : Prop :=
  Sorted Z.le (omap Hardfork.block hfs).

(** The [k] bytes of [n], most significant first. *)
Fixpoint big_endian (k : nat) (n : Z) : list Z :=
  match k with
  | O => []
  | S k' => big_endian k' (n / 256) ++ [n mod 256]
  end.

(** The [k] hexadecimal digits of [n], most significant first. *)
Fixpoint fixed_hex (k : nat) (n : Z) : list ascii :=
  match k with
  | O => []
  | S k' => fixed_hex k' (n / 16) ++ [hex_digit (n mod 16)]
  end.

(** The records up to and including the first one named [hardfork]. *)
Fixpoint up_to (hardfork : string) (hfs : list Hardfork.t) : list Hardfork.t :=
  match hfs with
  | [] => []
  | hf :: rest =>
      hf :: (if decide (Hardfork.name hf = hardfork) then [] else up_to hardfork rest)
  end.

(** The blocks of the records whose block is neither [0] nor null and
    differs from the block of the record just before; [preceding] is that
    block, [None] when there is no record before. *)
Fixpoint transition_blocks (preceding : option (option Z)) (hfs : list Hardfork.t)
    : list Z :=
  match hfs with
  | [] => []
  | hf :: rest =>
      match Hardfork.block hf with
      | Some b => if decide (b ≠ 0 ∧ preceding ≠ Some (Some b)) then [b] else []
      | None => []
      end ++ transition_blocks (Some (Hardfork.block hf)) rest
  end.

(** The genesis hash as raw bytes. *)
Definition genesis_bytes (c : Common) : list Z :=
  Buffer_from_hex (substr 2 (GenesisBlock.hash (genesis c))).

(** A block number that a JS number holds exactly. *)
Definition safe_block (hf : Hardfork.t) : Prop :=
  ∀ b, Hardfork.block hf = Some b → 0 ≤ b ≤ MAX_SAFE_INTEGER.

(** An integer that fits a byte. *)
Definition is_byte (b : Z) : Prop := 0 ≤ b < 256.

(** The record is scheduled at a block up to [blockNumber]. *)
Definition applied (blockNumber : Z) (hf : Hardfork.t) : Prop :=
  ∃ b, Hardfork.block hf = Some b ∧ b ≤ blockNumber.

(** [chosen] is the name of the last record of [hfs] applied at
    [blockNumber], or [fallback] when there is none. *)
Definition last_applied (blockNumber : Z) (hfs : list Hardfork.t)
    (fallback chosen : string) : Prop :=
  (Forall (λ hf, ¬ applied blockNumber hf) hfs ∧ chosen = fallback)
  ∨ (∃ pre hf post, hfs = pre ++ hf :: post ∧ applied blockNumber hf
                    ∧ Hardfork.name hf = chosen
                    ∧ Forall (λ r, ¬ applied blockNumber r) post).

(** The index of the last record named [hardfork] in a sequence, [-1] when
    there is none. *)
Definition position (hardfork : string) (hfs : list Hardfork.t) : Z :=
  (fold_left
     (fun '(pos, index) hf =>
        (if decide (Hardfork.name hf = hardfork) then index else pos, index + 1))
     hfs (-1, 0)).1.

(** A hardfork file that leaves [(topic, name)] as it finds it, whatever the
    value so far. *)
Definition unchanged_by (topic name : string) (params : HardforkParams) : Prop :=
  ∀ value, hfChanges_step topic name params value = Ok value.

(** A lowercase hexadecimal digit. *)
Definition is_lower_hex (ch : ascii) : Prop :=
  ch ∈ list_ascii_of_string "0123456789abcdef".

(** A record that adds nothing to the fork hash wherever it stands: its
    block is null or [0]. *)
Definition blockless (hf : Hardfork.t) : Prop :=
  Hardfork.block hf = None ∨ Hardfork.block hf = Some 0.

(** The hardfork that the options ask for, if any. *)
Definition requested (opts : CommonOpts.t) : option string :=
  h ← CommonOpts.hardfork opts; if decide (h = "") then None else Some h.

(** The current hardfork is the default one, or a supported name of
    [HARDFORK_CHANGES]. *)
Definition hardfork_admitted (c : Common) : Prop :=
  _hardfork c = DEFAULT_HARDFORK
  ∨ (_isSupportedHardfork c (_hardfork c) = true
     ∧ _hardfork c ∈ HARDFORK_CHANGES.*1).

(** The calls that assign to a field of an instance, and the instance that
    a sequence of them leaves behind when the caller catches what they
    throw. *)
Inductive call : Type :=
| CallSetHardfork (hardfork : string)
| CallSetHardforkByBlockNumber (blockNumber : Z)
| CallSetEIPs (eips : list Z).

Definition after_call (c : Common) (cl : call) : Common :=
  match cl with
  | CallSetHardfork hardfork => (setHardfork hardfork c).2
  | CallSetHardforkByBlockNumber blockNumber =>
      (setHardforkByBlockNumber blockNumber c).2
  | CallSetEIPs eips => (setEIPs eips c).2
  end.

Definition after_calls (c : Common) (calls : list call) : Common :=
  fold_left after_call calls c.

(* =================================================================== *)
(** ** Properties *)
(* =================================================================== *)

(** *** Choosing and finding a hardfork *)

Lemma _chooseHardfork_given c hardfork :
  hardfork ≠ "" → _chooseHardfork c (Some hardfork) (Some false) = Ok hardfork.
Proof.
  intros Hne. unfold _chooseHardfork.
  destruct (decide (hardfork = "")); [done | reflexivity].
Qed.

Lemma _chooseHardfork_current c onlySupported :
  _chooseHardfork c None onlySupported = Ok (_hardfork c).
Proof. reflexivity. Qed.

Lemma find_hardfork_first hardfork hfs data :
  find_hardfork hardfork hfs = Some data →
  ∃ pre post, hfs = pre ++ data :: post ∧ Hardfork.name data = hardfork
              ∧ hardfork ∉ names pre.
Proof.
  induction hfs as [|hf rest IH]; simpl; [done |].
  destruct (decide (Hardfork.name hf = hardfork)) as [Heq | Hne].
  - intros [= ->]. exists [], rest. split_and!; [done | done | ].
    unfold names. simpl. apply not_elem_of_nil.
  - intros Hfind. destruct (IH Hfind) as (pre & post & -> & Hname & Hpre).
    exists (hf :: pre), post. split_and!; [done | done |].
    unfold names in *. rewrite fmap_cons, not_elem_of_cons. done.
Qed.

Lemma find_hardfork_unique hfs data :
  NoDup (names hfs) → data ∈ hfs →
  find_hardfork (Hardfork.name data) hfs = Some data.
Proof.
  unfold names. induction hfs as [|hf rest IH]; simpl.
  - intros _ Hin. by apply elem_of_nil in Hin.
  - rewrite NoDup_cons. intros [Hfresh Hnd] Hin.
    apply elem_of_cons in Hin as [-> | Hin].
    + destruct (decide _); done.
    + destruct (decide (Hardfork.name hf = Hardfork.name data)) as [Heq | Hne].
      * exfalso. apply Hfresh. rewrite Heq. by apply list_elem_of_fmap_2.
      * by apply IH.
Qed.

Lemma find_hardfork_record c hardfork data :
  record_of c hardfork data → find_hardfork hardfork (hardforks c) = Some data.
Proof.
  intros (pre & post & -> & Hname & Hpre). unfold names in Hpre.
  induction pre as [|hf pre IH]; simpl.
  - by destruct (decide _).
  - rewrite fmap_cons, not_elem_of_cons in Hpre. destruct Hpre as [Hne Hpre].
    destruct (decide (Hardfork.name hf = hardfork)); [done | by apply IH].
Qed.

Lemma record_of_elem_of c hardfork data :
  record_of c hardfork data → data ∈ hardforks c.
Proof.
  intros (pre & post & -> & _ & _). apply elem_of_app. right. by apply elem_of_cons; left.
Qed.

Lemma record_of_unique_name c data :
  NoDup (names (hardforks c)) → data ∈ hardforks c →
  record_of c (Hardfork.name data) data.
Proof.
  intros Hnd Hin. unfold record_of.
  destruct (find_hardfork_first _ _ _ (find_hardfork_unique _ _ Hnd Hin))
    as (pre & post & Heq & Hname & Hpre).
  by exists pre, post.
Qed.

(** *** Positions *)

Lemma positions_fold_absent hardfork1 hardfork2 hfs acc :
  hardfork1 ∉ names hfs → hardfork2 ∉ names hfs →
  ∃ index,
    fold_left
      (fun '(posHf1, posHf2, index) hf =>
         (if decide (Hardfork.name hf = hardfork1) then index else posHf1,
          if decide (Hardfork.name hf = hardfork2) then index else posHf2,
          index + 1))
      hfs acc = (acc.1.1, acc.1.2, index).
Proof.
  unfold names. revert acc.
  induction hfs as [|hf rest IH]; intros [[p1 p2] i]; simpl.
  - intros _ _. by exists i.
  - rewrite !not_elem_of_cons. intros [Hne1 Hrest1] [Hne2 Hrest2].
    destruct (decide (Hardfork.name hf = hardfork1)); [done |].
    destruct (decide (Hardfork.name hf = hardfork2)); [done |].
    destruct (IH (p1, p2, i + 1) Hrest1 Hrest2) as [j Hj]. by exists j.
Qed.

Lemma positions_absent hardfork1 hardfork2 hfs :
  hardfork1 ∉ names hfs → hardfork2 ∉ names hfs →
  positions hardfork1 hardfork2 hfs = (-1, -1).
Proof.
  intros H1 H2. unfold positions.
  destruct (positions_fold_absent hardfork1 hardfork2 hfs (-1, -1, 0) H1 H2)
    as [j ->].
  reflexivity.
Qed.

Lemma hardforkGteHardfork_positions c hardfork1 hardfork2 opts chosen :
  _chooseHardfork c hardfork1 (onlySupported (default no_opts opts)) = Ok chosen →
  hardforkGteHardfork c hardfork1 hardfork2 opts
  = Ok ((positions chosen hardfork2 (compared c opts)).2
        <=? (positions chosen hardfork2 (compared c opts)).1).
Proof.
  intros Hch. unfold hardforkGteHardfork, compared. rewrite Hch. simpl.
  destruct (positions _ _ _) as [p1 p2]. reflexivity.
Qed.

(** C9, as amended. When both compared names are absent from the compared
    sequence, both positions stay [-1] and [hardforkGteHardfork] returns
    [true], as does [gteHardfork] for the current hardfork. The explicit
    first name must pass [_chooseHardfork]. *)
Theorem hardforkGteHardfork_both_absent c hardfork1 hardfork2 opts chosen :
  _chooseHardfork c hardfork1 (onlySupported (default no_opts opts)) = Ok chosen →
  chosen ∉ names (compared c opts) →
  hardfork2 ∉ names (compared c opts) →
  positions chosen hardfork2 (compared c opts) = (-1, -1)
  ∧ hardforkGteHardfork c hardfork1 hardfork2 opts = Ok true
  ∧ (hardfork1 = None → gteHardfork c hardfork2 opts = Ok true).
Proof.
  intros Hch H1 H2.
  pose proof (positions_absent _ _ _ H1 H2) as Hpos.
  assert (hardforkGteHardfork c hardfork1 hardfork2 opts = Ok true) as Hgte.
  { rewrite (hardforkGteHardfork_positions _ _ _ _ _ Hch), Hpos. reflexivity. }
  split_and!; [done | done |].
  intros ->. exact Hgte.
Qed.

(** *** Fork hash of a record without block, or with a stored hash *)

(** C5. For a non-empty name of the timeline and the record [data] it
    designates, [forkHash] fails with [NoForkHash] exactly when the
    record's block is null, and returns a stored [forkHash] field as it is
    when the block is not null. *)
Theorem forkHash_null_block_or_stored c hardfork data :
  hardfork ≠ "" → record_of c hardfork data →
  (forkHash c (Some hardfork) = Err NoForkHash ↔ Hardfork.block data = None)
  ∧ (Hardfork.block data ≠ None → Hardfork.forkHash data ≠ SUndefined →
     forkHash c (Some hardfork) = Ok (Hardfork.forkHash data)).
Proof.
  intros Hne Hrec.
  pose proof (find_hardfork_record _ _ _ Hrec) as Hfind.
  unfold forkHash, _getHardfork.
  rewrite _chooseHardfork_given by done. simpl. rewrite Hfind. simpl.
  destruct (Hardfork.block data) as [b|]; simpl.
  - split.
    + split; [| done]. destruct (Hardfork.forkHash data); discriminate.
    + intros _ Hstored. destruct (Hardfork.forkHash data); done.
  - split; [done |]. intros Hb. done.
Qed.

(** *** Active hardforks *)

Lemma _isSupportedHardfork_allow_list c hardfork :
  _isSupportedHardfork c hardfork = true
  ↔ _supportedHardforks c = [] ∨ hardfork ∈ _supportedHardforks c.
Proof.
  unfold _isSupportedHardfork.
  destruct (_supportedHardforks c) as [|s rest]; simpl.
  - split; [by left | done].
  - rewrite bool_decide_eq_true. split; [by right | by intros [? | ?]].
Qed.

Lemma allowed_test c opts hf :
  default false (onlySupported (default no_opts opts))
  && negb (_isSupportedHardfork c (Hardfork.name hf))
  = negb (bool_decide (allowed c opts hf)).
Proof.
  unfold allowed. case_bool_decide as Hd.
  - destruct (default false _); [| reflexivity].
    by rewrite (proj2 (_isSupportedHardfork_allow_list c _) (Hd eq_refl)).
  - destruct (default false _); [| by destruct Hd].
    destruct (_isSupportedHardfork c _) eqn:Hsup; [| reflexivity].
    destruct Hd. intros _. by apply _isSupportedHardfork_allow_list.
Qed.

Lemma activeHardforks_loop_filter c blockNumber opts hfs :
  activeHardforks_loop c blockNumber (default no_opts opts) hfs
  = filter (allowed c opts) (until_exceeds blockNumber (scheduled hfs)).
Proof.
  unfold scheduled.
  induction hfs as [|hf rest IH]; [reflexivity |].
  rewrite filter_cons. simpl.
  destruct (Hardfork.block hf) as [b|] eqn:Hb.
  - destruct (decide (Some b ≠ None)) as [_ | Habs]; [| by destruct Habs].
    simpl. unfold exceeds at 1. rewrite Hb, allowed_test, IH.
    assert ((if negb (bool_decide (allowed c opts hf))
             then filter (allowed c opts)
                    (until_exceeds blockNumber
                       (filter (λ hf, Hardfork.block hf ≠ None) rest))
             else hf :: filter (allowed c opts)
                    (until_exceeds blockNumber
                       (filter (λ hf, Hardfork.block hf ≠ None) rest)))
            = filter (allowed c opts)
                (hf :: until_exceeds blockNumber
                         (filter (λ hf, Hardfork.block hf ≠ None) rest))) as ->.
    { rewrite filter_cons. by case_bool_decide; destruct (decide _). }
    destruct blockNumber as [bn|]; [| reflexivity].
    by destruct (bn <? b).
  - destruct (decide (None ≠ None)) as [Habs | _]; [done |]. exact IH.
Qed.

Lemma until_exceeds_split blockNumber hfs :
  ∃ rest, hfs = until_exceeds blockNumber hfs ++ rest
          ∧ Forall (λ hf, exceeds blockNumber hf = false) (until_exceeds blockNumber hfs)
          ∧ match rest with
            | hf :: _ => exceeds blockNumber hf = true
            | [] => True
            end.
Proof.
  induction hfs as [|hf tl (rest & Heq & Hall & Hrest)]; simpl.
  - exists []. by split_and!.
  - destruct (exceeds blockNumber hf) eqn:Hex.
    + exists (hf :: tl). by split_and!.
    + exists rest. split_and!; [simpl; by f_equal | by constructor | done].
Qed.

Lemma filter_allowed_all c opts (hfs : list Hardfork.t) :
  default false (onlySupported (default no_opts opts)) = false →
  filter (allowed c opts) hfs = hfs.
Proof.
  intros Hoff. induction hfs as [|hf rest IH]; [reflexivity |].
  rewrite filter_cons, IH.
  destruct (decide (allowed c opts hf)) as [_ | Hn]; [reflexivity |].
  exfalso. apply Hn. unfold allowed. rewrite Hoff. done.
Qed.

Lemma filter_allowed_listed c opts (hfs : list Hardfork.t) :
  default false (onlySupported (default no_opts opts)) = true →
  _supportedHardforks c ≠ [] →
  filter (allowed c opts) hfs
  = filter (λ hf, Hardfork.name hf ∈ _supportedHardforks c) hfs.
Proof.
  intros Hon Hne. apply list_filter_iff. intros hf. unfold allowed. split.
  - intros Hallowed. by destruct (Hallowed Hon).
  - intros Hin _. by right.
Qed.

(** C3. [activeHardforks] keeps, in timeline order, the records with a
    non-null block that come before the first such record whose block
    exceeds [blockNumber], less those the support filter excludes: with
    the filter on and a non-empty allow-list of the instance, those whose
    name is not in the list. Without the filter it is a prefix of the
    records with a non-null block; it is empty when no record qualifies. *)
Theorem activeHardforks_prefix c blockNumber opts :
  let upto := until_exceeds blockNumber (scheduled (hardforks c)) in
  activeHardforks c blockNumber opts = filter (allowed c opts) upto
  ∧ (∃ rest, scheduled (hardforks c) = upto ++ rest
             ∧ Forall (λ hf, exceeds blockNumber hf = false) upto
             ∧ match rest with
               | hf :: _ => exceeds blockNumber hf = true
               | [] => True
               end)
  ∧ (default false (onlySupported (default no_opts opts)) = false →
     activeHardforks c blockNumber opts `prefix_of` scheduled (hardforks c))
  ∧ (default false (onlySupported (default no_opts opts)) = true →
     _supportedHardforks c ≠ [] →
     activeHardforks c blockNumber opts
     = filter (λ hf, Hardfork.name hf ∈ _supportedHardforks c) upto)
  ∧ activeHardforks c blockNumber opts `sublist_of` hardforks c
  ∧ (upto = [] → activeHardforks c blockNumber opts = []).
Proof.
  intros upto.
  assert (activeHardforks c blockNumber opts = filter (allowed c opts) upto) as Hact.
  { unfold activeHardforks. apply activeHardforks_loop_filter. }
  destruct (until_exceeds_split blockNumber (scheduled (hardforks c)))
    as (rest & Heq & Hall & Hrest).
  split_and!.
  - exact Hact.
  - by exists rest.
  - intros Hoff. rewrite Hact, filter_allowed_all by done. by exists rest.
  - intros Hon Hne. rewrite Hact. by apply filter_allowed_listed.
  - rewrite Hact. transitivity upto; [apply sublist_filter |].
    transitivity (scheduled (hardforks c)); [| apply sublist_filter].
    rewrite Heq. by apply sublist_inserts_r.
  - intros Hnil. rewrite Hact, Hnil. reflexivity.
Qed.

(** *** Setting the active EIPs *)

Lemma gteHardfork_positions c hardfork :
  gteHardfork c hardfork None
  = Ok ((positions (_hardfork c) hardfork (hardforks c)).2
        <=? (positions (_hardfork c) hardfork (hardforks c)).1).
Proof.
  unfold gteHardfork.
  rewrite (hardforkGteHardfork_positions c None hardfork None (_hardfork c)) by done.
  reflexivity.
Qed.

Lemma setEIPs_body_acceptable c eip :
  acceptable c eip → setEIPs_body eip c = (Ok tt, c).
Proof.
  intros (eipParams & Hlook & Hpos). unfold setEIPs_body. rewrite Hlook.
  unfold andThen, lift. rewrite gteHardfork_positions.
  apply Z.leb_le in Hpos. rewrite Hpos. reflexivity.
Qed.

Lemma setEIPs_body_unknown c eip :
  unknownEIP eip → setEIPs_body eip c = (Err (UnknownEIP eip), c).
Proof. intros Hlook. unfold setEIPs_body. rewrite Hlook. reflexivity. Qed.

Lemma setEIPs_body_tooOld c eip :
  tooOld c eip → setEIPs_body eip c = (Err (HardforkTooOld eip (_hardfork c)), c).
Proof.
  intros (eipParams & Hlook & Hpos). unfold setEIPs_body. rewrite Hlook.
  unfold andThen, lift. rewrite gteHardfork_positions.
  apply Z.leb_gt in Hpos. rewrite Hpos. reflexivity.
Qed.

Lemma eip_cases c eip : acceptable c eip ∨ unknownEIP eip ∨ tooOld c eip.
Proof.
  unfold acceptable, unknownEIP, tooOld.
  destruct (EIPs !! eip) as [eipParams|]; [| by right; left].
  destruct (Z_le_gt_dec
              (positions (_hardfork c) (EIP.minimumHardfork eipParams) (hardforks c)).2
              (positions (_hardfork c) (EIP.minimumHardfork eipParams) (hardforks c)).1).
  - left. eauto.
  - right; right. eexists. split; [done | lia].
Qed.

Lemma acceptable_not_rejected c eip :
  acceptable c eip → ¬ (unknownEIP eip ∨ tooOld c eip).
Proof.
  intros (eipParams & Hlook & Hpos) [Hun | (eipParams' & Hlook' & Hpos')].
  - unfold unknownEIP in Hun. congruence.
  - assert (eipParams' = eipParams) as -> by congruence. lia.
Qed.

Lemma forOf_setEIPs_ok c eips :
  Forall (acceptable c) eips → forOf eips setEIPs_body c = (Ok tt, c).
Proof.
  induction 1 as [|eip rest Hacc _ IH]; [reflexivity |].
  simpl. unfold andThen at 1. rewrite setEIPs_body_acceptable by done. exact IH.
Qed.

Lemma forOf_setEIPs_err c pre eip post e :
  Forall (acceptable c) pre → setEIPs_body eip c = (Err e, c) →
  forOf (pre ++ eip :: post) setEIPs_body c = (Err e, c).
Proof.
  intros Hpre Herr. induction Hpre as [|x pre Hacc _ IH]; simpl.
  - unfold andThen. rewrite Herr. reflexivity.
  - unfold andThen at 1. rewrite setEIPs_body_acceptable by done. exact IH.
Qed.

Lemma first_rejected c eips :
  Exists (λ eip, unknownEIP eip ∨ tooOld c eip) eips →
  ∃ pre eip post, eips = pre ++ eip :: post ∧ Forall (acceptable c) pre
                  ∧ (unknownEIP eip ∨ tooOld c eip).
Proof.
  induction eips as [|x rest IH]; [by inversion 1 |].
  intros Hex. destruct (eip_cases c x) as [Hacc | Hrej].
  - apply Exists_cons in Hex as [Hx | Hrest].
    + by apply acceptable_not_rejected in Hacc.
    + destruct (IH Hrest) as (pre & eip & post & -> & Hpre & Hrej).
      exists (x :: pre), eip, post. split_and!; [done | by constructor | done].
  - exists [], x, rest. by split_and!.
Qed.

Lemma setEIPs_rejects c pre eip post e :
  Forall (acceptable c) pre → setEIPs_body eip c = (Err e, c) →
  setEIPs (pre ++ eip :: post) c = (Err e, c).
Proof.
  intros Hpre Herr. unfold setEIPs, andThen.
  rewrite (forOf_setEIPs_err c pre eip post e) by done. reflexivity.
Qed.

(** C4. [setEIPs] is all-or-nothing: if some EIP of the list is not in the
    dataset or needs a hardfork after the current one, the call fails (with
    the error of the first such EIP) and the instance, hence its EIP list,
    is what it was; the list is assigned only when every EIP passes. *)
Theorem setEIPs_all_or_nothing c eips :
  (Exists (λ eip, unknownEIP eip ∨ tooOld c eip) eips →
     ∃ e, setEIPs eips c = (Err e, c))
  ∧ (∀ pre eip post, eips = pre ++ eip :: post → Forall (acceptable c) pre →
       (unknownEIP eip → setEIPs eips c = (Err (UnknownEIP eip), c))
       ∧ (tooOld c eip →
          setEIPs eips c = (Err (HardforkTooOld eip (_hardfork c)), c)))
  ∧ (Forall (acceptable c) eips → setEIPs eips c = assign_eips eips c)
  ∧ (∀ c', setEIPs eips c = (Ok tt, c') →
       Forall (acceptable c) eips ∧ _eips c' = eips
       ∧ _hardfork c' = _hardfork c ∧ _chainParams c' = _chainParams c).
Proof.
  assert (∀ pre eip post, eips = pre ++ eip :: post → Forall (acceptable c) pre →
       (unknownEIP eip → setEIPs eips c = (Err (UnknownEIP eip), c))
       ∧ (tooOld c eip →
          setEIPs eips c = (Err (HardforkTooOld eip (_hardfork c)), c))) as Hfirst.
  { intros pre eip post -> Hpre. split; intros Hrej.
    - apply setEIPs_rejects; [done | by apply setEIPs_body_unknown].
    - apply setEIPs_rejects; [done | by apply setEIPs_body_tooOld]. }
  assert (Exists (λ eip, unknownEIP eip ∨ tooOld c eip) eips →
     ∃ e, setEIPs eips c = (Err e, c)) as Hfail.
  { intros Hex.
    destruct (first_rejected c eips Hex) as (pre & eip & post & Heq & Hpre & [Hun | Hold]).
    - eexists. by apply (proj1 (Hfirst pre eip post Heq Hpre)).
    - eexists. by apply (proj2 (Hfirst pre eip post Heq Hpre)). }
  assert (Forall (acceptable c) eips → setEIPs eips c = assign_eips eips c) as Hok.
  { intros Hall. unfold setEIPs, andThen. by rewrite forOf_setEIPs_ok. }
  split_and!; [done | done | done |].
  intros c' Hset.
  assert (Forall (acceptable c) eips) as Hall.
  { apply Forall_forall. intros eip Hin.
    destruct (eip_cases c eip) as [Hacc | Hrej]; [done |].
    assert (∃ e, setEIPs eips c = (Err e, c)) as [e He]; [| congruence].
    apply Hfail, Exists_exists. exists eip. by split. }
  rewrite (Hok Hall) in Hset. unfold assign_eips in Hset.
  injection Hset as <-. by split_and!.
Qed.

(** *** Parameters: the EIP layer *)

Lemma paramByEIP_own eip eipParams topic params name :
  EIPs !! eip = Some eipParams → EIP.topics eipParams !! topic = Some params →
  paramByEIP topic name eip
  = Ok (match params !! name with
        | Some entry => v entry
        | None => if inherits runtime name then VUndefined else VNull
        end).
Proof.
  intros H1 H2. unfold paramByEIP, EIP_member. rewrite H1, H2. simpl.
  destruct (params !! name) as [entry|]; simpl; [reflexivity |].
  by destruct (inherits runtime name).
Qed.

Lemma paramByEIP_defines eip topic name value :
  eip_defines eip topic name value → paramByEIP topic name eip = Ok value.
Proof.
  intros (eipParams & params & entry & H1 & H2 & H3 & <- & _).
  rewrite (paramByEIP_own eip eipParams topic params name H1 H2). by rewrite H3.
Qed.

Lemma paramByEIP_passes eip topic name :
  inherits runtime name = false →
  eip_passes topic name eip → paramByEIP topic name eip = Ok VNull.
Proof.
  intros Hname (eipParams & params & H1 & H2 & H3).
  rewrite (paramByEIP_own eip eipParams topic params name H1 H2), Hname.
  destruct (params !! name) as [entry|]; [| done]. by rewrite (H3 entry eq_refl).
Qed.

Lemma paramByEIP_lacks_topic eip topic name :
  topic ≠ "minimumHardfork" → inherits runtime topic = false →
  eip_lacks_topic eip topic → paramByEIP topic name eip = Err (UnknownTopic topic).
Proof.
  intros Hmin Htopic (eipParams & H1 & H2).
  unfold paramByEIP, EIP_member. rewrite H1, H2, Htopic.
  by destruct (decide (topic = "minimumHardfork")).
Qed.

Lemma paramByEIP_null eip topic name :
  topic ≠ "minimumHardfork" → inherits runtime topic = false →
  paramByEIP topic name eip = Ok VNull → eip_passes topic name eip.
Proof.
  intros Hmin Htopic. unfold eip_passes, paramByEIP, EIP_member.
  destruct (EIPs !! eip) as [eipParams|] eqn:H1; [| done].
  destruct (EIP.topics eipParams !! topic) as [params|] eqn:H2.
  - simpl. intros Hv. exists eipParams, params. do 2 (split; [done |]).
    intros entry Hentry. rewrite Hentry in Hv. simpl in Hv. congruence.
  - rewrite Htopic. by destruct (decide (topic = "minimumHardfork")).
Qed.

Lemma eip_passes_cases topic name eip :
  eip_passes topic name eip ∨ ¬ eip_passes topic name eip.
Proof.
  unfold eip_passes.
  destruct (EIPs !! eip) as [eipParams|] eqn:H1;
    [| right; intros (? & ? & ? & _); congruence].
  destruct (EIP.topics eipParams !! topic) as [params|] eqn:H2;
    [| right; intros (? & ? & ? & ? & _); congruence].
  destruct (params !! name) as [entry|] eqn:H3.
  - destruct (decide (v entry = VNull)) as [Hv | Hv].
    + left. exists eipParams, params. do 2 (split; [done |]).
      intros entry' Hentry. congruence.
    + right. intros (eipParams' & params' & H1' & H2' & Hall).
      apply Hv. apply Hall.
      assert (eipParams' = eipParams) as -> by congruence. congruence.
  - left. exists eipParams, params. do 2 (split; [done |]).
    intros entry Hentry. congruence.
Qed.

Lemma param_loop_passes c topic name pre rest :
  Forall (λ eip, paramByEIP topic name eip = Ok VNull) pre →
  param_loop c topic name (pre ++ rest) = param_loop c topic name rest.
Proof.
  induction 1 as [|eip pre Hpass _ IH]; [reflexivity |].
  simpl. rewrite Hpass. simpl. exact IH.
Qed.

Lemma param_loop_stops c topic name eip rest :
  paramByEIP topic name eip ≠ Ok VNull →
  param_loop c topic name (eip :: rest) = paramByEIP topic name eip.
Proof.
  intros Hne. simpl.
  destruct (paramByEIP topic name eip) as [value|e]; simpl; [| reflexivity].
  destruct (decide (value = VNull)) as [-> | _]; [done | reflexivity].
Qed.

Lemma param_all_pass c topic name :
  Forall (λ eip, paramByEIP topic name eip = Ok VNull) (_eips c) →
  param c topic name = paramByHardfork c topic name (_hardfork c).
Proof.
  intros Hall. unfold param.
  rewrite <- (app_nil_r (_eips c)), param_loop_passes by done. reflexivity.
Qed.

Lemma param_first_decisive c topic name pre eip post :
  _eips c = pre ++ eip :: post →
  Forall (λ eip, paramByEIP topic name eip = Ok VNull) pre →
  paramByEIP topic name eip ≠ Ok VNull →
  param c topic name = paramByEIP topic name eip.
Proof.
  intros Heq Hpre Hstop. unfold param.
  rewrite Heq, param_loop_passes by done. by apply param_loop_stops.
Qed.

Lemma Forall_eip_passes topic name eips :
  inherits runtime name = false →
  Forall (eip_passes topic name) eips →
  Forall (λ eip, paramByEIP topic name eip = Ok VNull) eips.
Proof.
  intros Hname Hall. eapply Forall_impl; [exact Hall |].
  intros eip. by apply paramByEIP_passes.
Qed.

(** C1, as amended. For a name that objects do not inherit, the active
    EIPs are consulted in list order before the timeline: when every EIP
    listed before [eip] is in the dataset and has the topic without a
    non-null value for the name, and [eip] gives [(topic, name)] a non-null
    value, [param] returns that value whatever the timeline defines; when
    every active EIP is of the first kind, [param] is the timeline value of
    the current hardfork. *)
Theorem param_eip_precedence c topic name pre :
  inherits runtime name = false →
  Forall (eip_passes topic name) pre →
  (∀ eip post value,
     _eips c = pre ++ eip :: post → eip_defines eip topic name value →
     param c topic name = Ok value)
  ∧ (_eips c = pre →
     param c topic name = paramByHardfork c topic name (_hardfork c)).
Proof.
  intros Hname Hpre. apply (Forall_eip_passes _ _ _ Hname) in Hpre. split.
  - intros eip post value Heq Hdef.
    rewrite (param_first_decisive c topic name pre eip post Heq Hpre).
    + by apply paramByEIP_defines.
    + rewrite (paramByEIP_defines _ _ _ _ Hdef).
      destruct Hdef as (? & ? & ? & _ & _ & _ & _ & Hnn). congruence.
  - intros Heq. apply param_all_pass. by rewrite Heq.
Qed.

(** C10, as amended. For a topic that is neither an inherited member nor
    the [minimumHardfork] of the file, and a name that objects do not
    inherit: an active EIP without the topic makes [param] throw when it is
    reached, that is when every EIP listed before it has the topic and no
    non-null value for the name; [param] hands over to the timeline when
    every active EIP is of that kind, and otherwise its outcome is that of
    the first active EIP that is not. *)
Theorem param_topic_not_defined c topic name :
  topic ≠ "minimumHardfork" → inherits runtime topic = false →
  inherits runtime name = false →
  (∀ pre eip post,
     _eips c = pre ++ eip :: post → Forall (eip_passes topic name) pre →
     eip_lacks_topic eip topic →
     param c topic name = Err (UnknownTopic topic))
  ∧ (Forall (eip_passes topic name) (_eips c) →
     param c topic name = paramByHardfork c topic name (_hardfork c))
  ∧ (¬ Forall (eip_passes topic name) (_eips c) →
     ∃ pre eip post,
       _eips c = pre ++ eip :: post ∧ Forall (eip_passes topic name) pre
       ∧ ¬ eip_passes topic name eip
       ∧ param c topic name = paramByEIP topic name eip).
Proof.
  intros Hmin Htopic Hname. split_and!.
  - intros pre eip post Heq Hpre Hlack.
    pose proof (paramByEIP_lacks_topic eip topic name Hmin Htopic Hlack) as Herr.
    apply (Forall_eip_passes _ _ _ Hname) in Hpre.
    rewrite (param_first_decisive c topic name pre eip post Heq Hpre).
    + exact Herr.
    + rewrite Herr. discriminate.
  - intros Hall. apply param_all_pass. by apply Forall_eip_passes.
  - intros Hnot.
    assert (∃ pre eip post,
              _eips c = pre ++ eip :: post ∧ Forall (eip_passes topic name) pre
              ∧ ¬ eip_passes topic name eip) as (pre & eip & post & Heq & Hpre & Hstop).
    { induction (_eips c) as [|eip rest IH].
      - destruct Hnot. constructor.
      - destruct (eip_passes_cases topic name eip) as [Hpass | Hstop].
        + destruct IH as (pre & x & post & -> & Hpre & Hstop).
          { intros Hrest. apply Hnot. by constructor. }
          exists (eip :: pre), x, post. split_and!; [done | by constructor | done].
        + exists [], eip, rest. by split_and!. }
    exists pre, eip, post. split_and!; [done | done | done |].
    apply param_first_decisive with pre post; [done | by apply Forall_eip_passes |].
    intros Hnull. by apply Hstop, paramByEIP_null.
Qed.

(** *** Parameters: the timeline walk *)

Lemma hfChanges_loop_app topic name hardfork pre rest value :
  hardfork ∉ pre.*1 →
  hfChanges_loop topic name hardfork (pre ++ rest) value
  = hfChanges_loop topic name hardfork pre value
      ≫= hfChanges_loop topic name hardfork rest.
Proof.
  revert value. induction pre as [|hfChanges pre IH]; intros value; simpl.
  - reflexivity.
  - rewrite not_elem_of_cons. intros [Hne Hpre].
    destruct (hfChanges_step topic name hfChanges.2 value) as [value'|e]; simpl;
      [| reflexivity].
    destruct (decide (hfChanges.1 = hardfork)) as [Heq | _]; [done |].
    by apply IH.
Qed.

Lemma hfChanges_step_own topic name topics params value :
  topics !! topic = Some params →
  hfChanges_step topic name (ParameterInlining topics) value
  = Ok (match params !! name with
        | Some entry => v entry
        | None => if inherits runtime name then VUndefined else value
        end).
Proof.
  intros Htopic. unfold hfChanges_step, file_member. rewrite Htopic. simpl.
  destruct (params !! name) as [entry|]; simpl; [reflexivity |].
  by destruct (inherits runtime name).
Qed.

Lemma hfChanges_step_lacks_topic topic name topics value :
  topics !! topic = None → inherits runtime topic = false →
  hfChanges_step topic name (ParameterInlining topics) value
  = Err (UnknownTopic topic).
Proof.
  intros Htopic Hinh. unfold hfChanges_step, file_member.
  by rewrite Htopic, Hinh.
Qed.

(** For a topic and a name that objects do not inherit: in the walk of
    [paramByHardfork], a parameter-inlining record that is reached (the
    records before it are not the target and raised no error) and has no
    entry for the topic makes the call fail with [UnknownTopic]; one that
    has the topic but not the name leaves the value found so far as it is
    and raises no error. *)
Theorem paramByHardfork_inlining_record c topic name hardfork target
    pre hfName topics post value :
  _chooseHardfork c (Some hardfork) None = Ok target →
  HARDFORK_CHANGES = pre ++ (hfName, ParameterInlining topics) :: post →
  target ∉ pre.*1 →
  hfChanges_loop topic name target pre VNull = Ok value →
  (topics !! topic = None → inherits runtime topic = false →
   paramByHardfork c topic name hardfork = Err (UnknownTopic topic))
  ∧ (∀ params, topics !! topic = Some params → params !! name = None →
     inherits runtime name = false →
     hfChanges_step topic name (ParameterInlining topics) value = Ok value
     ∧ paramByHardfork c topic name hardfork
       = if decide (hfName = target) then Ok value
         else hfChanges_loop topic name target post value).
Proof.
  intros Hch Heq Hpre Hwalk.
  assert (paramByHardfork c topic name hardfork
          = hfChanges_loop topic name target
              ((hfName, ParameterInlining topics) :: post) value) as Hrun.
  { unfold paramByHardfork. rewrite Hch. simpl.
    rewrite Heq, hfChanges_loop_app, Hwalk by done. reflexivity. }
  split.
  - intros Hno Hinh. rewrite Hrun. cbn [hfChanges_loop snd].
    by rewrite hfChanges_step_lacks_topic.
  - intros params Htopic Hname Hinh.
    assert (hfChanges_step topic name (ParameterInlining topics) value = Ok value)
      as Hstep.
    { rewrite (hfChanges_step_own topic name topics params value Htopic).
      by rewrite Hname, Hinh. }
    split; [exact Hstep |].
    rewrite Hrun. cbn [hfChanges_loop snd fst]. rewrite Hstep. reflexivity.
Qed.

(** *** The next hardfork block *)

Lemma nextHardforkBlock_reducer_set hfBlock hfs nb :
  fold_left (nextHardforkBlock_reducer hfBlock) hfs (Some nb) = Some nb.
Proof.
  induction hfs as [|hf rest IH]; [reflexivity |].
  simpl. unfold nextHardforkBlock_reducer at 2.
  rewrite bool_decide_eq_false_2 by done. by rewrite andb_false_r.
Qed.

Lemma nextHardforkBlock_reducer_first h hfs :
  0 ≤ h →
  match fold_left (nextHardforkBlock_reducer (Some h)) hfs None with
  | Some nb =>
      ∃ pre hf post, hfs = pre ++ hf :: post ∧ Hardfork.block hf = Some nb
                     ∧ h < nb ∧ Forall (λ r, ¬ above h r) pre
  | None => Forall (λ r, ¬ above h r) hfs
  end.
Proof.
  intros Hh. induction hfs as [|hf rest IH]; simpl; [by constructor |].
  unfold nextHardforkBlock_reducer at 2. simpl.
  destruct (Hardfork.block hf) as [b|] eqn:Hb; simpl.
  - destruct (h <? b) eqn:Hlt; simpl.
    + rewrite nextHardforkBlock_reducer_set.
      exists [], hf, rest. apply Z.ltb_lt in Hlt. by split_and!.
    + apply Z.ltb_ge in Hlt.
      assert (¬ above h hf) as Hna.
      { intros (b' & Hb' & Hlt'). rewrite Hb in Hb'. injection Hb' as <-. lia. }
      destruct (fold_left _ rest None) as [nb|].
      * destruct IH as (pre & x & post & -> & Hx & Hlt' & Hpre).
        exists (hf :: pre), x, post. split_and!; [done | done | done | by constructor].
      * by constructor.
  - assert ((h <? 0) = false) as -> by by apply Z.ltb_ge.
    simpl.
    assert (¬ above h hf) as Hna.
    { intros (b' & Hb' & _). congruence. }
    destruct (fold_left _ rest None) as [nb|].
    + destruct IH as (pre & x & post & -> & Hx & Hlt' & Hpre).
      exists (hf :: pre), x, post. split_and!; [done | done | done | by constructor].
    + by constructor.
Qed.

Lemma ascending_first_least h pre hf post nb :
  ascending (pre ++ hf :: post) → Forall (λ r, ¬ above h r) pre →
  Hardfork.block hf = Some nb →
  ∀ hf', hf' ∈ pre ++ hf :: post → above h hf' →
         ∃ b, Hardfork.block hf' = Some b ∧ nb ≤ b.
Proof.
  unfold ascending. intros Hsorted Hpre Hnb hf' Hin Habove.
  apply Sorted_StronglySorted in Hsorted; [| apply _].
  rewrite omap_app in Hsorted. apply StronglySorted_app_1_r in Hsorted.
  simpl in Hsorted. rewrite Hnb in Hsorted.
  apply StronglySorted_cons in Hsorted as [Hle _].
  apply elem_of_app in Hin as [Hin | Hin].
  - rewrite Forall_forall in Hpre. by destruct (Hpre hf' Hin).
  - apply elem_of_cons in Hin as [-> | Hin].
    + exists nb. split; [done | lia].
    + destruct Habove as (b & Hb & _). exists b. split; [done |].
      rewrite Forall_forall in Hle. apply Hle.
      apply list_elem_of_omap. by exists hf'.
Qed.

Lemma nextHardforkBlock_reducer_first_any hfBlock hfs :
  match fold_left (nextHardforkBlock_reducer hfBlock) hfs None with
  | Some nb =>
      ∃ pre hf post, hfs = pre ++ hf :: post ∧ Hardfork.block hf = Some nb
                     ∧ toNumber hfBlock < nb
                     ∧ Forall (λ r, ¬ above (toNumber hfBlock) r) pre
  | None => Forall (λ r, ¬ above (toNumber hfBlock) r) hfs
  end.
Proof.
  induction hfs as [|hf rest IH]; simpl; [by constructor |].
  unfold nextHardforkBlock_reducer at 2.
  rewrite bool_decide_eq_true_2, andb_true_r by done.
  destruct (Hardfork.block hf) as [b|] eqn:Hb.
  - simpl. destruct (toNumber hfBlock <? b) eqn:Hlt.
    + rewrite nextHardforkBlock_reducer_set.
      exists [], hf, rest. apply Z.ltb_lt in Hlt. by split_and!.
    + apply Z.ltb_ge in Hlt.
      assert (¬ above (toNumber hfBlock) hf) as Hna.
      { intros (b' & Hb' & Hlt'). rewrite Hb in Hb'. injection Hb' as <-. lia. }
      destruct (fold_left _ rest None) as [nb|].
      * destruct IH as (pre & x & post & -> & Hx & Hlt' & Hpre).
        exists (hf :: pre), x, post. split_and!; [done | done | done | by constructor].
      * by constructor.
  - assert ((if toNumber hfBlock <? toNumber None then None else None)
            = @None Z) as -> by by destruct (_ <? _).
    assert (¬ above (toNumber hfBlock) hf) as Hna.
    { intros (b' & Hb' & _). congruence. }
    destruct (fold_left _ rest None) as [nb|].
    + destruct IH as (pre & x & post & -> & Hx & Hlt' & Hpre).
      exists (hf :: pre), x, post. split_and!; [done | done | done | by constructor].
    + by constructor.
Qed.

Lemma nextHardforkBlock_fold c hardfork data :
  hardfork ≠ "" → record_of c hardfork data →
  nextHardforkBlock c (Some hardfork)
  = Ok (fold_left (nextHardforkBlock_reducer (Hardfork.block data)) (hardforks c) None).
Proof.
  intros Hne Hrec.
  pose proof (find_hardfork_record _ _ _ Hrec) as Hfind.
  assert (hardforkBlock c (Some hardfork) = Ok (Hardfork.block data)) as Hblk.
  { unfold hardforkBlock, _getHardfork.
    rewrite _chooseHardfork_given by done. simpl. by rewrite Hfind. }
  unfold nextHardforkBlock.
  rewrite _chooseHardfork_given by done. simpl. by rewrite Hblk.
Qed.

(** For a non-empty hardfork name of any timeline, [nextHardforkBlock]
    returns the block of the first record in timeline order whose block is
    above the block of the name (a null block of the name counting as [0],
    as [>] has it), and null when there is none. *)
Theorem nextHardforkBlock_first_in_order c hardfork data :
  hardfork ≠ "" → record_of c hardfork data →
  ∃ next,
    nextHardforkBlock c (Some hardfork) = Ok next
    ∧ match next with
      | Some nb =>
          ∃ pre hf post,
            hardforks c = pre ++ hf :: post ∧ Hardfork.block hf = Some nb
            ∧ toNumber (Hardfork.block data) < nb
            ∧ Forall (λ r, ¬ above (toNumber (Hardfork.block data)) r) pre
      | None =>
          Forall (λ r, ¬ above (toNumber (Hardfork.block data)) r) (hardforks c)
      end.
Proof.
  intros Hne Hrec. rewrite nextHardforkBlock_fold with (data := data) by done.
  eexists. split; [reflexivity |].
  apply nextHardforkBlock_reducer_first_any.
Qed.

(** C6. On a timeline in activation order (its non-null blocks do not
    decrease), for a non-empty hardfork name of the timeline,
    [nextHardforkBlock] returns the smallest block above the block of the
    name among the records with a non-null block, and null when there is
    no such record; the comparison is that of [>], for which the null block
    of a name counts as [0]. On the timeline [chainstart@0,
    homestead@1150000, byzantium@4370000, istanbul@null] the answer for
    [homestead] is [4370000]. *)
Theorem nextHardforkBlock_smallest_above :
  (∀ c hardfork data,
     hardfork ≠ "" → record_of c hardfork data → ascending (hardforks c) →
     ∃ next,
       nextHardforkBlock c (Some hardfork) = Ok next
       ∧ match next with
         | Some nb =>
             (∃ hf, hf ∈ hardforks c ∧ Hardfork.block hf = Some nb
                    ∧ toNumber (Hardfork.block data) < nb)
             ∧ (∀ hf', hf' ∈ hardforks c →
                       above (toNumber (Hardfork.block data)) hf' →
                       ∃ b, Hardfork.block hf' = Some b ∧ nb ≤ b)
         | None =>
             Forall (λ r, ¬ above (toNumber (Hardfork.block data)) r) (hardforks c)
         end)
  ∧ nextHardforkBlock (Examples.mainnet_byzantium []) (Some "homestead")
    = Ok (Some 4370000).
Proof.
  split; [| reflexivity].
  intros c hardfork data Hne Hrec Hasc.
  rewrite nextHardforkBlock_fold with (data := data) by done.
  eexists. split; [reflexivity |].
  pose proof (nextHardforkBlock_reducer_first_any (Hardfork.block data) (hardforks c))
    as Hfirst.
  destruct (fold_left _ (hardforks c) None) as [nb|]; [| done].
  destruct Hfirst as (pre & hf & post & Heq & Hnb & Hlt & Hpre).
  split.
  - exists hf. split_and!; [| done | done].
    rewrite Heq. apply elem_of_app. right. by left.
  - rewrite Heq in Hasc |- *.
    exact (ascending_first_least _ pre hf post nb Hasc Hpre Hnb).
Qed.

(** *** Round trip of a stored fork hash *)

Lemma forkHash_stored c hardfork data :
  hardfork ≠ "" → record_of c hardfork data →
  Hardfork.block data ≠ None → Hardfork.forkHash data ≠ SUndefined →
  forkHash c (Some hardfork) = Ok (Hardfork.forkHash data).
Proof.
  intros Hne Hrec Hblock Hstored.
  pose proof (find_hardfork_record _ _ _ Hrec) as Hfind.
  unfold forkHash, _getHardfork.
  rewrite _chooseHardfork_given by done. simpl. rewrite Hfind. simpl.
  destruct (Hardfork.block data); [| done].
  by destruct (Hardfork.forkHash data).
Qed.

(** C8, as amended. For a non-empty hardfork name of the timeline whose
    own record has a non-null block and stores the fork hash, and whose
    hash is stored by exactly one record, [hardforkForForkHash] applied to
    [forkHash] of the hardfork is that record. *)
Theorem forkHash_hardforkForForkHash c hardfork data :
  hardfork ≠ "" → record_of c hardfork data →
  Hardfork.block data ≠ None → Hardfork.forkHash data ≠ SUndefined →
  length (filter (λ hf, Hardfork.forkHash hf = Hardfork.forkHash data) (hardforks c))
  = 1%nat →
  ∃ h, forkHash c (Some hardfork) = Ok h ∧ hardforkForForkHash c h = Some data.
Proof.
  intros Hne Hrec Hblock Hstored Hone.
  pose proof (record_of_elem_of _ _ _ Hrec) as Hin.
  exists (Hardfork.forkHash data). split; [by apply forkHash_stored |].
  unfold hardforkForForkHash.
  assert (data ∈ filter (λ hf, Hardfork.forkHash hf = Hardfork.forkHash data)
                   (hardforks c)) as Hmem.
  { by apply list_elem_of_filter. }
  destruct (filter _ (hardforks c)) as [|hf [|hf' rest]]; simpl in Hone; try lia.
  apply list_elem_of_singleton in Hmem. by rewrite Hmem.
Qed.

(** *** Hexadecimal strings and buffers *)

Lemma hex_value_hex_digit d : 0 ≤ d < 16 → hex_value (hex_digit d) = Some d.
Proof.
  intros Hd.
  assert (d = 0 ∨ d = 1 ∨ d = 2 ∨ d = 3 ∨ d = 4 ∨ d = 5 ∨ d = 6 ∨ d = 7 ∨ d = 8
          ∨ d = 9 ∨ d = 10 ∨ d = 11 ∨ d = 12 ∨ d = 13 ∨ d = 14 ∨ d = 15)
    as Hcases by lia.
  repeat (destruct Hcases as [-> | Hcases]; [reflexivity |]).
  by subst d.
Qed.

Lemma length_fixed_hex k n : length (fixed_hex k n) = k.
Proof.
  revert n. induction k as [|k IH]; intros n; simpl; [reflexivity |].
  rewrite length_app, IH. simpl. lia.
Qed.

Lemma fixed_hex_zero k : fixed_hex k 0 = replicate k "0"%char.
Proof.
  induction k as [|k IH]; [reflexivity |].
  simpl fixed_hex. rewrite Zdiv_0_l, IH, replicate_S_end. reflexivity.
Qed.

Lemma fixed_hex_pad k j n :
  (j ≤ k)%nat → 0 ≤ n < 16 ^ Z.of_nat j →
  fixed_hex k n = replicate (k - j) "0"%char ++ fixed_hex j n.
Proof.
  revert j n. induction k as [|k IH]; intros j n Hjk Hn.
  - assert (j = 0)%nat as -> by lia. reflexivity.
  - destruct j as [|j].
    + assert (n = 0) as -> by (simpl in Hn; lia).
      rewrite fixed_hex_zero, Nat.sub_0_r, app_nil_r. reflexivity.
    + simpl fixed_hex. rewrite (IH j (n / 16)), app_assoc; [reflexivity | lia |].
      rewrite Nat2Z.inj_succ, Z.pow_succ_r in Hn by lia.
      split; [apply Z.div_pos; lia | apply Z.div_lt_upper_bound; lia].
Qed.

Lemma hex_digits_aux_fixed fuel n acc :
  (1 ≤ fuel)%nat → 0 ≤ n < 16 ^ Z.of_nat fuel →
  ∃ j, (1 ≤ j ≤ fuel)%nat ∧ hex_digits_aux fuel n acc = fixed_hex j n ++ acc
       ∧ n < 16 ^ Z.of_nat j ∧ (j = 1%nat ∨ 16 ^ (Z.of_nat j - 1) ≤ n).
Proof.
  revert n acc. induction fuel as [|fuel IH]; intros n acc Hfuel Hn; [lia |].
  simpl hex_digits_aux.
  destruct (n / 16 =? 0) eqn:Hq.
  - apply Z.eqb_eq in Hq. exists 1%nat.
    assert (n < 16).
    { pose proof (Z.div_mod n 16). pose proof (Z.mod_pos_bound n 16). lia. }
    split_and!; [lia | lia | reflexivity | simpl; lia | by left].
  - apply Z.eqb_neq in Hq.
    assert (16 ≤ n).
    { destruct (Z_lt_le_dec n 16) as [Hlt | Hge]; [| done].
      exfalso. apply Hq. apply Z.div_small. lia. }
    rewrite Nat2Z.inj_succ, Z.pow_succ_r in Hn by lia.
    assert (1 ≤ fuel)%nat as Hfuel'.
    { destruct fuel; [simpl in Hn; lia | lia]. }
    assert (0 ≤ n / 16 < 16 ^ Z.of_nat fuel) as Hn'.
    { split; [apply Z.div_pos; lia | apply Z.div_lt_upper_bound; lia]. }
    destruct (IH (n / 16) (hex_digit (n mod 16) :: acc) Hfuel' Hn')
      as (j & Hj & Heq & Hlt & Hmin).
    exists (S j). split_and!; [lia | lia | | |].
    + rewrite Heq. simpl fixed_hex. by rewrite <- app_assoc.
    + rewrite Nat2Z.inj_succ, Z.pow_succ_r by lia.
      pose proof (Z.div_mod n 16). pose proof (Z.mod_pos_bound n 16). lia.
    + right. replace (Z.of_nat (S j) - 1) with (Z.of_nat j) by lia.
      destruct Hmin as [-> | Hmin]; [simpl; lia |].
      replace (Z.of_nat j) with (Z.succ (Z.of_nat j - 1)) by lia.
      rewrite Z.pow_succ_r by lia.
      pose proof (Z.div_mod n 16). pose proof (Z.mod_pos_bound n 16). lia.
Qed.

Lemma hex_digits_fixed n k :
  0 ≤ n < 16 ^ Z.of_nat k → (1 ≤ k)%nat →
  ∃ j, (1 ≤ j ≤ k)%nat ∧ hex_digits n = fixed_hex j n ∧ n < 16 ^ Z.of_nat j.
Proof.
  intros Hn Hk. unfold hex_digits.
  assert (0 ≤ n < 16 ^ Z.of_nat (S (Z.to_nat (Z.log2 n)))) as Hfuel.
  { split; [lia |].
    rewrite Nat2Z.inj_succ, Z2Nat.id by apply Z.log2_nonneg.
    destruct (decide (n = 0)) as [-> | Hnz]; [simpl; lia |].
    pose proof (Z.log2_spec n) as [_ Hlt]; [lia |].
    eapply Z.lt_le_trans; [exact Hlt |].
    apply Z.pow_le_mono_l. pose proof (Z.log2_nonneg n). lia. }
  destruct (hex_digits_aux_fixed (S (Z.to_nat (Z.log2 n))) n [] ltac:(lia) Hfuel)
    as (j & Hj & Heq & Hlt & Hmin).
  exists j. rewrite app_nil_r in Heq. split_and!; [lia | | done | done].
  destruct Hmin as [-> | Hmin]; [lia |].
  destruct (decide (j ≤ k)%nat) as [Hle | Hgt]; [done |].
  exfalso.
  assert (16 ^ Z.of_nat k ≤ 16 ^ (Z.of_nat j - 1)).
  { apply Z.pow_le_mono_r; lia. }
  lia.
Qed.

Lemma length_string_of_list_ascii cs :
  String.length (string_of_list_ascii cs) = length cs.
Proof. induction cs as [|ch cs IH]; simpl; [reflexivity | by rewrite IH]. Qed.

Lemma padStart_toString16 n :
  0 ≤ n < 2 ^ 64 →
  list_ascii_of_string (padStart 16 "0" (toString16 n)) = fixed_hex 16 n.
Proof.
  intros Hn. unfold padStart, toString16.
  assert ((n <? 0) = false) as -> by (apply Z.ltb_ge; lia).
  destruct (hex_digits_fixed n 16) as (j & Hj & -> & Hlt); [simpl; lia | lia |].
  rewrite length_string_of_list_ascii, !list_ascii_of_string_of_list_ascii.
  rewrite length_fixed_hex. symmetry. apply fixed_hex_pad; lia.
Qed.

Lemma hex_decode_fixed_hex k n rest :
  hex_decode (fixed_hex (2 * k) n ++ rest) = big_endian k n ++ hex_decode rest.
Proof.
  revert n rest. induction k as [|k IH]; intros n rest; [reflexivity |].
  replace (2 * S k)%nat with (S (S (2 * k))) by lia.
  simpl fixed_hex. simpl big_endian.
  rewrite <- !app_assoc. simpl app.
  rewrite Zdiv_Zdiv by lia. change (16 * 16) with 256.
  rewrite IH. f_equal. simpl.
  rewrite !hex_value_hex_digit by (apply Z.mod_pos_bound; lia).
  f_equal. change 256 with (16 * 16).
  rewrite Z.rem_mul_r by lia. lia.
Qed.

Lemma Buffer_from_hex_block b :
  0 ≤ b < 2 ^ 64 →
  Buffer_from_hex (padStart 16 "0" (toString16 b)) = big_endian 8 b.
Proof.
  intros Hb. unfold Buffer_from_hex. rewrite padStart_toString16 by done.
  rewrite <- (app_nil_r (fixed_hex 16 b)).
  change 16%nat with (2 * 8)%nat. rewrite hex_decode_fixed_hex.
  simpl hex_decode. by rewrite app_nil_r.
Qed.

Lemma hex_value_range ch h : hex_value ch = Some h → 0 ≤ h < 16.
Proof.
  unfold hex_value. cbv zeta.
  set (n := Z.of_N (N_of_ascii ch)).
  destruct ((48 <=? n) && (n <=? 57)) eqn:Hdigit.
  { apply andb_true_iff in Hdigit as [?%Z.leb_le ?%Z.leb_le]. intros [= <-]. lia. }
  destruct ((97 <=? n) && (n <=? 102)) eqn:Hlower.
  { apply andb_true_iff in Hlower as [?%Z.leb_le ?%Z.leb_le]. intros [= <-]. lia. }
  destruct ((65 <=? n) && (n <=? 70)) eqn:Hupper; [| discriminate].
  apply andb_true_iff in Hupper as [?%Z.leb_le ?%Z.leb_le]. intros [= <-]. lia.
Qed.

Lemma hex_decode_bytes cs : Forall is_byte (hex_decode cs).
Proof.
  assert (∀ n cs, (length cs ≤ n)%nat → Forall is_byte (hex_decode cs)) as Hgen.
  { clear cs. induction n as [|n IH]; intros [|hi [|lo rest]] Hlen; simpl;
      try by constructor.
    - simpl in Hlen. lia.
    - destruct (hex_value hi) as [h|] eqn:Hh; [| by constructor].
      destruct (hex_value lo) as [l|] eqn:Hl; [| by constructor].
      apply hex_value_range in Hh, Hl. constructor.
      + unfold is_byte. lia.
      + apply IH. simpl in Hlen. lia. }
  by apply (Hgen (length cs)).
Qed.

Lemma big_endian_bytes k n : Forall is_byte (big_endian k n).
Proof.
  revert n. induction k as [|k IH]; intros n; simpl; [by constructor |].
  apply Forall_app. split; [apply IH |].
  constructor; [| by constructor]. apply Z.mod_pos_bound. lia.
Qed.

(** *** CRC-32 as an unsigned 32-bit integer *)

Lemma lxor_range n a b :
  0 < n → 0 ≤ a < 2 ^ n → 0 ≤ b < 2 ^ n → 0 ≤ Z.lxor a b < 2 ^ n.
Proof.
  intros Hn Ha Hb. split; [apply Z.lxor_nonneg; lia |].
  assert (∀ x, 0 ≤ x < 2 ^ n → Z.log2 x < n) as Hlog.
  { intros x Hx. destruct (decide (x = 0)) as [-> | Hnz]; [simpl; lia |].
    apply Z.log2_lt_pow2; lia. }
  destruct (decide (Z.lxor a b = 0)) as [-> | Hnz]; [lia |].
  assert (0 ≤ Z.lxor a b) by (apply Z.lxor_nonneg; lia).
  apply Z.log2_lt_pow2; [lia |].
  eapply Z.le_lt_trans; [apply Z.log2_lxor; lia |].
  apply Z.max_lub_lt; by apply Hlog.
Qed.

Lemma crc32_shift_range c : 0 ≤ c < 2 ^ 32 → 0 ≤ crc32_shift c < 2 ^ 32.
Proof.
  intros Hc. unfold crc32_shift.
  assert (0 ≤ Z.shiftr c 1 < 2 ^ 32) as Hs.
  { rewrite Z.shiftr_div_pow2 by lia. change (2 ^ 1) with 2.
    split; [apply Z.div_pos; lia | apply Z.div_lt_upper_bound; lia]. }
  destruct (Z.testbit c 0); [| done].
  apply lxor_range; [lia | done | lia].
Qed.

Lemma crc32_update_range c b :
  0 ≤ c < 2 ^ 32 → is_byte b → 0 ≤ crc32_update c b < 2 ^ 32.
Proof.
  intros Hc Hb. unfold crc32_update, is_byte in *.
  assert (0 ≤ Z.lxor c b < 2 ^ 32) as Hx by (apply lxor_range; lia).
  simpl. by do 8 apply crc32_shift_range.
Qed.

Lemma crc32_unsigned_range bs :
  Forall is_byte bs → 0 ≤ crc32_unsigned bs < 2 ^ 32.
Proof.
  intros Hbs. unfold crc32_unsigned.
  assert (∀ c, 0 ≤ c < 2 ^ 32 → 0 ≤ fold_left crc32_update bs c < 2 ^ 32) as Hfold.
  { induction Hbs as [|b bs Hb _ IH]; intros c Hc; simpl; [done |].
    apply IH. by apply crc32_update_range. }
  apply lxor_range; [lia | apply Hfold; lia | lia].
Qed.

Lemma ushr0_crc32Buffer bs :
  Forall is_byte bs → ushr0 (crc32Buffer bs) = crc32_unsigned bs.
Proof.
  intros Hbs. pose proof (crc32_unsigned_range bs Hbs) as Hr.
  unfold ushr0, crc32Buffer.
  destruct (crc32_unsigned bs <? 2 ^ 31).
  - apply Z.mod_small. lia.
  - replace (crc32_unsigned bs - 2 ^ 32) with (crc32_unsigned bs + (-1) * 2 ^ 32) by lia.
    rewrite Z.mod_add by lia. apply Z.mod_small. lia.
Qed.

(** *** The computed fork hash *)

Lemma _calcForkHash_loop_blocks hardfork hfs hfBuffer prevBlock preceding :
  Forall safe_block hfs →
  match preceding with
  | None => prevBlock = Some 0
  | Some before => prevBlock = before
  end →
  _calcForkHash_loop hardfork hfs hfBuffer prevBlock
  = hfBuffer
    ++ concat (big_endian 8 <$> transition_blocks preceding (up_to hardfork hfs)).
Proof.
  intros Hsafe. revert hfBuffer prevBlock preceding.
  induction Hsafe as [|hf rest Hhf _ IH]; intros hfBuffer prevBlock preceding Hprev.
  - simpl. by rewrite app_nil_r.
  - simpl _calcForkHash_loop. simpl up_to. simpl transition_blocks.
    rewrite fmap_app, concat_app, app_assoc.
    assert (match Hardfork.block hf with
            | Some block =>
                if negb (block =? 0) && negb (bool_decide (Some block = prevBlock))
                then hfBuffer ++ Buffer_from_hex (padStart 16 "0" (toString16 block))
                else hfBuffer
            | None => hfBuffer
            end
            = hfBuffer
              ++ concat (big_endian 8 <$>
                   match Hardfork.block hf with
                   | Some b =>
                       if decide (b ≠ 0 ∧ preceding ≠ Some (Some b)) then [b] else []
                   | None => []
                   end)) as ->.
    { unfold safe_block in Hhf.
      destruct (Hardfork.block hf) as [b|]; [| by rewrite app_nil_r].
      specialize (Hhf b eq_refl). unfold MAX_SAFE_INTEGER in Hhf.
      destruct (decide (b ≠ 0 ∧ preceding ≠ Some (Some b))) as [[Hnz Hdiff] | Hno].
      - assert ((b =? 0) = false) as -> by by apply Z.eqb_neq.
        rewrite bool_decide_eq_false_2.
        + simpl negb. simpl andb. cbv iota.
          rewrite Buffer_from_hex_block by lia.
          change (concat (big_endian 8 <$> [b])) with (big_endian 8 b ++ []).
          by rewrite app_nil_r.
        + intros <-. destruct preceding as [before|]; [by subst before | congruence].
      - assert (negb (b =? 0) && negb (bool_decide (Some b = prevBlock)) = false)
          as ->; [| by rewrite app_nil_r].
        destruct (b =? 0) eqn:Hz; [reflexivity |]. apply Z.eqb_neq in Hz.
        rewrite bool_decide_eq_true_2; [reflexivity |].
        destruct preceding as [before|].
        + subst before. destruct (decide (prevBlock = Some b)) as [-> | Hne]; [done |].
          destruct Hno. split; [done | congruence].
        + destruct Hno. by split. }
    destruct (decide (Hardfork.name hf = hardfork)) as [_ | _].
    + simpl. by rewrite app_nil_r.
    + by apply IH.
Qed.

(** C2. For a non-empty hardfork name of the timeline whose record has a
    non-null block and no stored [forkHash] (the blocks of the timeline
    being exact JS integers), [forkHash] is [0x] followed by the lowercase
    hexadecimal digits of the CRC-32, an integer in [0, 2^32), of the
    genesis hash bytes followed by the 8-byte big-endian blocks of the
    records up to and including the target whose block is neither 0 nor
    null and differs from the block of the record just before. *)
Theorem forkHash_computed c hardfork data :
  hardfork ≠ "" → record_of c hardfork data →
  Hardfork.block data ≠ None → Hardfork.forkHash data = SUndefined →
  Forall safe_block (hardforks c) →
  let input :=
    genesis_bytes c
    ++ concat (big_endian 8 <$> transition_blocks None (up_to hardfork (hardforks c))) in
  forkHash c (Some hardfork)
  = Ok (SStr (String.append "0x" (toString16 (crc32_unsigned input))))
  ∧ 0 ≤ crc32_unsigned input < 2 ^ 32.
Proof.
  intros Hne Hrec Hblock Hnone Hsafe input.
  pose proof (find_hardfork_record _ _ _ Hrec) as Hfind.
  assert (Forall is_byte input) as Hbytes.
  { apply Forall_app. split; [apply hex_decode_bytes |].
    apply Forall_concat, Forall_fmap, Forall_forall.
    intros b _. apply big_endian_bytes. }
  split; [| by apply crc32_unsigned_range].
  unfold forkHash, _getHardfork.
  rewrite _chooseHardfork_given by done. simpl. rewrite Hfind. simpl.
  destruct (Hardfork.block data); [| done]. rewrite Hnone.
  unfold _calcForkHash.
  rewrite (_calcForkHash_loop_blocks hardfork (hardforks c) [] (Some 0) None)
    by done.
  simpl app. fold (genesis_bytes c). fold input.
  by rewrite ushr0_crc32Buffer.
Qed.

(** *** Setting the hardfork *)

Lemma setHardfork_loop_run hardfork changes changed c :
  setHardfork_loop hardfork changes changed c
  = if bool_decide (hardfork ∈ changes.*1)
    then (Ok true, (assign_hardfork hardfork c).2)
    else (Ok changed, c).
Proof.
  revert changed c. induction changes as [|hfChanges rest IH]; intros changed c.
  - case_bool_decide as Hin; [by apply elem_of_nil in Hin | reflexivity].
  - rewrite fmap_cons. simpl setHardfork_loop.
    destruct (decide (hfChanges.1 = hardfork)) as [Heq | Hne].
    + rewrite (bool_decide_eq_true_2 (hardfork ∈ _))
        by (rewrite Heq; apply elem_of_cons; by left).
      unfold andThen. simpl. rewrite IH. by case_bool_decide.
    + rewrite IH. case_bool_decide as Hin.
      * rewrite bool_decide_eq_true_2; [reflexivity |]. apply elem_of_cons. by right.
      * rewrite bool_decide_eq_false_2; [reflexivity |].
        rewrite not_elem_of_cons. split; [congruence | done].
Qed.

Lemma setHardfork_run hardfork c :
  setHardfork hardfork c
  = if negb (_isSupportedHardfork c hardfork)
    then (Err (UnsupportedHardfork hardfork), c)
    else if bool_decide (hardfork ∈ HARDFORK_CHANGES.*1)
         then (Ok tt, (assign_hardfork hardfork c).2)
         else (Err (UnknownHardfork hardfork), c).
Proof.
  unfold setHardfork, andThen, lift. simpl.
  destruct (_isSupportedHardfork c hardfork); simpl; [| reflexivity].
  rewrite setHardfork_loop_run. by case_bool_decide.
Qed.

(** [setHardfork] is all-or-nothing and checks two things in this order:
    the support list of the instance, then the names of
    [HARDFORK_CHANGES]. On success only the hardfork field changes, so the
    active EIPs are kept as they are, whatever their minimum hardfork. *)
Theorem setHardfork_all_or_nothing c hardfork :
  (_isSupportedHardfork c hardfork = false →
   setHardfork hardfork c = (Err (UnsupportedHardfork hardfork), c))
  ∧ (_isSupportedHardfork c hardfork = true → hardfork ∉ HARDFORK_CHANGES.*1 →
     setHardfork hardfork c = (Err (UnknownHardfork hardfork), c))
  ∧ (_isSupportedHardfork c hardfork = true → hardfork ∈ HARDFORK_CHANGES.*1 →
     ∃ c', setHardfork hardfork c = (Ok tt, c') ∧ _hardfork c' = hardfork
           ∧ _eips c' = _eips c ∧ _chainParams c' = _chainParams c
           ∧ _supportedHardforks c' = _supportedHardforks c).
Proof.
  rewrite setHardfork_run. split_and!.
  - by intros ->.
  - intros -> Hout. simpl. by rewrite bool_decide_eq_false_2.
  - intros -> Hin. simpl. rewrite bool_decide_eq_true_2 by done.
    eexists. by split_and!.
Qed.

Lemma find_hardfork_absent hardfork hfs :
  hardfork ∉ names hfs → find_hardfork hardfork hfs = None.
Proof.
  unfold names. induction hfs as [|hf rest IH]; simpl; [done |].
  rewrite not_elem_of_cons. intros [Hne Hrest].
  destruct (decide (Hardfork.name hf = hardfork)); [congruence | by apply IH].
Qed.

Lemma find_hardfork_present hardfork hfs :
  hardfork ∈ names hfs → is_Some (find_hardfork hardfork hfs).
Proof.
  unfold names. induction hfs as [|hf rest IH]; simpl.
  - intros Hin. by apply elem_of_nil in Hin.
  - intros Hin. destruct (decide (Hardfork.name hf = hardfork)); [by eexists |].
    apply IH. apply elem_of_cons in Hin as [Heq | Hin]; [congruence | done].
Qed.

Lemma _chooseHardfork_unchecked c hardfork :
  _chooseHardfork c (Some hardfork) (Some false)
  = Ok (if decide (hardfork = "") then _hardfork c else hardfork).
Proof. unfold _chooseHardfork. by destruct (decide (hardfork = "")). Qed.

Lemma hardforkBlock_current c :
  hardforkBlock c None
  = _getHardfork c (_hardfork c) ≫= λ hf, Ok (Hardfork.block hf).
Proof. reflexivity. Qed.

Lemma hardforkBlock_of_current c :
  hardforkBlock c (Some (_hardfork c)) = hardforkBlock c None.
Proof.
  unfold hardforkBlock. rewrite _chooseHardfork_unchecked.
  by destruct (decide (_hardfork c = "")).
Qed.

Lemma nextHardforkBlock_current_err c e :
  hardforkBlock c None = Err e → nextHardforkBlock c None = Err e.
Proof.
  intros Herr. unfold nextHardforkBlock, mbind, result_bind.
  rewrite _chooseHardfork_current. cbv beta iota.
  by rewrite hardforkBlock_of_current, Herr.
Qed.

Lemma forkHash_current_err c e :
  _getHardfork c (_hardfork c) = Err e → forkHash c None = Err e.
Proof.
  intros Herr. unfold forkHash, mbind, result_bind.
  rewrite _chooseHardfork_current. cbv beta iota. by rewrite Herr.
Qed.

(** [setHardfork] does not look at the chain: a supported name of
    [HARDFORK_CHANGES] that the chain's timeline does not have is accepted,
    and the queries about the current hardfork's block then fail with
    [UnknownHardfork]. *)
Theorem setHardfork_not_in_chain c c' hardfork :
  setHardfork hardfork c = (Ok tt, c') →
  hardfork ∉ names (hardforks c) →
  _hardfork c' = hardfork
  ∧ hardforkBlock c' None = Err (UnknownHardfork hardfork)
  ∧ nextHardforkBlock c' None = Err (UnknownHardfork hardfork)
  ∧ forkHash c' None = Err (UnknownHardfork hardfork).
Proof.
  rewrite setHardfork_run. intros Hset Habsent.
  destruct (_isSupportedHardfork c hardfork); simpl in Hset; [| congruence].
  case_bool_decide; [| congruence].
  injection Hset as <-.
  set (c' := (assign_hardfork hardfork c).2).
  assert (_getHardfork c' (_hardfork c') = Err (UnknownHardfork hardfork)) as Hget.
  { unfold _getHardfork. change (hardforks c') with (hardforks c).
    change (_hardfork c') with hardfork. by rewrite find_hardfork_absent. }
  assert (hardforkBlock c' None = Err (UnknownHardfork hardfork)) as Hblock.
  { rewrite hardforkBlock_current, Hget. reflexivity. }
  split_and!; [reflexivity | exact Hblock | |].
  - by apply nextHardforkBlock_current_err.
  - by apply forkHash_current_err.
Qed.

(** *** Setting the hardfork by block number *)

Lemma setHardforkByBlockNumber_loop_snoc blockNumber hfs hf hardfork :
  setHardforkByBlockNumber_loop blockNumber (hfs ++ [hf]) hardfork
  = match Hardfork.block hf with
    | None => setHardforkByBlockNumber_loop blockNumber hfs hardfork
    | Some b =>
        if b <=? blockNumber then Hardfork.name hf
        else setHardforkByBlockNumber_loop blockNumber hfs hardfork
    end.
Proof. unfold setHardforkByBlockNumber_loop. by rewrite fold_left_app. Qed.

Lemma setHardforkByBlockNumber_loop_last_applied blockNumber hfs fallback :
  last_applied blockNumber hfs fallback
    (setHardforkByBlockNumber_loop blockNumber hfs fallback).
Proof.
  induction hfs as [|hf hfs IH] using rev_ind.
  - left. by split.
  - rewrite setHardforkByBlockNumber_loop_snoc.
    destruct (Hardfork.block hf) as [b|] eqn:Hb.
    + destruct (b <=? blockNumber) eqn:Hle.
      * right. exists hfs, hf, []. apply Z.leb_le in Hle.
        split_and!; [done | by exists b | done | by constructor].
      * apply Z.leb_gt in Hle.
        assert (¬ applied blockNumber hf) as Hna.
        { intros (b' & Hb' & Hle'). rewrite Hb in Hb'. injection Hb' as <-. lia. }
        destruct IH as [[Hnone ->] | (pre & x & post & -> & Hx & Hname & Hpost)].
        -- left. split; [| done]. apply Forall_app. split; [done | by constructor].
        -- right. exists pre, x, (post ++ [hf]).
           split_and!; [by rewrite <- app_assoc | done | done |].
           apply Forall_app. split; [done | by constructor].
    + assert (¬ applied blockNumber hf) as Hna.
      { intros (b' & Hb' & _). congruence. }
      destruct IH as [[Hnone ->] | (pre & x & post & -> & Hx & Hname & Hpost)].
      * left. split; [| done]. apply Forall_app. split; [done | by constructor].
      * right. exists pre, x, (post ++ [hf]).
        split_and!; [by rewrite <- app_assoc | done | done |].
        apply Forall_app. split; [done | by constructor].
Qed.

Lemma setHardforkByBlockNumber_run blockNumber c :
  setHardforkByBlockNumber blockNumber c
  = let chosen :=
      setHardforkByBlockNumber_loop blockNumber (hardforks c) "chainstart" in
    match setHardfork chosen c with
    | (Ok _, c') => (Ok chosen, c')
    | (Err e, c') => (Err e, c')
    end.
Proof.
  unfold setHardforkByBlockNumber, andThen, lift. cbv zeta.
  by destruct (setHardfork _ c) as [[[]|e] c'].
Qed.

(** [setHardforkByBlockNumber] selects the last record in timeline order
    whose (non-null) block is at or below the block number, and
    ["chainstart"] when there is none, whether or not the chain has a
    record of that name; it returns that name after [setHardfork] accepted
    it, and leaves the instance as it is when [setHardfork] rejects it. *)
Theorem setHardforkByBlockNumber_last_applied c blockNumber r c' :
  setHardforkByBlockNumber blockNumber c = (r, c') →
  (∀ chosen, r = Ok chosen →
     last_applied blockNumber (hardforks c) "chainstart" chosen
     ∧ _hardfork c' = chosen ∧ _eips c' = _eips c
     ∧ _chainParams c' = _chainParams c)
  ∧ (∀ e, r = Err e →
     c' = c
     ∧ ∃ chosen, last_applied blockNumber (hardforks c) "chainstart" chosen
                 ∧ (e = UnsupportedHardfork chosen ∨ e = UnknownHardfork chosen)).
Proof.
  rewrite setHardforkByBlockNumber_run. cbv zeta.
  pose proof (setHardforkByBlockNumber_loop_last_applied blockNumber (hardforks c)
                "chainstart") as Hlast.
  set (chosen := setHardforkByBlockNumber_loop _ _ _) in *.
  rewrite setHardfork_run.
  destruct (_isSupportedHardfork c chosen); simpl.
  - case_bool_decide.
    + intros [= <- <-]. split; [| by intros e].
      intros ? [= <-]. by split_and!.
    + intros [= <- <-]. split; [by intros ? |].
      intros e [= <-]. split; [done |]. exists chosen. split; [done | by right].
  - intros [= <- <-]. split; [by intros ? |].
    intros e [= <-]. split; [done |]. exists chosen. split; [done | by left].
Qed.

Lemma setHardforkByBlockNumber_loop_none blockNumber hfs hardfork :
  Forall (λ hf, ¬ applied blockNumber hf) hfs →
  setHardforkByBlockNumber_loop blockNumber hfs hardfork = hardfork.
Proof.
  unfold setHardforkByBlockNumber_loop.
  induction 1 as [|hf rest Hna _ IH]; [reflexivity |].
  simpl. destruct (Hardfork.block hf) as [b|] eqn:Hb; [| exact IH].
  destruct (b <=? blockNumber) eqn:Hle; [| exact IH].
  destruct Hna. exists b. split; [done | by apply Z.leb_le].
Qed.

Lemma ascending_cons_None hf rest :
  Hardfork.block hf = None → ascending (hf :: rest) → ascending rest.
Proof. unfold ascending. simpl. by intros ->. Qed.

Lemma ascending_cons_Some hf rest b :
  Hardfork.block hf = Some b → ascending (hf :: rest) →
  ascending rest ∧ Forall (λ r, ∀ b', Hardfork.block r = Some b' → b ≤ b') rest.
Proof.
  unfold ascending. simpl. intros ->. intros Hsorted.
  apply Sorted_StronglySorted in Hsorted; [| apply _].
  apply StronglySorted_cons in Hsorted as [Hle Hrest].
  split; [by apply StronglySorted_Sorted |].
  apply Forall_forall. intros r Hr b' Hb'.
  rewrite Forall_forall in Hle. apply Hle. apply list_elem_of_omap. by exists r.
Qed.

Lemma setHardforkByBlockNumber_loop_ascending blockNumber hfs hardfork :
  ascending hfs →
  setHardforkByBlockNumber_loop blockNumber hfs hardfork
  = match last (until_exceeds (Some blockNumber) (scheduled hfs)) with
    | Some hf => Hardfork.name hf
    | None => hardfork
    end.
Proof.
  revert hardfork. unfold scheduled.
  induction hfs as [|hf rest IH]; intros hardfork Hasc; [reflexivity |].
  rewrite filter_cons.
  change (setHardforkByBlockNumber_loop blockNumber (hf :: rest) hardfork)
    with (setHardforkByBlockNumber_loop blockNumber rest
            match Hardfork.block hf with
            | None => hardfork
            | Some b => if b <=? blockNumber then Hardfork.name hf else hardfork
            end).
  destruct (Hardfork.block hf) as [b|] eqn:Hb.
  - destruct (ascending_cons_Some hf rest b Hb Hasc) as [Hrest Hle].
    destruct (decide (Some b ≠ None)) as [_ | Habs]; [| by destruct Habs].
    simpl until_exceeds. rewrite Hb.
    destruct (b <=? blockNumber) eqn:Hcmp.
    + apply Z.leb_le in Hcmp.
      assert ((blockNumber <? b) = false) as -> by (apply Z.ltb_ge; lia).
      rewrite last_cons, IH by done. by destruct (last _).
    + apply Z.leb_gt in Hcmp.
      assert ((blockNumber <? b) = true) as -> by (apply Z.ltb_lt; lia).
      simpl. apply setHardforkByBlockNumber_loop_none.
      eapply Forall_impl; [exact Hle |].
      intros r Hr (b' & Hb' & Hle'). specialize (Hr b' Hb'). lia.
  - destruct (decide (None ≠ None)) as [Hsome | _]; [done |].
    apply IH. by apply ascending_cons_None with hf.
Qed.

Lemma activeHardforks_unfiltered c blockNumber :
  activeHardforks c blockNumber None
  = until_exceeds blockNumber (scheduled (hardforks c)).
Proof.
  unfold activeHardforks.
  rewrite (activeHardforks_loop_filter c blockNumber None).
  by apply filter_allowed_all.
Qed.

(** On a timeline whose non-null blocks do not decrease,
    [setHardforkByBlockNumber] and [activeHardfork] name the same hardfork
    for a block number; where [activeHardfork] finds none and fails, the
    former falls back to ["chainstart"]. *)
Theorem setHardforkByBlockNumber_activeHardfork c blockNumber chosen c' :
  ascending (hardforks c) →
  setHardforkByBlockNumber blockNumber c = (Ok chosen, c') →
  activeHardfork c (Some blockNumber) None = Ok chosen
  ∨ (activeHardfork c (Some blockNumber) None = Err NotFound
     ∧ chosen = "chainstart").
Proof.
  intros Hasc. rewrite setHardforkByBlockNumber_run. cbv zeta.
  rewrite (setHardforkByBlockNumber_loop_ascending _ _ _ Hasc).
  unfold activeHardfork. rewrite activeHardforks_unfiltered.
  destruct (last _) as [hf|].
  - destruct (setHardfork _ c) as [[[]|e] c'']; [| discriminate].
    intros [= <- <-]. by left.
  - destruct (setHardfork _ c) as [[[]|e] c'']; [| discriminate].
    intros [= <- <-]. by right.
Qed.

(** *** The active hardfork *)

Lemma until_exceeds_elem_of blockNumber hfs hf :
  hf ∈ until_exceeds blockNumber hfs → hf ∈ hfs ∧ exceeds blockNumber hf = false.
Proof.
  intros Hin.
  destruct (until_exceeds_split blockNumber hfs) as (rest & Heq & Hall & _).
  split.
  - rewrite Heq. apply elem_of_app. by left.
  - rewrite Forall_forall in Hall. by apply Hall.
Qed.

Lemma activeHardforks_elem_of c blockNumber opts hf :
  hf ∈ activeHardforks c blockNumber opts →
  hf ∈ hardforks c ∧ allowed c opts hf
  ∧ ∃ b, Hardfork.block hf = Some b ∧ ∀ bn, blockNumber = Some bn → b ≤ bn.
Proof.
  unfold activeHardforks. rewrite (activeHardforks_loop_filter c blockNumber opts).
  rewrite list_elem_of_filter. intros [Hallowed Hin].
  apply until_exceeds_elem_of in Hin as [Hin Hex].
  unfold scheduled in Hin. apply list_elem_of_filter in Hin as [Hblock Hin].
  split_and!; [done | done |].
  destruct (Hardfork.block hf) as [b|] eqn:Hb; [| done].
  exists b. split; [done |]. intros bn ->.
  unfold exceeds in Hex. rewrite Hb in Hex. by apply Z.ltb_ge.
Qed.

(** [activeHardfork] fails with [NotFound] exactly when [activeHardforks]
    is empty; otherwise it names a record of the timeline that passes the
    support filter and has a non-null block, which is at or below the block
    number when one is given. *)
Theorem activeHardfork_last c blockNumber opts :
  (activeHardfork c blockNumber opts = Err NotFound
   ↔ activeHardforks c blockNumber opts = [])
  ∧ (∀ e, activeHardfork c blockNumber opts = Err e → e = NotFound)
  ∧ (∀ hardfork, activeHardfork c blockNumber opts = Ok hardfork →
       ∃ hf, last (activeHardforks c blockNumber opts) = Some hf
             ∧ Hardfork.name hf = hardfork
             ∧ hf ∈ hardforks c ∧ allowed c opts hf
             ∧ ∃ b, Hardfork.block hf = Some b
                    ∧ ∀ bn, blockNumber = Some bn → b ≤ bn).
Proof.
  unfold activeHardfork.
  destruct (last (activeHardforks c blockNumber opts)) as [hf|] eqn:Hlast.
  - split_and!.
    + split; [discriminate |]. intros Hnil. rewrite Hnil in Hlast. discriminate.
    + discriminate.
    + intros hardfork [= <-]. exists hf.
      destruct (activeHardforks_elem_of c blockNumber opts hf) as (Hin & Hal & Hb).
      { by apply last_Some_elem_of. }
      by split_and!.
  - apply last_None in Hlast. split_and!; [done | by intros e [= <-] | discriminate].
Qed.

Lemma until_exceeds_mono bn bn' hfs :
  bn ≤ bn' →
  until_exceeds (Some bn) hfs `prefix_of` until_exceeds (Some bn') hfs
  ∧ until_exceeds (Some bn') hfs `prefix_of` until_exceeds None hfs.
Proof.
  intros Hle. induction hfs as [|hf rest [IH1 IH2]]; simpl; [done |].
  unfold exceeds. destruct (Hardfork.block hf) as [b|].
  - destruct (bn' <? b) eqn:H'.
    + apply Z.ltb_lt in H'.
      assert ((bn <? b) = true) as -> by (apply Z.ltb_lt; lia).
      split; [done | apply prefix_nil].
    + split; [| by apply prefix_cons].
      destruct (bn <? b); [apply prefix_nil | by apply prefix_cons].
  - split; by apply prefix_cons.
Qed.

Lemma filter_prefix (P : Hardfork.t → Prop) `{∀ hf, Decision (P hf)}
    (l1 l2 : list Hardfork.t) :
  l1 `prefix_of` l2 → filter P l1 `prefix_of` filter P l2.
Proof. intros [k ->]. rewrite filter_app. by eexists. Qed.

(** Raising the block number only appends to [activeHardforks]: the list
    for a block number is a prefix of the list for any greater one, which
    is a prefix of the list without block number. *)
Theorem activeHardforks_monotone c bn bn' opts :
  bn ≤ bn' →
  activeHardforks c (Some bn) opts `prefix_of` activeHardforks c (Some bn') opts
  ∧ activeHardforks c (Some bn') opts `prefix_of` activeHardforks c None opts.
Proof.
  intros Hle. unfold activeHardforks.
  rewrite !(activeHardforks_loop_filter c _ opts).
  destruct (until_exceeds_mono bn bn' (scheduled (hardforks c)) Hle) as [H1 H2].
  split; by apply filter_prefix.
Qed.

(** *** Parameters by block number *)

Lemma paramByHardfork_unsupported c topic name hardfork :
  hardfork ≠ "" → _isSupportedHardfork c hardfork = false →
  paramByHardfork c topic name hardfork = Err (UnsupportedHardfork hardfork).
Proof.
  intros Hne Huns. unfold paramByHardfork, _chooseHardfork.
  destruct (decide (hardfork = "")); [done |]. by rewrite Huns.
Qed.

(** [paramByBlock] is [paramByHardfork] for the hardfork that
    [activeHardfork] names at the block number. Where [activeHardfork]
    fails with [NotFound], [paramByBlock] dies on a [TypeError] instead;
    and since the active hardforks are taken without support filter, it
    fails with [UnsupportedHardfork] when that hardfork is not supported. *)
Theorem paramByBlock_activeHardfork c topic name blockNumber :
  (∀ hardfork, activeHardfork c (Some blockNumber) None = Ok hardfork →
     paramByBlock c topic name blockNumber
     = Completes (paramByHardfork c topic name hardfork))
  ∧ (activeHardfork c (Some blockNumber) None = Err NotFound →
     paramByBlock c topic name blockNumber = TypeError)
  ∧ (∀ hardfork, activeHardfork c (Some blockNumber) None = Ok hardfork →
     hardfork ≠ "" → _isSupportedHardfork c hardfork = false →
     paramByBlock c topic name blockNumber
     = Completes (Err (UnsupportedHardfork hardfork))).
Proof.
  unfold paramByBlock, activeHardfork.
  destruct (last (activeHardforks c (Some blockNumber) None)) as [hf|].
  - split_and!; [by intros ? [= <-] | discriminate |].
    intros hardfork [= <-] Hne Huns. by rewrite paramByHardfork_unsupported.
  - split_and!; [discriminate | done | discriminate].
Qed.

(** *** The block of a hardfork *)

Lemma _getHardfork_record c hardfork data :
  record_of c hardfork data → _getHardfork c hardfork = Ok data.
Proof.
  intros Hrec. unfold _getHardfork. by rewrite (find_hardfork_record _ _ _ Hrec).
Qed.

Lemma _getHardfork_absent c hardfork :
  hardfork ∉ names (hardforks c) →
  _getHardfork c hardfork = Err (UnknownHardfork hardfork).
Proof. intros Habs. unfold _getHardfork. by rewrite find_hardfork_absent. Qed.

Lemma _getHardfork_cases c hardfork :
((hardfork ∉ names (hardforks c))
   ∧ _getHardfork c hardfork = Err (UnknownHardfork hardfork))
  ∨ (∃ data, record_of c hardfork data ∧ _getHardfork c hardfork = Ok data).
Proof.
  unfold _getHardfork.
  destruct (find_hardfork hardfork (hardforks c)) as [data|] eqn:Hfind.
  - right. exists data. split; [| done].
    destruct (find_hardfork_first _ _ _ Hfind) as (pre & post & Heq & Hname & Hpre).
    by exists pre, post.
  - left. split; [| done]. intros Hin.
    apply find_hardfork_present in Hin as [x Hx]. congruence.
Qed.

Lemma hardforkBlock_given c hardfork :
  hardfork ≠ "" →
  hardforkBlock c (Some hardfork)
  = _getHardfork c hardfork ≫= λ hf, Ok (Hardfork.block hf).
Proof.
  intros Hne. unfold hardforkBlock. by rewrite _chooseHardfork_given.
Qed.

(** [hardforkBlock] fails, with [UnknownHardfork], exactly for the names
    that the chain's timeline does not have; otherwise it returns the block,
    possibly null, of the first record with the name. An empty name stands
    for the current hardfork. *)
Theorem hardforkBlock_lookup c hardfork :
  hardfork ≠ "" →
  (hardforkBlock c (Some hardfork) = Err (UnknownHardfork hardfork)
   ↔ hardfork ∉ names (hardforks c))
  ∧ (∀ e, hardforkBlock c (Some hardfork) = Err e → e = UnknownHardfork hardfork)
  ∧ (∀ b, hardforkBlock c (Some hardfork) = Ok b →
       ∃ data, record_of c hardfork data ∧ Hardfork.block data = b)
  ∧ hardforkBlock c (Some "") = hardforkBlock c None.
Proof.
  intros Hne. rewrite hardforkBlock_given by done.
  destruct (_getHardfork_cases c hardfork) as [[Habs ->] | (data & Hrec & ->)]; simpl.
  - split_and!; [done | by intros e [= <-] | discriminate | reflexivity].
  - split_and!.
    + split; [discriminate |]. intros Habs. exfalso. apply Habs.
      apply (list_elem_of_fmap_2' Hardfork.name _ data);
        [by apply record_of_elem_of with hardfork | by destruct Hrec as (? & ? & _ & <- & _)].
    + discriminate.
    + intros b [= <-]. by exists data.
    + reflexivity.
Qed.

(** *** Activity on a block and on the chain *)

Lemma hardforkIsActiveOnBlock_record c hardfork data blockNumber :
  hardfork ≠ "" → record_of c hardfork data →
  hardforkIsActiveOnBlock c (Some hardfork) blockNumber None
  = Ok (match Hardfork.block data with
        | Some b => b <=? blockNumber
        | None => false
        end).
Proof.
  intros Hne Hrec. unfold hardforkIsActiveOnBlock. simpl default.
  rewrite _chooseHardfork_given by done.
  change (Ok hardfork ≫= ?f) with (f hardfork). cbv beta.
  rewrite hardforkBlock_given, (_getHardfork_record _ _ _ Hrec) by done.
  reflexivity.
Qed.

(** A hardfork that is active on a block is active on every later block;
    the same for the current hardfork through [activeOnBlock]. *)
Theorem hardforkIsActiveOnBlock_monotone c hardfork bn bn' opts :
  bn ≤ bn' →
  (hardforkIsActiveOnBlock c hardfork bn opts = Ok true →
   hardforkIsActiveOnBlock c hardfork bn' opts = Ok true)
  ∧ (activeOnBlock c bn opts = Ok true → activeOnBlock c bn' opts = Ok true).
Proof.
  intros Hle.
  assert (∀ hardfork, hardforkIsActiveOnBlock c hardfork bn opts = Ok true →
                      hardforkIsActiveOnBlock c hardfork bn' opts = Ok true) as Hmono.
  { clear hardfork. intros hardfork. unfold hardforkIsActiveOnBlock.
    destruct (_chooseHardfork c hardfork _) as [chosen|e]; simpl; [| done].
    destruct (hardforkBlock c (Some chosen)) as [[b|]|e]; simpl; try done.
    intros [= Hb]. apply Z.leb_le in Hb.
    f_equal. apply Z.leb_le. lia. }
  split; [apply Hmono | apply Hmono].
Qed.

Lemma ascending_until_exceeds bn hfs hf :
  ascending hfs → hf ∈ scheduled hfs → exceeds (Some bn) hf = false →
  hf ∈ until_exceeds (Some bn) (scheduled hfs).
Proof.
  unfold scheduled.
  induction hfs as [|x rest IH]; intros Hasc Hin Hex; [done |].
  rewrite filter_cons in Hin |- *.
  destruct (decide (Hardfork.block x ≠ None)) as [Hsome | Hnone].
  - destruct (Hardfork.block x) as [bx|] eqn:Hbx; [| done].
    destruct (ascending_cons_Some x rest bx Hbx Hasc) as [Hrest Hle].
    cbn [until_exceeds]. destruct (exceeds (Some bn) x) eqn:Hexx.
    + exfalso. apply elem_of_cons in Hin as [-> | Hin]; [congruence |].
      apply list_elem_of_filter in Hin as [Hb Hin].
      rewrite Forall_forall in Hle. specialize (Hle hf Hin).
      unfold exceeds in Hex, Hexx. rewrite Hbx in Hexx.
      destruct (Hardfork.block hf) as [b|]; [| done].
      specialize (Hle b eq_refl). apply Z.ltb_lt in Hexx. apply Z.ltb_ge in Hex. lia.
    + apply elem_of_cons in Hin as [Heq | Hin]; apply elem_of_cons;
        [by left | right; by apply IH].
  - apply IH; [| done | done].
    apply ascending_cons_None with x; [| done].
    destruct (Hardfork.block x); [| done]. by destruct Hnone.
Qed.

(** A record of [activeHardforks] for a block number is active on that
    block according to [hardforkIsActiveOnBlock]; the converse holds when
    the non-null blocks do not decrease along the timeline ([activeHardforks]
    stops at the first record above the block number). *)
Theorem hardforkIsActiveOnBlock_activeHardforks c hardfork data blockNumber :
  hardfork ≠ "" → record_of c hardfork data →
  (data ∈ activeHardforks c (Some blockNumber) None →
   hardforkIsActiveOnBlock c (Some hardfork) blockNumber None = Ok true)
  ∧ (ascending (hardforks c) →
     hardforkIsActiveOnBlock c (Some hardfork) blockNumber None = Ok true →
     data ∈ activeHardforks c (Some blockNumber) None).
Proof.
  intros Hne Hrec. rewrite hardforkIsActiveOnBlock_record with (data := data) by done.
  split.
  - intros Hin. apply activeHardforks_elem_of in Hin as (_ & _ & b & Hb & Hle).
    rewrite Hb. f_equal. apply Z.leb_le. by apply Hle.
  - intros Hasc Hactive. rewrite activeHardforks_unfiltered.
    destruct (Hardfork.block data) as [b|] eqn:Hb; [| discriminate].
    injection Hactive as Hle. apply Z.leb_le in Hle.
    apply ascending_until_exceeds; [done | |].
    + unfold scheduled. apply list_elem_of_filter. split; [congruence |].
      by apply record_of_elem_of with hardfork.
    + unfold exceeds. rewrite Hb. apply Z.ltb_ge. lia.
Qed.

Lemma hardforkIsActiveOnChain_given c hardfork :
  hardfork ≠ "" →
  hardforkIsActiveOnChain c (Some hardfork) None = Ok true
  ↔ ∃ hf, hf ∈ hardforks c ∧ Hardfork.name hf = hardfork ∧ Hardfork.block hf ≠ None.
Proof.
  intros Hne. unfold hardforkIsActiveOnChain. simpl default.
  rewrite _chooseHardfork_given by done.
  change (Ok hardfork ≫= ?f) with (f hardfork). cbv beta.
  split.
  - intros [= Hex]. apply existsb_exists in Hex as (hf & Hin & Hhf).
    apply andb_true_iff in Hhf as [Hname Hblock].
    apply bool_decide_eq_true in Hname, Hblock.
    exists hf. split_and!; [by apply list_elem_of_In | done | done].
  - intros (hf & Hin & Hname & Hblock). f_equal. apply existsb_exists.
    exists hf. split; [by apply list_elem_of_In |].
    apply andb_true_iff. split; by apply bool_decide_eq_true.
Qed.

(** A hardfork is active on the chain exactly when its name is among
    [activeHardforks] taken without block number and filter; when the names
    of the timeline are unique, these are the hardforks for which [forkHash]
    succeeds. *)
Theorem hardforkIsActiveOnChain_activeHardforks c hardfork :
  hardfork ≠ "" →
  (hardforkIsActiveOnChain c (Some hardfork) None = Ok true
   ↔ hardfork ∈ names (activeHardforks c None None))
  ∧ (NoDup (names (hardforks c)) →
     hardforkIsActiveOnChain c (Some hardfork) None = Ok true
     ↔ ∃ r, forkHash c (Some hardfork) = Ok r).
Proof.
  intros Hne. rewrite hardforkIsActiveOnChain_given by done. split.
  - rewrite activeHardforks_unfiltered. unfold names. rewrite list_elem_of_fmap.
    split.
    + intros (hf & Hin & Hname & Hblock). exists hf. split; [done |].
      assert (until_exceeds None (scheduled (hardforks c)) = scheduled (hardforks c))
        as ->.
      { induction (scheduled (hardforks c)) as [|x l IH]; simpl; [done |].
        unfold exceeds. simpl. by rewrite IH. }
      unfold scheduled. by apply list_elem_of_filter.
    + intros (hf & Hname & Hin).
      apply until_exceeds_elem_of in Hin as [Hin _].
      unfold scheduled in Hin. apply list_elem_of_filter in Hin as [Hblock Hin].
      by exists hf.
  - intros Hnd. unfold forkHash. rewrite _chooseHardfork_given by done.
    change (Ok hardfork ≫= ?f) with (f hardfork). cbv beta.
    destruct (_getHardfork_cases c hardfork) as [[Habs ->] | (data & Hrec & ->)];
      simpl.
    + split; [| by intros [r Hr]].
      intros (hf & Hin & Hname & _). exfalso. apply Habs.
      by apply (list_elem_of_fmap_2' Hardfork.name _ hf).
    + split.
      * intros (hf & Hin & Hname & Hblock).
        assert (hf = data) as ->.
        { pose proof (find_hardfork_unique _ _ Hnd Hin) as Hfind.
          rewrite Hname, (find_hardfork_record _ _ _ Hrec) in Hfind. congruence. }
        destruct (Hardfork.block data); [| done].
        destruct (Hardfork.forkHash data); by eexists.
      * intros [r Hr]. exists data.
        split_and!; [by apply record_of_elem_of with hardfork
                    | by destruct Hrec as (? & ? & _ & <- & _) |].
        by destruct (Hardfork.block data).
Qed.

(** *** Comparing hardforks by position *)

Lemma position_fold hardfork hfs pos index :
  let r := fold_left
             (fun '(pos, index) hf =>
                (if decide (Hardfork.name hf = hardfork) then index else pos,
                 index + 1))
             hfs (pos, index) in
  (r.1 = pos ∧ hardfork ∉ names hfs)
  ∨ (index ≤ r.1 < index + Z.of_nat (length hfs)
     ∧ ∃ hf, hfs !! Z.to_nat (r.1 - index) = Some hf ∧ Hardfork.name hf = hardfork).
Proof.
  unfold names. revert pos index.
  induction hfs as [|hf rest IH]; intros pos index; simpl.
  - left. split; [done | apply not_elem_of_nil].
  - specialize (IH (if decide (Hardfork.name hf = hardfork) then index else pos)
                   (index + 1)).
    simpl in IH.
    destruct IH as [[Heq Habs] | (Hrange & x & Hx & Hname)].
    + rewrite Heq. destruct (decide (Hardfork.name hf = hardfork)) as [Hhf | Hhf].
      * right. split; [lia |]. exists hf. by rewrite Z.sub_diag.
      * left. split; [done |]. rewrite not_elem_of_cons. by split.
    + right. split; [lia |]. exists x. split; [| done].
      replace (Z.to_nat (_ - index)) with (S (Z.to_nat (
        (fold_left
           (fun '(pos, index) hf =>
              (if decide (Hardfork.name hf = hardfork) then index else pos,
               index + 1))
           rest
           (if decide (Hardfork.name hf = hardfork) then index else pos,
            index + 1)).1 - (index + 1)))) by lia.
      exact Hx.
Qed.

Lemma position_cases hardfork hfs :
  (position hardfork hfs = -1 ∧ hardfork ∉ names hfs)
  ∨ (0 ≤ position hardfork hfs
     ∧ ∃ hf, hfs !! Z.to_nat (position hardfork hfs) = Some hf
             ∧ Hardfork.name hf = hardfork).
Proof.
  unfold position.
  destruct (position_fold hardfork hfs (-1) 0) as [[Heq Habs] | (Hrange & hf & Hhf & Hname)].
  - by left.
  - right. split; [lia |]. exists hf. by rewrite Z.sub_0_r in Hhf.
Qed.

Lemma positions_fold_split hardfork1 hardfork2 hfs posHf1 posHf2 index :
  fold_left
    (fun '(posHf1, posHf2, index) hf =>
       (if decide (Hardfork.name hf = hardfork1) then index else posHf1,
        if decide (Hardfork.name hf = hardfork2) then index else posHf2,
        index + 1))
    hfs (posHf1, posHf2, index)
  = ((fold_left
        (fun '(pos, index) hf =>
           (if decide (Hardfork.name hf = hardfork1) then index else pos, index + 1))
        hfs (posHf1, index)).1,
     (fold_left
        (fun '(pos, index) hf =>
           (if decide (Hardfork.name hf = hardfork2) then index else pos, index + 1))
        hfs (posHf2, index)).1,
     index + Z.of_nat (length hfs)).
Proof.
  revert posHf1 posHf2 index.
  induction hfs as [|hf rest IH]; intros posHf1 posHf2 index.
  - simpl. by rewrite Z.add_0_r.
  - cbn [fold_left]. rewrite IH. f_equal. cbn [length]. lia.
Qed.

Lemma positions_position hardfork1 hardfork2 hfs :
  positions hardfork1 hardfork2 hfs
  = (position hardfork1 hfs, position hardfork2 hfs).
Proof. unfold positions, position. by rewrite positions_fold_split. Qed.

Lemma hardforkGteHardfork_position c hardfork1 hardfork2 opts :
  _chooseHardfork c (Some hardfork1) (onlySupported (default no_opts opts))
  = Ok hardfork1 →
  hardforkGteHardfork c (Some hardfork1) hardfork2 opts
  = Ok (position hardfork2 (compared c opts) <=? position hardfork1 (compared c opts)).
Proof.
  intros Hch. rewrite (hardforkGteHardfork_positions _ _ _ _ _ Hch).
  by rewrite positions_position.
Qed.

(** On names that pass [_chooseHardfork], [hardforkGteHardfork] with fixed
    options is a total preorder: reflexive, total and transitive; two names
    that are each at or after the other are the same name when one of them
    is in the compared sequence. *)
Theorem hardforkGteHardfork_preorder c opts h1 h2 h3 :
  let passes h :=
    _chooseHardfork c (Some h) (onlySupported (default no_opts opts)) = Ok h in
  let gte x y := hardforkGteHardfork c (Some x) y opts in
  passes h1 → passes h2 → passes h3 →
  gte h1 h1 = Ok true
  ∧ (gte h1 h2 = Ok true ∨ gte h2 h1 = Ok true)
  ∧ (gte h1 h2 = Ok true → gte h2 h3 = Ok true → gte h1 h3 = Ok true)
  ∧ (gte h1 h2 = Ok true → gte h2 h1 = Ok true →
     h1 ∈ names (compared c opts) → h1 = h2).
Proof.
  intros passes gte P1 P2 P3. unfold gte.
  rewrite !hardforkGteHardfork_position by done.
  set (hfs := compared c opts).
  split_and!.
  - f_equal. apply Z.leb_le. lia.
  - destruct (Z_le_gt_dec (position h2 hfs) (position h1 hfs)).
    + left. f_equal. by apply Z.leb_le.
    + right. f_equal. apply Z.leb_le. lia.
  - intros [= H12%Z.leb_le] [= H23%Z.leb_le]. f_equal. apply Z.leb_le. lia.
  - intros [= H12%Z.leb_le] [= H21%Z.leb_le] Hin.
    destruct (position_cases h1 hfs) as [[_ Habs] | (Hpos1 & hf1 & Hhf1 & Hname1)];
      [done |].
    destruct (position_cases h2 hfs) as [[Hm _] | (Hpos2 & hf2 & Hhf2 & Hname2)];
      [lia |].
    assert (position h1 hfs = position h2 hfs) as Heq by lia.
    rewrite Heq in Hhf1. congruence.
Qed.

(** With the options omitted, [hardforkGteHardfork] hands [undefined] to
    [_chooseHardfork], whose default then enforces the support list on an
    explicitly given first hardfork; with [onlySupported: false] spelled
    out the comparison is made, as it is by [hardforkIsActiveOnChain] and
    [hardforkIsActiveOnBlock], which default to [false] themselves. *)
Theorem hardforkGteHardfork_default_support c hardfork1 hardfork2 blockNumber :
  hardfork1 ≠ "" → _isSupportedHardfork c hardfork1 = false →
  hardforkGteHardfork c (Some hardfork1) hardfork2 None
  = Err (UnsupportedHardfork hardfork1)
  ∧ hardforkGteHardfork c (Some hardfork1) hardfork2
      (Some {| onlySupported := Some false; onlyActive := None |})
    = Ok (position hardfork2 (hardforks c) <=? position hardfork1 (hardforks c))
  ∧ hardforkIsActiveOnChain c (Some hardfork1) None
    ≠ Err (UnsupportedHardfork hardfork1)
  ∧ hardforkIsActiveOnBlock c (Some hardfork1) blockNumber None
    ≠ Err (UnsupportedHardfork hardfork1).
Proof.
  intros Hne Huns. split_and!.
  - unfold hardforkGteHardfork, _chooseHardfork. simpl.
    destruct (decide (hardfork1 = "")); [done |]. by rewrite Huns.
  - rewrite hardforkGteHardfork_position; [reflexivity |].
    by apply _chooseHardfork_given.
  - unfold hardforkIsActiveOnChain. simpl default.
    by rewrite _chooseHardfork_given.
  - unfold hardforkIsActiveOnBlock. simpl default.
    rewrite _chooseHardfork_given by done.
    change (Ok hardfork1 ≫= ?f) with (f hardfork1). cbv beta.
    rewrite hardforkBlock_given by done.
    destruct (_getHardfork_cases c hardfork1) as [[_ ->] | (data & _ & ->)]; simpl;
      congruence.
Qed.

(** [setEIPs] compares positions in the chain's own timeline: an EIP whose
    [minimumHardfork] the chain does not have is accepted on any current
    hardfork, and when the current hardfork itself is not in the chain's
    timeline, every EIP whose [minimumHardfork] is there is rejected. *)
Theorem setEIPs_absent_names c eip eipParams :
  EIPs !! eip = Some eipParams →
  (EIP.minimumHardfork eipParams ∉ names (hardforks c) →
   setEIPs [eip] c = assign_eips [eip] c)
  ∧ (_hardfork c ∉ names (hardforks c) →
     EIP.minimumHardfork eipParams ∈ names (hardforks c) →
     setEIPs [eip] c = (Err (HardforkTooOld eip (_hardfork c)), c)).
Proof.
  intros Hlook. split.
  - intros Habs.
    assert (acceptable c eip) as Hacc.
    { exists eipParams. split; [done |]. rewrite positions_position. simpl.
      destruct (position_cases (EIP.minimumHardfork eipParams) (hardforks c))
        as [[-> _] | (_ & hf & Hhf & Hname)].
      - destruct (position_cases (_hardfork c) (hardforks c)) as [[-> _] | [? _]]; lia.
      - exfalso. apply Habs. apply (list_elem_of_fmap_2' Hardfork.name _ hf); [| done].
        by apply list_elem_of_lookup_2 in Hhf. }
    unfold setEIPs, andThen. rewrite forOf_setEIPs_ok; [done |].
    by repeat constructor.
  - intros Hcur Hmin.
    apply (setEIPs_rejects c [] eip []); [constructor |].
    apply setEIPs_body_tooOld. exists eipParams. split; [done |].
    rewrite positions_position. simpl.
    destruct (position_cases (_hardfork c) (hardforks c)) as [[-> _] | (_ & hf & Hhf & Hname)].
    + destruct (position_cases (EIP.minimumHardfork eipParams) (hardforks c))
        as [[_ Habs] | [? _]]; [done | lia].
    + exfalso. apply Hcur. apply (list_elem_of_fmap_2' Hardfork.name _ hf); [| done].
      by apply list_elem_of_lookup_2 in Hhf.
Qed.

(** *** Hardfork blocks and next hardfork blocks *)

Lemma isHardforkBlock_record c hardfork data blockNumber :
  hardfork ≠ "" → record_of c hardfork data →
  isHardforkBlock c blockNumber (Some hardfork)
  = Ok (bool_decide (Hardfork.block data = Some blockNumber)).
Proof.
  intros Hne Hrec. unfold isHardforkBlock. rewrite _chooseHardfork_given by done.
  change (Ok hardfork ≫= ?f) with (f hardfork). cbv beta.
  by rewrite hardforkBlock_given, (_getHardfork_record _ _ _ Hrec).
Qed.

Lemma nextHardforkBlock_record c hardfork data :
  hardfork ≠ "" → record_of c hardfork data →
  nextHardforkBlock c (Some hardfork)
  = Ok (fold_left (nextHardforkBlock_reducer (Hardfork.block data)) (hardforks c) None).
Proof.
  intros Hne Hrec. unfold nextHardforkBlock. rewrite _chooseHardfork_given by done.
  change (Ok hardfork ≫= ?f) with (f hardfork). cbv beta.
  by rewrite hardforkBlock_given, (_getHardfork_record _ _ _ Hrec).
Qed.

(** When [isNextHardforkBlock] holds of a block number and a hardfork with
    a non-null, non-negative block, the number is above that block, it is
    not the hardfork's own block according to [isHardforkBlock], and it is
    the block of a record of the timeline, for whose name (when names are
    unique) [isHardforkBlock] holds. *)
Theorem isNextHardforkBlock_isHardforkBlock c hardfork data h blockNumber :
  hardfork ≠ "" → record_of c hardfork data →
  Hardfork.block data = Some h → 0 ≤ h →
  isNextHardforkBlock c blockNumber (Some hardfork) = Ok true →
  h < blockNumber
  ∧ isHardforkBlock c blockNumber (Some hardfork) = Ok false
  ∧ ∃ hf, hf ∈ hardforks c ∧ Hardfork.block hf = Some blockNumber
          ∧ (NoDup (names (hardforks c)) → Hardfork.name hf ≠ "" →
             isHardforkBlock c blockNumber (Some (Hardfork.name hf)) = Ok true).
Proof.
  intros Hne Hrec Hblock Hh. unfold isNextHardforkBlock.
  rewrite _chooseHardfork_given by done.
  change (Ok hardfork ≫= ?f) with (f hardfork). cbv beta.
  rewrite (nextHardforkBlock_record _ _ _ Hne Hrec), Hblock. simpl.
  pose proof (nextHardforkBlock_reducer_first h (hardforks c) Hh) as Hfirst.
  intros [= Hnext]. apply bool_decide_eq_true in Hnext. rewrite Hnext in Hfirst.
  destruct Hfirst as (pre & hf & post & Heq & Hhf & Hlt & _).
  split_and!; [done | |].
  - rewrite (isHardforkBlock_record _ _ _ _ Hne Hrec), Hblock.
    f_equal. apply bool_decide_eq_false. intros [= ->]. lia.
  - exists hf.
    assert (hf ∈ hardforks c) as Hin.
    { rewrite Heq. apply elem_of_app. right. apply elem_of_cons. by left. }
    split_and!; [done | done |].
    intros Hnd Hname.
    rewrite (isHardforkBlock_record c (Hardfork.name hf) hf);
      [| done | by apply record_of_unique_name].
    f_equal. by apply bool_decide_eq_true.
Qed.

(** *** The walk over the hardfork files *)

Lemma hfChanges_loop_other_target topic name target target' changes value :
  target ∉ changes.*1 → target' ∉ changes.*1 →
  hfChanges_loop topic name target changes value
  = hfChanges_loop topic name target' changes value.
Proof.
  revert value. induction changes as [|hfChanges rest IH]; intros value; [done |].
  rewrite fmap_cons, !not_elem_of_cons. intros [Hne Hrest] [Hne' Hrest']. simpl.
  destruct (hfChanges_step topic name hfChanges.2 value) as [value'|e]; simpl;
    [| reflexivity].
  destruct (decide (hfChanges.1 = target)); [done |].
  destruct (decide (hfChanges.1 = target')); [done |].
  by apply IH.
Qed.

Lemma paramByHardfork_stops_at_target_aux c topic name hardfork target
    pre params post :
  _chooseHardfork c (Some hardfork) None = Ok target →
  HARDFORK_CHANGES = pre ++ (target, params) :: post →
  target ∉ pre.*1 →
  paramByHardfork c topic name hardfork
  = hfChanges_loop topic name target pre VNull ≫= hfChanges_step topic name params.
Proof.
  intros Hch Heq Hpre. unfold paramByHardfork. rewrite Hch.
  change (Ok target ≫= ?f) with (f target). cbv beta.
  rewrite Heq, hfChanges_loop_app by done.
  destruct (hfChanges_loop topic name target pre VNull) as [value|e]; [| reflexivity].
  simpl. destruct (hfChanges_step topic name params value); simpl; [| reflexivity].
  by destruct (decide (target = target)).
Qed.

(** [paramByHardfork] reads the files up to and including the first one
    named after the target and nothing after it: the files that follow
    cannot change the value, nor make the call fail. *)
Theorem paramByHardfork_stops_at_target c topic name hardfork target
    pre params post :
  _chooseHardfork c (Some hardfork) None = Ok target →
  HARDFORK_CHANGES = pre ++ (target, params) :: post →
  target ∉ pre.*1 →
  paramByHardfork c topic name hardfork
  = hfChanges_loop topic name target pre VNull ≫= hfChanges_step topic name params.
Proof. apply paramByHardfork_stops_at_target_aux. Qed.

(** [paramByHardfork] never checks that the hardfork is one of
    [HARDFORK_CHANGES]: for a name that is not, the walk covers every file,
    and the result is that of the last file's hardfork. *)
Theorem paramByHardfork_unknown_name c topic name hardfork target
    init latest params :
  _chooseHardfork c (Some hardfork) None = Ok target →
  _chooseHardfork c (Some latest) None = Ok latest →
  HARDFORK_CHANGES = init ++ [(latest, params)] →
  target ∉ HARDFORK_CHANGES.*1 → latest ∉ init.*1 →
  paramByHardfork c topic name hardfork = paramByHardfork c topic name latest.
Proof.
  intros Hch Hlatest Heq Habs Hinit.
  rewrite (paramByHardfork_stops_at_target_aux c topic name latest latest init params [])
    by done.
  unfold paramByHardfork. rewrite Hch.
  change (Ok target ≫= ?f) with (f target). cbv beta.
  rewrite Heq in Habs |- *. rewrite fmap_app, not_elem_of_app in Habs.
  destruct Habs as [Habs1 Habs2].
  rewrite hfChanges_loop_app by done.
  rewrite (hfChanges_loop_other_target topic name target latest init) by done.
  destruct (hfChanges_loop topic name latest init VNull) as [value|e]; [| reflexivity].
  simpl. destruct (hfChanges_step topic name params value); simpl; [| reflexivity].
  by destruct (decide (latest = target)).
Qed.

Lemma hfChanges_loop_unchanged topic name target mid post value :
  Forall (λ hfChanges, unchanged_by topic name hfChanges.2) mid →
  target ∈ mid.*1 →
  hfChanges_loop topic name target (mid ++ post) value = Ok value.
Proof.
  induction 1 as [|hfChanges mid Hun _ IH]; intros Hin.
  - by apply elem_of_nil in Hin.
  - simpl. rewrite Hun. simpl.
    destruct (decide (hfChanges.1 = target)) as [_ | Hne]; [reflexivity |].
    apply IH. rewrite fmap_cons in Hin.
    apply elem_of_cons in Hin as [Heq | Hin]; [congruence | done].
Qed.

(** The value of a parameter at a hardfork is the one given by the latest
    file, at or before the hardfork's own, that changes it: when a
    parameter-inlining file gives [(topic, name)] an entry and the files
    after it up to the target's leave the parameter as it is,
    [paramByHardfork] returns the value of that entry. *)
Theorem paramByHardfork_latest_change c topic name hardfork target
    pre hfName topics mid post params entry before :
  _chooseHardfork c (Some hardfork) None = Ok target →
  HARDFORK_CHANGES = pre ++ (hfName, ParameterInlining topics) :: mid ++ post →
  target ∉ pre.*1 → target ∈ hfName :: mid.*1 →
  hfChanges_loop topic name target pre VNull = Ok before →
  topics !! topic = Some params → params !! name = Some entry →
  Forall (λ hfChanges, unchanged_by topic name hfChanges.2) mid →
  paramByHardfork c topic name hardfork = Ok (v entry).
Proof.
  intros Hch Heq Hpre Hin Hwalk Htopic Hname Hmid.
  unfold paramByHardfork. rewrite Hch.
  change (Ok target ≫= ?f) with (f target). cbv beta.
  rewrite Heq, hfChanges_loop_app, Hwalk by done.
  change (Ok before ≫= ?f) with (f before). cbv beta.
  cbn [hfChanges_loop fst snd].
  rewrite (hfChanges_step_own topic name topics params before Htopic), Hname.
  change (Ok (v entry) ≫= ?f) with (f (v entry)). cbv beta.
  destruct (decide (hfName = target)) as [_ | Hne]; [reflexivity |].
  apply hfChanges_loop_unchanged; [done |].
  apply elem_of_cons in Hin as [Heq' | Hin]; [congruence | done].
Qed.

(** *** Parameters after [setEIPs] *)

Lemma setEIPs_ok_acceptable c eips c' :
  setEIPs eips c = (Ok tt, c') →
  Forall (acceptable c) eips ∧ c' = (assign_eips eips c).2.
Proof.
  intros Hset.
  assert (Forall (acceptable c) eips) as Hall.
  { apply Forall_forall. intros eip Hin.
    destruct (eip_cases c eip) as [Hacc | Hrej]; [done |].
    exfalso.
    destruct (first_rejected c eips) as (pre & x & post & Heq & Hpre & Hx).
    { apply Exists_exists. by exists eip. }
    rewrite Heq in Hset.
    destruct Hx as [Hun | Hold].
    - rewrite (setEIPs_rejects c pre x post (UnknownEIP x)) in Hset;
        [congruence | done | by apply setEIPs_body_unknown].
    - rewrite (setEIPs_rejects c pre x post (HardforkTooOld x (_hardfork c))) in Hset;
        [congruence | done | by apply setEIPs_body_tooOld]. }
  split; [done |].
  unfold setEIPs, andThen in Hset. rewrite forOf_setEIPs_ok in Hset by done.
  unfold assign_eips in *. simpl. congruence.
Qed.

Lemma paramByEIP_error eip eipParams topic name e :
  EIPs !! eip = Some eipParams → paramByEIP topic name eip = Err e →
  EIP.topics eipParams !! topic = None
  ∧ (e = UnknownTopic topic ∨ e = JsTypeError).
Proof.
  intros Hlook. unfold paramByEIP, EIP_member. rewrite Hlook.
  destruct (EIP.topics eipParams !! topic) as [params|]; simpl.
  { by destruct (params !! name). }
  intros Herr. split; [reflexivity |].
  destruct (decide (topic = "minimumHardfork")).
  - simpl in Herr. destruct (string_member runtime _ name); simpl in Herr;
      [discriminate | discriminate | injection Herr as <-; by right].
  - destruct (inherits runtime topic); [| injection Herr as <-; by left].
    simpl in Herr. destruct (inherited_member runtime topic name); simpl in Herr;
      [discriminate | discriminate | injection Herr as <-; by right].
Qed.

Lemma param_loop_error c topic name eips e :
  Forall (λ eip, is_Some (EIPs !! eip)) eips →
  param_loop c topic name eips = Err e →
  e = UnknownTopic topic
  ∨ (e = JsTypeError
     ∧ ∃ eip eipParams, eip ∈ eips ∧ EIPs !! eip = Some eipParams
                        ∧ EIP.topics eipParams !! topic = None)
  ∨ paramByHardfork c topic name (_hardfork c) = Err e.
Proof.
  induction 1 as [|eip rest [eipParams Hlook] _ IH]; simpl; [by right; right |].
  destruct (paramByEIP topic name eip) as [value|e'] eqn:Hby; simpl.
  - destruct (decide (value = VNull)); [| discriminate].
    intros Herr. destruct (IH Herr) as [? | [(? & x & xParams & Hin & ?) | ?]].
    + by left.
    + right; left. split; [done |]. exists x, xParams. split; [by right | done].
    + by right; right.
  - intros [= <-].
    destruct (paramByEIP_error eip eipParams topic name e' Hlook Hby)
      as [Hnone [-> | ->]]; [by left |].
    right; left. split; [done |]. exists eip, eipParams. split; [by left | done].
Qed.

(** After a successful [setEIPs], the EIP layer of [param] cannot fail with
    [UnknownEIP]: an error of [param] is [UnknownTopic] for the queried
    topic, or a [TypeError] of the runtime, which needs an active EIP of
    which the queried topic is not a topic, or the error of
    [paramByHardfork] for the current hardfork. *)
Theorem param_errors_after_setEIPs c eips c' topic name e :
  setEIPs eips c = (Ok tt, c') →
  param c' topic name = Err e →
  e = UnknownTopic topic
  ∨ (e = JsTypeError
     ∧ ∃ eip eipParams, eip ∈ eips ∧ EIPs !! eip = Some eipParams
                        ∧ EIP.topics eipParams !! topic = None)
  ∨ paramByHardfork c' topic name (_hardfork c') = Err e.
Proof.
  intros Hset. apply setEIPs_ok_acceptable in Hset as [Hall ->].
  unfold param. apply param_loop_error. simpl.
  eapply Forall_impl; [exact Hall |].
  intros eip (eipParams & Hlook & _). by eexists.
Qed.

(** The timeline layer of [param] goes through the support check, the EIP
    layer does not: when the current hardfork is not in the support list
    (the default hardfork of an instance can be), [param] for a name that
    objects do not inherit fails with [UnsupportedHardfork] unless an
    active EIP decides the parameter, and returns the EIP's value when one
    does. *)
Theorem param_unsupported_current c topic name :
  _hardfork c ≠ "" → _isSupportedHardfork c (_hardfork c) = false →
  inherits runtime name = false →
  (Forall (eip_passes topic name) (_eips c) →
   param c topic name = Err (UnsupportedHardfork (_hardfork c)))
  ∧ (∀ pre eip post value,
       _eips c = pre ++ eip :: post → Forall (eip_passes topic name) pre →
       eip_defines eip topic name value → param c topic name = Ok value).
Proof.
  intros Hne Huns Hname. split.
  - intros Hall. rewrite param_all_pass by by apply Forall_eip_passes.
    by apply paramByHardfork_unsupported.
  - intros pre eip post value Heq Hpre Hdef.
    apply (Forall_eip_passes _ _ _ Hname) in Hpre.
    rewrite (param_first_decisive c topic name pre eip post Heq Hpre).
    + by apply paramByEIP_defines.
    + rewrite (paramByEIP_defines _ _ _ _ Hdef).
      destruct Hdef as (? & ? & ? & _ & _ & _ & _ & Hnn). congruence.
Qed.

(** *** Looking up a fork hash *)

Lemma filter_none (P : Hardfork.t → Prop) `{∀ hf, Decision (P hf)}
    (l : list Hardfork.t) :
  filter P l = [] ↔ Forall (λ hf, ¬ P hf) l.
Proof.
  induction l as [|x l IH]; [by split; [constructor |] |].
  rewrite filter_cons. destruct (decide (P x)) as [HP | HP].
  - split; [discriminate |]. intros Hall. apply Forall_cons in Hall as [Hx _]. done.
  - rewrite IH. split; [by constructor |]. intros Hall.
    by apply Forall_cons in Hall as [_ Hl].
Qed.

Lemma filter_one (P : Hardfork.t → Prop) `{∀ hf, Decision (P hf)}
    (l : list Hardfork.t) (x : Hardfork.t) :
  filter P l = [x]
  ↔ ∃ pre post, l = pre ++ x :: post ∧ P x
                ∧ Forall (λ hf, ¬ P hf) pre ∧ Forall (λ hf, ¬ P hf) post.
Proof.
  split.
  - induction l as [|y l IH]; [discriminate |].
    rewrite filter_cons. destruct (decide (P y)) as [HP | HP].
    + intros [= -> Hnil]. apply filter_none in Hnil.
      exists [], l. by split_and!.
    + intros Hone. destruct (IH Hone) as (pre & post & -> & Hx & Hpre & Hpost).
      exists (y :: pre), post. split_and!; [done | done | by constructor | done].
  - intros (pre & post & -> & Hx & Hpre & Hpost).
    rewrite filter_app, filter_cons.
    rewrite (proj2 (filter_none P pre) Hpre), (proj2 (filter_none P post) Hpost).
    by destruct (decide (P x)).
Qed.

(** [hardforkForForkHash] returns a record exactly when it is the only
    record of the timeline that stores the hash; when two records store it,
    as hardforks scheduled at the same block do, the answer is null. *)
Theorem hardforkForForkHash_unique c hash :
  (∀ hf, hardforkForForkHash c hash = Some hf
         ↔ ∃ pre post, hardforks c = pre ++ hf :: post
                       ∧ Hardfork.forkHash hf = hash
                       ∧ Forall (λ r, Hardfork.forkHash r ≠ hash) pre
                       ∧ Forall (λ r, Hardfork.forkHash r ≠ hash) post)
  ∧ (∀ l1 hf1 l2 hf2 l3,
       hardforks c = l1 ++ hf1 :: l2 ++ hf2 :: l3 →
       Hardfork.forkHash hf1 = hash → Hardfork.forkHash hf2 = hash →
       hardforkForForkHash c hash = None).
Proof.
  assert (∀ hf, hardforkForForkHash c hash = Some hf
                ↔ filter (λ r, Hardfork.forkHash r = hash) (hardforks c) = [hf])
    as Hfilter.
  { intros hf. unfold hardforkForForkHash.
    destruct (filter _ (hardforks c)) as [|x [|y rest]]; split; congruence. }
  split.
  - intros hf. rewrite Hfilter. apply filter_one.
  - intros l1 hf1 l2 hf2 l3 Heq H1 H2.
    destruct (hardforkForForkHash c hash) as [hf|] eqn:Hres; [| done].
    exfalso. clear Hres. pose proof (proj1 (Hfilter hf) eq_refl) as Hres.
    rewrite Heq in Hres.
    rewrite filter_app, filter_cons, filter_app, filter_cons in Hres.
    destruct (decide (Hardfork.forkHash hf1 = hash)); [| done].
    destruct (decide (Hardfork.forkHash hf2 = hash)); [| done].
    apply (f_equal length) in Hres.
    rewrite length_app in Hres. simpl in Hres. rewrite length_app in Hres.
    simpl in Hres. lia.
Qed.

(** *** Shape of the computed fork hash *)

Lemma _calcForkHash_loop_other_target target target' hfs hfBuffer prevBlock :
  target ∉ names hfs → target' ∉ names hfs →
  _calcForkHash_loop target hfs hfBuffer prevBlock
  = _calcForkHash_loop target' hfs hfBuffer prevBlock.
Proof.
  unfold names. revert hfBuffer prevBlock.
  induction hfs as [|hf rest IH]; intros hfBuffer prevBlock; [done |].
  rewrite fmap_cons, !not_elem_of_cons. intros [Hne Hrest] [Hne' Hrest'].
  simpl. destruct (decide (Hardfork.name hf = target)); [done |].
  destruct (decide (Hardfork.name hf = target')); [done |].
  by apply IH.
Qed.

Lemma _calcForkHash_loop_app target pre rest hfBuffer prevBlock :
  target ∉ names pre →
  _calcForkHash_loop target (pre ++ rest) hfBuffer prevBlock
  = _calcForkHash_loop target rest
      (_calcForkHash_loop target pre hfBuffer prevBlock)
      (match last pre with
       | Some hf => Hardfork.block hf
       | None => prevBlock
       end).
Proof.
  unfold names. revert hfBuffer prevBlock.
  induction pre as [|hf pre IH]; intros hfBuffer prevBlock; [done |].
  rewrite fmap_cons, not_elem_of_cons. intros [Hne Hpre].
  simpl _calcForkHash_loop.
  destruct (decide (Hardfork.name hf = target)); [done |].
  rewrite IH by done. rewrite last_cons. by destruct (last pre).
Qed.

(** A record whose block is null, [0], or the block of the record just
    before it has the computed fork hash of that record. *)
Theorem _calcForkHash_same_block c pre hf1 hf2 post :
  hardforks c = pre ++ hf1 :: hf2 :: post →
  Hardfork.name hf1 ∉ names pre → Hardfork.name hf2 ∉ names pre →
  Hardfork.name hf2 ≠ Hardfork.name hf1 →
  blockless hf2 ∨ Hardfork.block hf2 = Hardfork.block hf1 →
  _calcForkHash c (Hardfork.name hf2) = _calcForkHash c (Hardfork.name hf1).
Proof.
  intros Heq Hn1 Hn2 Hne Hblock. unfold _calcForkHash. cbv zeta.
  do 3 f_equal. f_equal. rewrite Heq.
  rewrite !_calcForkHash_loop_app by done.
  rewrite (_calcForkHash_loop_other_target (Hardfork.name hf2) (Hardfork.name hf1) pre)
    by done.
  set (before := _calcForkHash_loop (Hardfork.name hf1) pre [] (Some 0)).
  set (prev := match last pre with Some hf => Hardfork.block hf | None => Some 0 end).
  simpl.
  destruct (decide (Hardfork.name hf1 = Hardfork.name hf1)) as [_ | ?]; [| done].
  destruct (decide (Hardfork.name hf1 = Hardfork.name hf2)) as [? | _]; [congruence |].
  destruct (decide (Hardfork.name hf2 = Hardfork.name hf2)) as [_ | ?]; [| done].
  destruct Hblock as [[-> | ->] | ->]; [reflexivity | reflexivity |].
  destruct (Hardfork.block hf1) as [b|]; [| reflexivity].
  rewrite (bool_decide_eq_true_2 (Some b = Some b)) by done.
  by rewrite andb_false_r.
Qed.

Lemma _calcForkHash_loop_blockless target hfs hfBuffer prevBlock :
  Forall blockless (up_to target hfs) →
  _calcForkHash_loop target hfs hfBuffer prevBlock = hfBuffer.
Proof.
  revert prevBlock. induction hfs as [|hf rest IH]; intros prevBlock; [done |].
  simpl. intros Hall. apply Forall_cons in Hall as [Hhf Hrest].
  assert (match Hardfork.block hf with
          | Some block =>
              if negb (block =? 0) && negb (bool_decide (Some block = prevBlock))
              then hfBuffer ++ Buffer_from_hex (padStart 16 "0" (toString16 block))
              else hfBuffer
          | None => hfBuffer
          end = hfBuffer) as ->.
  { by destruct Hhf as [-> | ->]. }
  destruct (decide (Hardfork.name hf = target)); [done | by apply IH].
Qed.

(** When every record up to and including the target has block [0] or
    null, the computed fork hash is the CRC-32 of the genesis hash bytes
    alone. *)
Theorem _calcForkHash_genesis_only c target :
  Forall blockless (up_to target (hardforks c)) →
  _calcForkHash c target
  = String.append "0x" (toString16 (crc32_unsigned (genesis_bytes c))).
Proof.
  intros Hall. unfold _calcForkHash. cbv zeta.
  rewrite _calcForkHash_loop_blockless, app_nil_r by done.
  fold (genesis_bytes c). rewrite ushr0_crc32Buffer; [done |].
  apply hex_decode_bytes.
Qed.

Lemma _calcForkHash_loop_bytes target hfs hfBuffer prevBlock :
  Forall is_byte hfBuffer →
  Forall is_byte (_calcForkHash_loop target hfs hfBuffer prevBlock).
Proof.
  revert hfBuffer prevBlock.
  induction hfs as [|hf rest IH]; intros hfBuffer prevBlock Hbuf; [done |].
  simpl.
  assert (Forall is_byte
            match Hardfork.block hf with
            | Some block =>
                if negb (block =? 0) && negb (bool_decide (Some block = prevBlock))
                then hfBuffer ++ Buffer_from_hex (padStart 16 "0" (toString16 block))
                else hfBuffer
            | None => hfBuffer
            end) as Hnext.
  { destruct (Hardfork.block hf) as [b|]; [| done].
    destruct (_ && _); [| done].
    apply Forall_app. split; [done | apply hex_decode_bytes]. }
  destruct (decide (Hardfork.name hf = target)); [done | by apply IH].
Qed.

Lemma hex_digit_lower d : 0 ≤ d < 16 → is_lower_hex (hex_digit d).
Proof.
  intros Hd.
  assert (d = 0 ∨ d = 1 ∨ d = 2 ∨ d = 3 ∨ d = 4 ∨ d = 5 ∨ d = 6 ∨ d = 7 ∨ d = 8
          ∨ d = 9 ∨ d = 10 ∨ d = 11 ∨ d = 12 ∨ d = 13 ∨ d = 14 ∨ d = 15)
    as Hcases by lia.
  unfold is_lower_hex.
  repeat (destruct Hcases as [-> | Hcases];
          [refine (bool_decide_unpack _ _); vm_compute; exact I |]).
  subst d. refine (bool_decide_unpack _ _). vm_compute. exact I.
Qed.

Lemma fixed_hex_lower k n : Forall is_lower_hex (fixed_hex k n).
Proof.
  revert n. induction k as [|k IH]; intros n; simpl; [constructor |].
  apply Forall_app. split; [apply IH |].
  constructor; [| constructor]. apply hex_digit_lower, Z.mod_pos_bound. lia.
Qed.

(** The computed fork hash is [0x] followed by the hexadecimal digits of a
    32-bit CRC: between one and eight lowercase digits, without padding, so
    a CRC below [16^7] gives a string of fewer than ten characters. *)
Theorem _calcForkHash_format c hardfork :
  ∃ crc digits,
    _calcForkHash c hardfork = String.append "0x" (string_of_list_ascii digits)
    ∧ 0 ≤ crc < 2 ^ 32
    ∧ digits = fixed_hex (length digits) crc
    ∧ (1 ≤ length digits ≤ 8)%nat
    ∧ Forall is_lower_hex digits
    ∧ crc < 16 ^ Z.of_nat (length digits)
    ∧ (length digits = 1%nat ∨ 16 ^ (Z.of_nat (length digits) - 1) ≤ crc).
Proof.
  unfold _calcForkHash. cbv zeta.
  set (input := _ ++ _).
  assert (Forall is_byte input) as Hbytes.
  { apply Forall_app. split; [apply hex_decode_bytes |].
    apply _calcForkHash_loop_bytes. constructor. }
  rewrite ushr0_crc32Buffer by done.
  pose proof (crc32_unsigned_range input Hbytes) as Hrange.
  set (crc := crc32_unsigned input) in *.
  exists crc, (hex_digits crc).
  assert ((crc <? 0) = false) as Hnn by (apply Z.ltb_ge; lia).
  unfold toString16. rewrite Hnn.
  unfold hex_digits.
  destruct (hex_digits_aux_fixed (S (Z.to_nat (Z.log2 crc))) crc []) as
    (j & Hj & Heq & Hlt & Hmin); [lia | |].
  { split; [lia |].
    rewrite Nat2Z.inj_succ, Z2Nat.id by apply Z.log2_nonneg.
    destruct (decide (crc = 0)) as [-> | Hnz]; [simpl; lia |].
    pose proof (Z.log2_spec crc) as [_ Hlog]; [lia |].
    eapply Z.lt_le_trans; [exact Hlog |].
    apply Z.pow_le_mono_l. pose proof (Z.log2_nonneg crc). lia. }
  rewrite app_nil_r in Heq. rewrite Heq, length_fixed_hex.
  assert (j ≤ 8)%nat as Hj8.
  { destruct Hmin as [-> | Hmin]; [lia |].
    destruct (decide (j ≤ 8)%nat) as [Hle | Hgt]; [done |].
    exfalso.
    assert (16 ^ 8 ≤ 16 ^ (Z.of_nat j - 1)) by (apply Z.pow_le_mono_r; lia).
    lia. }
  split_and!; try done; try lia.
  apply fixed_hex_lower.
Qed.

(** *** Construction *)

Lemma setEIPs_run c eips :
  (Forall (acceptable c) eips ∧ setEIPs eips c = (Ok tt, (assign_eips eips c).2))
  ∨ (∃ pre eip post, eips = pre ++ eip :: post ∧ Forall (acceptable c) pre
       ∧ ((unknownEIP eip ∧ setEIPs eips c = (Err (UnknownEIP eip), c))
          ∨ (tooOld c eip
             ∧ setEIPs eips c = (Err (HardforkTooOld eip (_hardfork c)), c)))).
Proof.
  assert (Forall (acceptable c) eips
          ∨ Exists (λ eip, unknownEIP eip ∨ tooOld c eip) eips) as [Hall | Hex].
  { induction eips as [|x rest IH]; [by left |].
    destruct (eip_cases c x) as [Hacc | Hrej]; [| by right; left].
    destruct IH as [Hall | Hex]; [left; by constructor | right; by right]. }
  - left. split; [done |]. unfold setEIPs, andThen. by rewrite forOf_setEIPs_ok.
  - right.
    destruct (first_rejected c eips Hex)
      as (pre & eip & post & -> & Hpre & [Hun | Hold]);
      exists pre, eip, post; split_and!; try done.
    + left. split; [done |].
      apply setEIPs_rejects; [done |]. by apply setEIPs_body_unknown.
    + right. split; [done |].
      apply setEIPs_rejects; [done |]. by apply setEIPs_body_tooOld.
Qed.

(** The last two steps of the constructor on an instance [this]. *)
Lemma new_Common_eips (this : Common) (eips : option (list Z)) :
  let step := match eips with Some eips => setEIPs eips | None => pure tt end in
  let built := {| _chainParams := _chainParams this; _hardfork := _hardfork this;
                  _supportedHardforks := _supportedHardforks this;
                  _eips := default (_eips this) eips |} in
  (Forall (acceptable built) (default [] eips) ∧ step this = (Ok tt, built))
  ∨ (∃ eip e, eip ∈ default [] eips ∧ step this = (Err e, this)
       ∧ ((unknownEIP eip ∧ e = UnknownEIP eip)
          ∨ (tooOld built eip ∧ e = HardforkTooOld eip (_hardfork this)))).
Proof.
  destruct eips as [eips|]; simpl.
  - destruct (setEIPs_run this eips)
      as [[Hall Hrun] | (pre & eip & post & -> & Hpre & [[Hun Hrun] | [Hold Hrun]])].
    + left. split; [exact Hall | exact Hrun].
    + right. exists eip, (UnknownEIP eip). split_and!; [set_solver | done |].
      by left.
    + right. exists eip, (HardforkTooOld eip (_hardfork this)).
      split_and!; [set_solver | done |]. right. split; [exact Hold | done].
  - left. split; [constructor |]. by destruct this.
Qed.


Lemma new_Common_run chainParams opts :
  let this hardfork :=
    {| _chainParams := chainParams; _hardfork := hardfork;
       _supportedHardforks := default [] (CommonOpts.supportedHardforks opts);
       _eips := [] |} in
  let finish hardfork :=
    match match CommonOpts.eips opts with
          | Some eips => setEIPs eips
          | None => pure tt
          end (this hardfork) with
    | (Ok _, c) => Ok c
    | (Err e, _) => Err e
    end in
  new_Common chainParams opts
  = match requested opts with
    | None => finish DEFAULT_HARDFORK
    | Some h =>
        if negb (_isSupportedHardfork (this DEFAULT_HARDFORK) h)
        then Err (UnsupportedHardfork h)
        else if bool_decide (h ∈ HARDFORK_CHANGES.*1) then finish h
             else Err (UnknownHardfork h)
    end.
Proof.
  intros this finish. unfold new_Common, requested, andThen.
  destruct (CommonOpts.hardfork opts) as [h|]; simpl; [| reflexivity].
  destruct (decide (h = "")); simpl; [reflexivity |].
  rewrite setHardfork_run.
  destruct (_isSupportedHardfork _ h); simpl; [| reflexivity].
  by case_bool_decide.
Qed.

(** The constructor sets the requested hardfork before it looks at the
    EIPs, and installs the default hardfork without any check. It returns
    an instance exactly when the requested hardfork, if there is one, is
    supported and a name of [HARDFORK_CHANGES], and every EIP is acceptable
    on the hardfork of the new instance; a rejected hardfork is reported
    before any EIP, and a too old hardfork is reported under the name of
    the requested one. *)
Theorem new_Common_outcome chainParams opts :
  let built :=
    {| _chainParams := chainParams;
       _hardfork := default DEFAULT_HARDFORK (requested opts);
       _supportedHardforks := default [] (CommonOpts.supportedHardforks opts);
       _eips := default [] (CommonOpts.eips opts) |} in
  let hardfork_passes :=
    ∀ h, requested opts = Some h →
         _isSupportedHardfork built h = true ∧ h ∈ HARDFORK_CHANGES.*1 in
  (∀ c, new_Common chainParams opts = Ok c
        ↔ c = built ∧ hardfork_passes ∧ Forall (acceptable built) (_eips built))
  ∧ (∀ e, new_Common chainParams opts = Err e →
       (∃ h, requested opts = Some h
             ∧ ((_isSupportedHardfork built h = false ∧ e = UnsupportedHardfork h)
                ∨ ((h ∉ HARDFORK_CHANGES.*1) ∧ e = UnknownHardfork h)))
       ∨ (hardfork_passes
          ∧ ∃ eip, eip ∈ _eips built
                   ∧ ((unknownEIP eip ∧ e = UnknownEIP eip)
                      ∨ (tooOld built eip
                         ∧ e = HardforkTooOld eip (_hardfork built))))).
Proof.
  intros built hardfork_passes. rewrite new_Common_run. cbv zeta.
  assert (∀ hardfork, hardfork = _hardfork built →
      let this := {| _chainParams := chainParams; _hardfork := hardfork;
                     _supportedHardforks :=
                       default [] (CommonOpts.supportedHardforks opts);
                     _eips := [] |} in
      let finish :=
        match match CommonOpts.eips opts with
              | Some eips => setEIPs eips
              | None => pure tt
              end this with
        | (Ok _, c) => Ok c
        | (Err e, _) => Err e
        end in
      (Forall (acceptable built) (_eips built) ∧ finish = Ok built)
      ∨ (∃ eip e, eip ∈ _eips built ∧ finish = Err e
           ∧ ((unknownEIP eip ∧ e = UnknownEIP eip)
              ∨ (tooOld built eip ∧ e = HardforkTooOld eip (_hardfork built)))))
    as Hfinish.
  { intros hardfork -> this finish. subst finish.
    destruct (new_Common_eips this (CommonOpts.eips opts))
      as [[Hall Hrun] | (eip & e & Hin & Hrun & Hcase)].
    - left. rewrite Hrun. split; [exact Hall | reflexivity].
    - right. exists eip, e. rewrite Hrun. split_and!; [exact Hin | done | exact Hcase]. }
  assert (∀ eip, unknownEIP eip ∨ tooOld built eip →
                 eip ∈ _eips built → ¬ Forall (acceptable built) (_eips built))
    as Hrejected.
  { intros eip Hrej Hin Hall. rewrite Forall_forall in Hall.
    by apply (acceptable_not_rejected built eip (Hall eip Hin)). }
  destruct (requested opts) as [h|] eqn:Hreq.
  - change (_isSupportedHardfork _ h) with (_isSupportedHardfork built h).
    destruct (_isSupportedHardfork built h) eqn:Hsup; simpl.
    + case_bool_decide as Hin.
      * assert (hardfork_passes) as Hpass by (intros ? [= <-]; done).
        destruct (Hfinish h eq_refl) as [[Hall ->] | (eip & e & Hel & -> & Hcase)].
        -- split; [| discriminate]. intros c. split; [intros [= <-] | intros [-> _]]; done.
        -- split.
           ++ intros c. split; [discriminate |]. intros (_ & _ & Hall).
              destruct Hcase as [[Hun _] | [Hold _]];
                exfalso; eapply Hrejected; eauto.
           ++ intros e' [= <-]. right. split; [done |]. by exists eip.
      * split.
        -- intros c. split; [discriminate |]. intros (_ & Hpass & _).
           by destruct (Hpass h eq_refl).
        -- intros e [= <-]. left. exists h. split; [done |]. by right.
    + split.
      * intros c. split; [discriminate |]. intros (_ & Hpass & _).
        destruct (Hpass h eq_refl). congruence.
      * intros e [= <-]. left. exists h. split; [done |]. by left.
  - assert (hardfork_passes) as Hpass by (intros ? [=]).
    destruct (Hfinish DEFAULT_HARDFORK eq_refl)
      as [[Hall ->] | (eip & e & Hel & -> & Hcase)].
    + split; [| discriminate]. intros c. split; [intros [= <-] | intros [-> _]]; done.
    + split.
      * intros c. split; [discriminate |]. intros (_ & _ & Hall).
        destruct Hcase as [[Hun _] | [Hold _]];
          exfalso; eapply Hrejected; eauto.
      * intros e' [= <-]. right. split; [done |]. by exists eip.
Qed.

(** The default hardfork does not go through [setHardfork]: with a support
    list that lacks it and no hardfork requested, the constructor returns
    an instance on which every [param] query fails, and which rejects its
    own current hardfork in [setHardfork]. *)
Theorem new_Common_default_unchecked chainParams supported :
  supported ≠ [] → DEFAULT_HARDFORK ∉ supported →
  ∃ c, new_Common chainParams (CommonOpts.mk None (Some supported) None) = Ok c
       ∧ hardfork c = DEFAULT_HARDFORK
       ∧ (∀ topic name,
            param c topic name = Err (UnsupportedHardfork DEFAULT_HARDFORK))
       ∧ setHardfork (hardfork c) c
         = (Err (UnsupportedHardfork DEFAULT_HARDFORK), c).
Proof.
  intros Hne Hnotin.
  eexists. split; [reflexivity |].
  match goal with |- hardfork ?c = _ ∧ _ =>
    assert (_isSupportedHardfork c DEFAULT_HARDFORK = false) as Huns
  end.
  { unfold _isSupportedHardfork. simpl.
    destruct supported as [|s rest]; [done |]. simpl.
    by rewrite bool_decide_eq_false_2. }
  split_and!.
  - reflexivity.
  - intros topic name. unfold param. simpl.
    by apply paramByHardfork_unsupported.
  - rewrite setHardfork_run. unfold hardfork. simpl _hardfork.
    by rewrite Huns.
Qed.

Lemma hardfork_admitted_setHardfork c hardfork :
  hardfork_admitted c →
  hardfork_admitted (setHardfork hardfork c).2
  ∧ _chainParams (setHardfork hardfork c).2 = _chainParams c
  ∧ _supportedHardforks (setHardfork hardfork c).2 = _supportedHardforks c.
Proof.
  intros Hadm. rewrite setHardfork_run.
  destruct (_isSupportedHardfork c hardfork) eqn:Hsup; simpl; [| done].
  case_bool_decide as Hin; simpl; [| done].
  split_and!; [| done | done]. right. split; [exact Hsup | exact Hin].
Qed.

(** Whatever calls of [setHardfork], [setHardforkByBlockNumber] and
    [setEIPs] are made on a constructed instance, failing ones included,
    its hardfork is the default one or a supported name of
    [HARDFORK_CHANGES], and its chain and support list are those it was
    constructed with. *)
Theorem hardfork_admitted_invariant chainParams opts c calls :
  new_Common chainParams opts = Ok c →
  hardfork_admitted (after_calls c calls)
  ∧ _chainParams (after_calls c calls) = chainParams
  ∧ _supportedHardforks (after_calls c calls)
    = default [] (CommonOpts.supportedHardforks opts).
Proof.
  intros Hnew.
  assert (hardfork_admitted c ∧ _chainParams c = chainParams
          ∧ _supportedHardforks c = default [] (CommonOpts.supportedHardforks opts))
    as Hinit.
  { rewrite new_Common_run in Hnew. cbv zeta in Hnew.
    assert (∀ this c, hardfork_admitted this →
              match match CommonOpts.eips opts with
                    | Some eips => setEIPs eips
                    | None => pure tt
                    end this with
              | (Ok _, c) => Ok c
              | (Err e, _) => Err e
              end = Ok c →
              hardfork_admitted c ∧ _chainParams c = _chainParams this
              ∧ _supportedHardforks c = _supportedHardforks this) as Hfinish.
    { intros this c0 Hadm Hrun.
      destruct (new_Common_eips this (CommonOpts.eips opts))
        as [[_ Heq] | (eip & e & _ & Heq & _)];
        rewrite Heq in Hrun; [| discriminate].
      injection Hrun as <-. done. }
    destruct (requested opts) as [h|].
    - destruct (_isSupportedHardfork _ h) eqn:Hsup; simpl in Hnew; [| discriminate].
      case_bool_decide as Hin; [| discriminate].
      apply Hfinish in Hnew; [done |]. right. split; [exact Hsup | exact Hin].
    - apply Hfinish in Hnew; [done |]. by left. }
  clear Hnew. revert c Hinit. unfold after_calls.
  induction calls as [|cl rest IH]; intros c Hinit; [exact Hinit |].
  simpl. apply IH. destruct Hinit as (Hadm & Hchain & Hsup).
  destruct cl as [hardfork | blockNumber | eips]; simpl.
  - destruct (hardfork_admitted_setHardfork c hardfork Hadm) as (? & -> & ->).
    done.
  - rewrite setHardforkByBlockNumber_run. cbv zeta.
    destruct (hardfork_admitted_setHardfork c
                (setHardforkByBlockNumber_loop blockNumber (hardforks c) "chainstart")
                Hadm) as (Hadm' & Hchain' & Hsup').
    destruct (setHardfork _ c) as [[[]|e] c']; simpl in *; by rewrite Hchain', Hsup'.
  - destruct (setEIPs_run c eips)
      as [[_ ->] | (pre & eip & post & _ & _ & [[_ ->] | [_ ->]])]; done.
Qed.

(** *** Members that every object inherits *)

Lemma member_v_error member name e :
  member_v member name = Err e → e = JsTypeError.
Proof.
  destruct member as [params | s | key]; simpl.
  - by destruct (params !! name).
  - destruct (string_member runtime s name); simpl; congruence.
  - destruct (inherited_member runtime key name); simpl; congruence.
Qed.

Lemma paramByEIP_inherited_topic topic name eip t :
  inherits runtime topic = true → paramByEIP topic name eip ≠ Err (UnknownTopic t).
Proof.
  intros Hinh. unfold paramByEIP, EIP_member.
  destruct (EIPs !! eip) as [eipParams|]; [| discriminate].
  assert (∀ member, member_v member name ≫= (λ value, Ok (default VNull value))
                    ≠ Err (UnknownTopic t)) as Hmember.
  { intros member. destruct (member_v member name) as [value|e] eqn:Hv; simpl;
      [discriminate |]. apply member_v_error in Hv as ->. discriminate. }
  destruct (EIP.topics eipParams !! topic); [apply Hmember |].
  destruct (decide (topic = "minimumHardfork")); [apply Hmember |].
  rewrite Hinh. apply Hmember.
Qed.

Lemma hfEIPs_loop_inherited_topic topic name hfEIPs value t :
  inherits runtime topic = true →
  hfEIPs_loop topic name hfEIPs value ≠ Err (UnknownTopic t).
Proof.
  intros Hinh. revert value.
  induction hfEIPs as [|eip rest IH]; intros value; simpl; [discriminate |].
  pose proof (paramByEIP_inherited_topic topic name eip t Hinh) as Hne.
  destruct (paramByEIP topic name eip) as [valueEIP|e]; simpl; [apply IH | exact Hne].
Qed.

Lemma hfChanges_step_inherited_topic topic name params value t :
  inherits runtime topic = true →
  hfChanges_step topic name params value ≠ Err (UnknownTopic t).
Proof.
  intros Hinh. destruct params as [hfEIPs | topics]; simpl.
  - by apply hfEIPs_loop_inherited_topic.
  - assert (∀ member, member_v member name ≫= (λ found, Ok (default value found))
                      ≠ Err (UnknownTopic t)) as Hmember.
    { intros member. destruct (member_v member name) as [found|e] eqn:Hv; simpl;
        [discriminate |]. apply member_v_error in Hv as ->. discriminate. }
    unfold file_member. destruct (topics !! topic); [apply Hmember |].
    rewrite Hinh. apply Hmember.
Qed.

Lemma paramByHardfork_inherited_topic c topic name hardfork t :
  inherits runtime topic = true →
  paramByHardfork c topic name hardfork ≠ Err (UnknownTopic t).
Proof.
  intros Hinh. unfold paramByHardfork, _chooseHardfork.
  assert (∀ target changes value,
            hfChanges_loop topic name target changes value ≠ Err (UnknownTopic t))
    as Hloop.
  { intros target changes.
    induction changes as [|hfChanges rest IH]; intros value; simpl; [discriminate |].
    pose proof (hfChanges_step_inherited_topic topic name hfChanges.2 value t Hinh)
      as Hne.
    destruct (hfChanges_step topic name hfChanges.2 value) as [value'|e]; simpl;
      [| exact Hne].
    destruct (decide (hfChanges.1 = target)); [discriminate | apply IH]. }
  destruct (decide (hardfork = "")); [apply Hloop |].
  destruct (default true None && negb (_isSupportedHardfork c hardfork));
    [discriminate | apply Hloop].
Qed.

(** What the prototype chain does to the lookups. A topic that every
    object inherits (such as [toString]) is never reported as not defined,
    by [param] or by [paramByHardfork]. A name that every object inherits
    (such as [constructor]) is found in every topic that has no entry of
    its own for it, with the value [undefined]: [param] returns [undefined]
    as soon as the first active EIP has the topic, without consulting the
    other EIPs or the timeline, and [paramByHardfork] returns [undefined]
    when the file of the target hardfork has the topic, whatever the
    earlier files gave. *)
Theorem param_inherited_members c topic name :
  (inherits runtime topic = true →
   ∀ t, param c topic name ≠ Err (UnknownTopic t)
        ∧ ∀ hardfork, paramByHardfork c topic name hardfork ≠ Err (UnknownTopic t))
  ∧ (inherits runtime name = true →
     (∀ eip post eipParams params,
        _eips c = eip :: post → EIPs !! eip = Some eipParams →
        EIP.topics eipParams !! topic = Some params → params !! name = None →
        param c topic name = Ok VUndefined)
     ∧ (∀ hardfork target pre topics post params before,
          _chooseHardfork c (Some hardfork) None = Ok target →
          HARDFORK_CHANGES = pre ++ (target, ParameterInlining topics) :: post →
          target ∉ pre.*1 →
          hfChanges_loop topic name target pre VNull = Ok before →
          topics !! topic = Some params → params !! name = None →
          paramByHardfork c topic name hardfork = Ok VUndefined)).
Proof.
  split.
  - intros Hinh t. split; [| intros hardfork; by apply paramByHardfork_inherited_topic].
    unfold param. induction (_eips c) as [|eip rest IH]; simpl.
    + by apply paramByHardfork_inherited_topic.
    + pose proof (paramByEIP_inherited_topic topic name eip t Hinh) as Hne.
      destruct (paramByEIP topic name eip) as [value|e]; simpl; [| exact Hne].
      destruct (decide (value = VNull)); [exact IH | discriminate].
  - intros Hinh. split.
    + intros eip post eipParams params Heq Hlook Htopic Hname.
      unfold param. rewrite Heq. cbn [param_loop].
      rewrite (paramByEIP_own eip eipParams topic params name Hlook Htopic).
      by rewrite Hname, Hinh.
    + intros hardfork target pre topics post params before Hch Heq Hpre Hwalk
        Htopic Hname.
      rewrite (paramByHardfork_stops_at_target_aux c topic name hardfork target
                 pre (ParameterInlining topics) post Hch Heq Hpre), Hwalk.
      change (Ok before ≫= ?f) with (f before). cbv beta.
      rewrite (hfChanges_step_own topic name topics params before Htopic).
      by rewrite Hname, Hinh.
Qed.

End CommonClass.

(* ===================================================================== *)
(** ** The properties on the example datasets *)
(* ===================================================================== *)

Import Examples.

(** Closing tactics for goals about concrete tables. *)
Ltac by_computation := vm_compute; first [reflexivity | discriminate | congruence].
Ltac by_decision := refine (bool_decide_unpack _ _); vm_compute; exact I.
Ltac by_record :=
  apply record_of_unique_name; [by_decision | by_decision].
Ltac all_safe_blocks :=
  repeat (apply Forall_cons; split;
          [intros b Hb; simplify_eq/=; unfold MAX_SAFE_INTEGER; lia |]);
  apply Forall_nil; exact I.

(** *** C1 *)

(** The claim as stated fails: EIP 2 gives [gasPrices.sstoreSet] the value
    [500] and the timeline gives it [200], but with EIP 1, which has no
    [gasPrices] topic, listed first, [param] throws. *)
Lemma param_eip_precedence_counterexample :
  setEIPs eip_files [1; 2] (mainnet_byzantium []) = (Ok tt, mainnet_byzantium [1; 2])
  ∧ 2 ∈ _eips (mainnet_byzantium [1; 2])
  ∧ eip_defines eip_files 2 "gasPrices" "sstoreSet" (VNum 500)
  ∧ paramByHardfork hardfork_changes eip_files standard_runtime (mainnet_byzantium [1; 2])
      "gasPrices" "sstoreSet" "byzantium" = Ok (VNum 200)
  ∧ param hardfork_changes eip_files standard_runtime (mainnet_byzantium [1; 2]) "gasPrices" "sstoreSet"
    = Err (UnknownTopic "gasPrices").
Proof.
  split_and!; try by_computation.
  - by_decision.
  - unfold eip_defines. do 3 eexists. split_and!; by_computation.
Qed.

Lemma eip_3_passes : eip_passes eip_files "gasPrices" "sstoreSet" 3.
Proof.
  unfold eip_passes. do 2 eexists. split_and!; by_computation.
Defined.

Lemma param_eip_precedence_witness :
  param hardfork_changes eip_files standard_runtime (mainnet_byzantium [3; 2])
    "gasPrices" "sstoreSet"
  = Ok (VNum 500)
  ∧ param hardfork_changes eip_files standard_runtime (mainnet_byzantium [3])
      "gasPrices" "sstoreSet"
    = paramByHardfork hardfork_changes eip_files standard_runtime
        (mainnet_byzantium [3]) "gasPrices" "sstoreSet" "byzantium".
Proof.
  split.
  - apply (proj1 (param_eip_precedence hardfork_changes eip_files standard_runtime
                    (mainnet_byzantium [3; 2]) "gasPrices" "sstoreSet" [3]
                    ltac:(by_computation)
                    ltac:(repeat constructor; exact eip_3_passes)) 2 []).
    + reflexivity.
    + unfold eip_defines. do 3 eexists. split_and!; by_computation.
  - apply (proj2 (param_eip_precedence hardfork_changes eip_files standard_runtime
                    (mainnet_byzantium [3]) "gasPrices" "sstoreSet" [3]
                    ltac:(by_computation)
                    ltac:(repeat constructor; exact eip_3_passes))).
    reflexivity.
Defined.

(** *** C2 *)

Lemma forkHash_computed_witness :
  forkHash (mainnet_byzantium []) (Some "byzantium") = Ok (SStr "0xf112505f")
  ∧ forkHash (mainnet_byzantium []) (Some "chainstart") = Ok (SStr "0xfc64ec04").
Proof.
  split.
  - destruct (forkHash_computed (mainnet_byzantium []) "byzantium"
                (Hardfork.mk "byzantium" (Some 4370000) SUndefined)) as [Heq _].
    + discriminate.
    + by_record.
    + discriminate.
    + reflexivity.
    + all_safe_blocks.
    + rewrite Heq. by_computation.
  - destruct (forkHash_computed (mainnet_byzantium []) "chainstart"
                (Hardfork.mk "chainstart" (Some 0) SUndefined)) as [Heq _].
    + discriminate.
    + by_record.
    + discriminate.
    + reflexivity.
    + all_safe_blocks.
    + rewrite Heq. by_computation.
Defined.

(** *** C3 *)

Lemma activeHardforks_prefix_witness :
  activeHardforks (mainnet_byzantium []) (Some 1150000) None
  = [ Hardfork.mk "chainstart" (Some 0) SUndefined;
      Hardfork.mk "homestead" (Some 1150000) SUndefined ]
  ∧ activeHardforks (mainnet_byzantium []) (Some 1150000) None
    `prefix_of` scheduled mainnet_hardforks
  ∧ activeHardforks (common_of mainnet_hardforks "byzantium" ["byzantium"; "istanbul"] [])
      None (Some {| onlySupported := Some true; onlyActive := None |})
    = [ Hardfork.mk "byzantium" (Some 4370000) SUndefined ]
  ∧ activeHardforks (common_of [Hardfork.mk "istanbul" None SUndefined] "istanbul" [] [])
      None None = [].
Proof.
  pose proof (activeHardforks_prefix (mainnet_byzantium []) (Some 1150000) None)
    as Hmainnet.
  pose proof (activeHardforks_prefix
                (common_of mainnet_hardforks "byzantium" ["byzantium"; "istanbul"] [])
                None (Some {| onlySupported := Some true; onlyActive := None |}))
    as Hlisted.
  pose proof (activeHardforks_prefix
                (common_of [Hardfork.mk "istanbul" None SUndefined] "istanbul" [] [])
                None None) as Hnone.
  cbv zeta in Hmainnet, Hlisted, Hnone.
  destruct Hmainnet as (Heq & _ & Hprefix & _ & _ & _).
  destruct Hlisted as (_ & _ & _ & Hfilter & _ & _).
  destruct Hnone as (_ & _ & _ & _ & _ & Hempty).
  split_and!.
  - rewrite Heq. by_computation.
  - apply Hprefix. reflexivity.
  - rewrite Hfilter; [by_computation | reflexivity | discriminate].
  - apply Hempty. reflexivity.
Defined.

(** *** C4 *)

Lemma eip_3_acceptable eips' : acceptable eip_files (mainnet_byzantium eips') 3.
Proof. unfold acceptable. eexists. split; by_computation. Defined.

Lemma eip_2_acceptable eips' : acceptable eip_files (mainnet_byzantium eips') 2.
Proof. unfold acceptable. eexists. split; by_computation. Defined.

Lemma eip_1_acceptable eips' : acceptable eip_files (mainnet_byzantium eips') 1.
Proof. unfold acceptable. eexists. split; by_computation. Defined.

Lemma setEIPs_all_or_nothing_witness :
  setEIPs eip_files [3; 4; 7] (mainnet_byzantium [1])
  = (Err (HardforkTooOld 4 "byzantium"), mainnet_byzantium [1])
  ∧ setEIPs eip_files [3; 7; 4] (mainnet_byzantium [1])
    = (Err (UnknownEIP 7), mainnet_byzantium [1])
  ∧ (∃ e, setEIPs eip_files [3; 4; 7] (mainnet_byzantium [1]) = (Err e, mainnet_byzantium [1]))
  ∧ setEIPs eip_files [3; 2] (mainnet_byzantium [1]) = (Ok tt, mainnet_byzantium [3; 2]).
Proof.
  split_and!.
  - apply (proj1 (proj2 (setEIPs_all_or_nothing eip_files (mainnet_byzantium [1]) [3; 4; 7]))
             [3] 4 [7]).
    + reflexivity.
    + repeat constructor. apply eip_3_acceptable.
    + unfold tooOld. eexists. split; by_computation.
  - apply (proj1 (proj2 (setEIPs_all_or_nothing eip_files (mainnet_byzantium [1]) [3; 7; 4]))
             [3] 7 [4]).
    + reflexivity.
    + repeat constructor. apply eip_3_acceptable.
    + by_computation.
  - apply (proj1 (setEIPs_all_or_nothing eip_files (mainnet_byzantium [1]) [3; 4; 7])).
    apply Exists_cons_tl, Exists_cons_hd. right.
    unfold tooOld. eexists. split; by_computation.
  - rewrite (proj1 (proj2 (proj2
               (setEIPs_all_or_nothing eip_files (mainnet_byzantium [1]) [3; 2])))).
    + reflexivity.
    + repeat constructor; [apply eip_3_acceptable | apply eip_2_acceptable].
Defined.

(** *** C5 *)

Lemma forkHash_null_block_or_stored_witness :
  forkHash (mainnet_byzantium []) (Some "istanbul") = Err NoForkHash
  ∧ forkHash (common_of mainnet_hardforks_hashed "byzantium" [] []) (Some "homestead")
    = Ok (SStr "0x97c2c34c").
Proof.
  split.
  - apply (forkHash_null_block_or_stored (mainnet_byzantium []) "istanbul"
             (Hardfork.mk "istanbul" None SUndefined)).
    + discriminate.
    + by_record.
    + reflexivity.
  - apply (forkHash_null_block_or_stored
             (common_of mainnet_hardforks_hashed "byzantium" [] []) "homestead"
             (Hardfork.mk "homestead" (Some 1150000) (SStr "0x97c2c34c"))).
    + discriminate.
    + by_record.
    + discriminate.
    + discriminate.
Defined.

(** *** C6 *)

Lemma nextHardforkBlock_smallest_above_witness :
  nextHardforkBlock (mainnet_byzantium []) (Some "homestead") = Ok (Some 4370000)
  ∧ (∀ hf, hf ∈ mainnet_hardforks → above 1150000 hf →
           ∃ b, Hardfork.block hf = Some b ∧ 4370000 ≤ b)
  ∧ nextHardforkBlock (mainnet_byzantium []) (Some "byzantium") = Ok None
  ∧ nextHardforkBlock (mainnet_byzantium []) (Some "istanbul") = Ok (Some 1150000).
Proof.
  destruct (proj1 nextHardforkBlock_smallest_above (mainnet_byzantium []) "homestead"
              (Hardfork.mk "homestead" (Some 1150000) SUndefined))
    as (next & Heq & Hnext); [discriminate | by_record | by_decision |].
  destruct (proj1 nextHardforkBlock_smallest_above (mainnet_byzantium []) "byzantium"
              (Hardfork.mk "byzantium" (Some 4370000) SUndefined))
    as (last & Heq' & _); [discriminate | by_record | by_decision |].
  destruct (proj1 nextHardforkBlock_smallest_above (mainnet_byzantium []) "istanbul"
              (Hardfork.mk "istanbul" None SUndefined))
    as (unscheduled & Heq'' & _); [discriminate | by_record | by_decision |].
  assert (next = Some 4370000) as -> by (vm_compute in Heq; congruence).
  assert (last = None) as -> by (vm_compute in Heq'; congruence).
  assert (unscheduled = Some 1150000) as -> by (vm_compute in Heq''; congruence).
  split_and!; [exact Heq | | exact Heq' | exact Heq''].
  destruct Hnext as [_ Hleast]. exact Hleast.
Defined.

(** *** C7 *)

(** C7. The claim is what the guard of the walk is written for, but the
    guard reads [hfChanges[1][topic]] through the prototype chain. The file
    of [chainstart] inlines its parameters and has no topic [toString],
    and the call returns null where the claim has it fail with 'Topic
    toString not defined'. The files of [chainstart] and [homestead] have
    the topic [gasConfig] and no entry [constructor] in it, and the call
    returns [undefined] where the claim has them contribute no override,
    which leaves null. *)
Theorem paramByHardfork_prototype_chain :
  (∃ topics, hardfork_changes !! 0%nat = Some ("chainstart", ParameterInlining topics)
             ∧ topics !! "toString" = None)
  ∧ paramByHardfork hardfork_changes eip_files standard_runtime (mainnet_byzantium [])
      "toString" "minGasLimit" "chainstart" = Ok VNull
  ∧ (∀ hfName params,
       (hfName, params) ∈ take 2 hardfork_changes →
       ∃ topics gasConfig, params = ParameterInlining topics
                           ∧ topics !! "gasConfig" = Some gasConfig
                           ∧ gasConfig !! "constructor" = None)
  ∧ paramByHardfork hardfork_changes eip_files standard_runtime (mainnet_byzantium [])
      "gasConfig" "constructor" "homestead" = Ok VUndefined.
Proof.
  split_and!.
  - eexists. split; [reflexivity | by_computation].
  - by_computation.
  - intros hfName params Hin.
    apply elem_of_cons in Hin as [[= -> ->] | Hin];
      [do 2 eexists; split_and!; [reflexivity | by_computation | by_computation] |].
    apply elem_of_cons in Hin as [[= -> ->] | Hin];
      [do 2 eexists; split_and!; [reflexivity | by_computation | by_computation] |].
    by apply elem_of_nil in Hin.
  - by_computation.
Qed.

(** *** C8 *)

(** The claim as stated fails when the hash computed for a hardfork without
    stored hash is stored by another record: [chainstart] and [homestead]
    are both at block 0, only [homestead] stores the hash, and the lookup of
    the hash computed for [chainstart] returns the record of [homestead]. *)
Lemma forkHash_hardforkForForkHash_counterexample :
  forkHash (common_of genesis_forks "byzantium" [] []) (Some "chainstart")
  = Ok (SStr "0xfc64ec04")
  ∧ filter (λ hf, Hardfork.forkHash hf = SStr "0xfc64ec04") genesis_forks
    = [ Hardfork.mk "homestead" (Some 0) (SStr "0xfc64ec04") ]
  ∧ hardforkForForkHash (common_of genesis_forks "byzantium" [] []) (SStr "0xfc64ec04")
    = Some (Hardfork.mk "homestead" (Some 0) (SStr "0xfc64ec04"))
  ∧ _getHardfork (common_of genesis_forks "byzantium" [] []) "chainstart"
    = Ok (Hardfork.mk "chainstart" (Some 0) SUndefined).
Proof.
  split_and!; by_computation.
Qed.

Lemma forkHash_hardforkForForkHash_witness :
  forkHash (common_of mainnet_hardforks_hashed "byzantium" [] []) (Some "homestead")
  = Ok (SStr "0x97c2c34c")
  ∧ hardforkForForkHash (common_of mainnet_hardforks_hashed "byzantium" [] [])
      (SStr "0x97c2c34c")
    = Some (Hardfork.mk "homestead" (Some 1150000) (SStr "0x97c2c34c")).
Proof.
  destruct (forkHash_hardforkForForkHash
              (common_of mainnet_hardforks_hashed "byzantium" [] []) "homestead"
              (Hardfork.mk "homestead" (Some 1150000) (SStr "0x97c2c34c")))
    as (h & Hhash & Hrecord).
  - discriminate.
  - by_record.
  - discriminate.
  - discriminate.
  - by_computation.
  - assert (h = SStr "0x97c2c34c") as -> by (vm_compute in Hhash; congruence).
    by split.
Defined.

(** *** C9 *)

(** The claim as stated fails: with both names absent the positions are
    [-1] and [-1], and [-1 >= -1] is true. *)
Lemma hardforkGteHardfork_both_absent_counterexample :
  ("petersburg" ∉ names mainnet_hardforks)
  ∧ ("constantinople" ∉ names mainnet_hardforks)
  ∧ hardforkGteHardfork (mainnet_byzantium []) (Some "petersburg") "constantinople" None
    = Ok true
  ∧ gteHardfork (common_of mainnet_hardforks "petersburg" [] []) "constantinople" None
    = Ok true.
Proof.
  split_and!; [by_decision | by_decision | reflexivity | reflexivity].
Qed.

Lemma hardforkGteHardfork_both_absent_witness :
  positions "petersburg" "constantinople" mainnet_hardforks = (-1, -1)
  ∧ hardforkGteHardfork (mainnet_byzantium []) (Some "petersburg") "constantinople" None
    = Ok true
  ∧ gteHardfork (common_of mainnet_hardforks "petersburg" [] []) "constantinople"
      (Some {| onlySupported := None; onlyActive := Some true |})
    = Ok true.
Proof.
  destruct (hardforkGteHardfork_both_absent (mainnet_byzantium [])
              (Some "petersburg") "constantinople" None "petersburg")
    as (Hpos & Hgte & _); [reflexivity | by_decision | by_decision |].
  destruct (hardforkGteHardfork_both_absent
              (common_of mainnet_hardforks "petersburg" [] [])
              None "constantinople"
              (Some {| onlySupported := None; onlyActive := Some true |}) "petersburg")
    as (_ & _ & Halias); [reflexivity | by_decision | by_decision |].
  split_and!; [exact Hpos | exact Hgte | by apply Halias].
Defined.

(** *** C10 *)

(** The claim as stated fails: EIP 1 is active and has no [gasPrices]
    topic, but EIP 2, listed before it, gives the value and [param] returns
    it without reaching EIP 1. *)
Lemma param_topic_not_defined_counterexample :
  setEIPs eip_files [2; 1] (mainnet_byzantium []) = (Ok tt, mainnet_byzantium [2; 1])
  ∧ 1 ∈ _eips (mainnet_byzantium [2; 1])
  ∧ eip_lacks_topic eip_files 1 "gasPrices"
  ∧ param hardfork_changes eip_files standard_runtime (mainnet_byzantium [2; 1]) "gasPrices" "sstoreSet"
    = Ok (VNum 500).
Proof.
  split_and!; try by_computation.
  - by_decision.
  - unfold eip_lacks_topic. eexists. split; by_computation.
Qed.

Lemma param_topic_not_defined_witness :
  param hardfork_changes eip_files standard_runtime (mainnet_byzantium [3; 1; 2])
    "gasPrices" "sstoreSet"
  = Err (UnknownTopic "gasPrices")
  ∧ param hardfork_changes eip_files standard_runtime (mainnet_byzantium [3])
      "gasPrices" "sstoreSet"
    = Ok (VNum 200).
Proof.
  pose proof (param_topic_not_defined hardfork_changes eip_files standard_runtime
                (mainnet_byzantium [3; 1; 2]) "gasPrices" "sstoreSet")
    as (Hthrow & _ & _); [discriminate | by_computation | by_computation |].
  pose proof (param_topic_not_defined hardfork_changes eip_files standard_runtime
                (mainnet_byzantium [3]) "gasPrices" "sstoreSet")
    as (_ & Htimeline & _); [discriminate | by_computation | by_computation |].
  split.
  - apply (Hthrow [3] 1 [2]).
    + reflexivity.
    + repeat constructor. exact eip_3_passes.
    + unfold eip_lacks_topic. eexists. split; by_computation.
  - rewrite Htimeline; [reflexivity |].
    repeat constructor. exact eip_3_passes.
Defined.

(* ===================================================================== *)
(** ** Further properties on the example datasets *)
(* ===================================================================== *)

(** *** Setting the hardfork *)

Lemma setHardfork_all_or_nothing_witness :
  setHardfork hardfork_changes "homestead"
    (common_of mainnet_hardforks "byzantium" ["byzantium"] [3])
  = (Err (UnsupportedHardfork "homestead"),
     common_of mainnet_hardforks "byzantium" ["byzantium"] [3])
  ∧ setHardfork hardfork_changes "petersburg" (mainnet_byzantium [3])
    = (Err (UnknownHardfork "petersburg"), mainnet_byzantium [3])
  ∧ ∃ c', setHardfork hardfork_changes "chainstart" (mainnet_byzantium [3])
          = (Ok tt, c')
          ∧ _hardfork c' = "chainstart" ∧ _eips c' = [3].
Proof.
  split_and!.
  - apply (proj1 (setHardfork_all_or_nothing hardfork_changes
                    (common_of mainnet_hardforks "byzantium" ["byzantium"] [3])
                    "homestead")).
    reflexivity.
  - apply (proj1 (proj2 (setHardfork_all_or_nothing hardfork_changes
                           (mainnet_byzantium [3]) "petersburg"))).
    + reflexivity.
    + by_decision.
  - destruct (proj2 (proj2 (setHardfork_all_or_nothing hardfork_changes
                              (mainnet_byzantium [3]) "chainstart")))
      as (c' & Hset & Hhf & Heips & _).
    + reflexivity.
    + by_decision.
    + exists c'. by split_and!.
Defined.

Lemma setHardfork_not_in_chain_witness :
  hardforkBlock (common_of unordered_hardforks "istanbul" [] []) None
  = Err (UnknownHardfork "istanbul")
  ∧ forkHash (common_of unordered_hardforks "istanbul" [] []) None
    = Err (UnknownHardfork "istanbul").
Proof.
  destruct (setHardfork_not_in_chain hardfork_changes
              (common_of unordered_hardforks "byzantium" [] [])
              (common_of unordered_hardforks "istanbul" [] []) "istanbul")
    as (_ & Hblock & _ & Hhash).
  - reflexivity.
  - by_decision.
  - by split.
Defined.

Lemma setHardforkByBlockNumber_last_applied_witness :
  last_applied 4370000 mainnet_hardforks "chainstart" "byzantium"
  ∧ _hardfork (setHardforkByBlockNumber hardfork_changes 4370000
                 (common_of mainnet_hardforks "chainstart" [] [])).2
    = "byzantium".
Proof.
  destruct (setHardforkByBlockNumber_last_applied hardfork_changes
              (common_of mainnet_hardforks "chainstart" [] []) 4370000
              (Ok "byzantium") (common_of mainnet_hardforks "byzantium" [] []))
    as [Hok _]; [reflexivity |].
  destruct (Hok "byzantium" eq_refl) as (Hlast & _ & _ & _).
  split; [exact Hlast | reflexivity].
Defined.

Lemma setHardforkByBlockNumber_activeHardfork_witness :
  activeHardfork (common_of mainnet_hardforks "chainstart" [] []) (Some 2000000) None
  = Ok "homestead".
Proof.
  destruct (setHardforkByBlockNumber_activeHardfork hardfork_changes
              (common_of mainnet_hardforks "chainstart" [] []) 2000000
              "homestead" (common_of mainnet_hardforks "homestead" [] []))
    as [Hactive | [_ Hfalse]].
  - by_decision.
  - reflexivity.
  - exact Hactive.
  - discriminate.
Defined.

(** *** Active hardforks *)

Lemma activeHardfork_last_witness :
  (∃ hf, last (activeHardforks (mainnet_byzantium []) (Some 2000000) None) = Some hf
         ∧ Hardfork.name hf = "homestead"
         ∧ ∃ b, Hardfork.block hf = Some b ∧ b ≤ 2000000)
  ∧ activeHardfork (common_of (drop 1 mainnet_hardforks) "byzantium" [] [])
      (Some 5) None = Err NotFound.
Proof.
  split.
  - destruct (proj2 (proj2 (activeHardfork_last (mainnet_byzantium [])
                              (Some 2000000) None)) "homestead")
      as (hf & Hlast & Hname & _ & _ & b & Hb & Hle); [reflexivity |].
    exists hf. split_and!; [done | done |]. exists b. split; [done | by apply Hle].
  - apply (proj1 (activeHardfork_last
                    (common_of (drop 1 mainnet_hardforks) "byzantium" [] [])
                    (Some 5) None)).
    reflexivity.
Defined.

Lemma activeHardforks_monotone_witness :
  activeHardforks (mainnet_byzantium []) (Some 1150000) None
  `prefix_of` activeHardforks (mainnet_byzantium []) (Some 4370000) None.
Proof.
  apply (activeHardforks_monotone (mainnet_byzantium []) 1150000 4370000 None).
  lia.
Defined.

Lemma paramByBlock_activeHardfork_witness :
  paramByBlock hardfork_changes eip_files standard_runtime (mainnet_byzantium [])
    "gasPrices" "sstoreSet" 2000000
  = Completes (Ok (VNum 200))
  ∧ paramByBlock hardfork_changes eip_files standard_runtime
      (common_of (drop 1 mainnet_hardforks) "byzantium" [] [])
      "gasPrices" "sstoreSet" 5
    = TypeError
  ∧ paramByBlock hardfork_changes eip_files standard_runtime
      (common_of mainnet_hardforks "byzantium" ["byzantium"] [])
      "gasPrices" "sstoreSet" 2000000
    = Completes (Err (UnsupportedHardfork "homestead")).
Proof.
  split_and!.
  - rewrite (proj1 (paramByBlock_activeHardfork hardfork_changes eip_files standard_runtime
                      (mainnet_byzantium []) "gasPrices" "sstoreSet" 2000000)
               "homestead"); reflexivity.
  - apply (proj1 (proj2 (paramByBlock_activeHardfork hardfork_changes eip_files standard_runtime
                           (common_of (drop 1 mainnet_hardforks) "byzantium" [] [])
                           "gasPrices" "sstoreSet" 5))).
    reflexivity.
  - apply (proj2 (proj2 (paramByBlock_activeHardfork hardfork_changes eip_files standard_runtime
                           (common_of mainnet_hardforks "byzantium" ["byzantium"] [])
                           "gasPrices" "sstoreSet" 2000000))).
    + reflexivity.
    + discriminate.
    + reflexivity.
Defined.

(** *** Blocks and activity *)

Lemma hardforkBlock_lookup_witness :
  hardforkBlock (mainnet_byzantium []) (Some "petersburg")
  = Err (UnknownHardfork "petersburg")
  ∧ hardforkBlock (mainnet_byzantium []) (Some "") = Ok (Some 4370000).
Proof.
  destruct (hardforkBlock_lookup (mainnet_byzantium []) "petersburg")
    as (Hunknown & _ & _ & Hempty); [discriminate |].
  split.
  - apply Hunknown. by_decision.
  - rewrite Hempty. reflexivity.
Defined.

Lemma hardforkIsActiveOnBlock_monotone_witness :
  hardforkIsActiveOnBlock (mainnet_byzantium []) (Some "homestead") 4370000 None
  = Ok true
  ∧ activeOnBlock (mainnet_byzantium []) 5000000 None = Ok true.
Proof.
  split.
  - apply (proj1 (hardforkIsActiveOnBlock_monotone (mainnet_byzantium [])
                    (Some "homestead") 1150000 4370000 None ltac:(lia))).
    reflexivity.
  - apply (proj2 (hardforkIsActiveOnBlock_monotone (mainnet_byzantium [])
                    None 4370000 5000000 None ltac:(lia))).
    reflexivity.
Defined.

Lemma hardforkIsActiveOnBlock_activeHardforks_witness :
  hardforkIsActiveOnBlock (mainnet_byzantium []) (Some "homestead") 2000000 None
  = Ok true
  ∧ Hardfork.mk "homestead" (Some 1150000) SUndefined
    ∈ activeHardforks (mainnet_byzantium []) (Some 2000000) None.
Proof.
  destruct (hardforkIsActiveOnBlock_activeHardforks (mainnet_byzantium [])
              "homestead" (Hardfork.mk "homestead" (Some 1150000) SUndefined)
              2000000) as [Hsound Hcomplete].
  - discriminate.
  - by_record.
  - split.
    + apply Hsound. by_decision.
    + apply Hcomplete; [by_decision | reflexivity].
Defined.

Lemma hardforkIsActiveOnChain_activeHardforks_witness :
  hardforkIsActiveOnChain (mainnet_byzantium []) (Some "homestead") None = Ok true
  ∧ ∃ r, forkHash (mainnet_byzantium []) (Some "homestead") = Ok r.
Proof.
  destruct (hardforkIsActiveOnChain_activeHardforks (mainnet_byzantium [])
              "homestead") as [Hactive Hhash]; [discriminate |].
  assert (hardforkIsActiveOnChain (mainnet_byzantium []) (Some "homestead") None
          = Ok true) as Hon.
  { apply Hactive. by_decision. }
  split; [exact Hon |].
  apply Hhash; [by_decision | exact Hon].
Defined.

(** *** Comparing hardforks *)

Lemma hardforkGteHardfork_preorder_witness :
  hardforkGteHardfork (mainnet_byzantium []) (Some "byzantium") "chainstart" None
  = Ok true
  ∧ hardforkGteHardfork (mainnet_byzantium []) (Some "homestead") "homestead" None
    = Ok true.
Proof.
  destruct (hardforkGteHardfork_preorder (mainnet_byzantium []) None
              "byzantium" "homestead" "chainstart")
    as (_ & _ & Htrans & _); [reflexivity | reflexivity | reflexivity |].
  destruct (hardforkGteHardfork_preorder (mainnet_byzantium []) None
              "homestead" "homestead" "homestead")
    as (Hrefl & _ & _ & _); [reflexivity | reflexivity | reflexivity |].
  split; [apply Htrans; reflexivity | exact Hrefl].
Defined.

Lemma hardforkGteHardfork_default_support_witness :
  hardforkGteHardfork (common_of mainnet_hardforks "byzantium" ["byzantium"] [])
    (Some "homestead") "chainstart" None
  = Err (UnsupportedHardfork "homestead")
  ∧ hardforkGteHardfork (common_of mainnet_hardforks "byzantium" ["byzantium"] [])
      (Some "homestead") "chainstart"
      (Some {| onlySupported := Some false; onlyActive := None |})
    = Ok true.
Proof.
  destruct (hardforkGteHardfork_default_support
              (common_of mainnet_hardforks "byzantium" ["byzantium"] [])
              "homestead" "chainstart" 0)
    as (Hdefault & Hexplicit & _ & _); [discriminate | reflexivity |].
  split; [exact Hdefault |]. rewrite Hexplicit. reflexivity.
Defined.

Lemma setEIPs_absent_names_witness :
  setEIPs eip_files [4] (common_of unordered_hardforks "chainstart" [] [])
  = (Ok tt, common_of unordered_hardforks "chainstart" [] [4])
  ∧ setEIPs eip_files [3] (common_of mainnet_hardforks "petersburg" [] [])
    = (Err (HardforkTooOld 3 "petersburg"),
       common_of mainnet_hardforks "petersburg" [] []).
Proof.
  split.
  - edestruct (setEIPs_absent_names eip_files
                 (common_of unordered_hardforks "chainstart" [] []) 4)
      as [Habsent _]; [reflexivity |].
    rewrite Habsent; [reflexivity | by_decision].
  - edestruct (setEIPs_absent_names eip_files
                 (common_of mainnet_hardforks "petersburg" [] []) 3)
      as [_ Hcurrent]; [reflexivity |].
    apply Hcurrent; by_decision.
Defined.

Lemma isNextHardforkBlock_isHardforkBlock_witness :
  1150000 < 4370000
  ∧ isHardforkBlock (mainnet_byzantium []) 4370000 (Some "homestead") = Ok false
  ∧ ∃ hf, hf ∈ mainnet_hardforks ∧ Hardfork.block hf = Some 4370000.
Proof.
  destruct (isNextHardforkBlock_isHardforkBlock (mainnet_byzantium []) "homestead"
              (Hardfork.mk "homestead" (Some 1150000) SUndefined) 1150000 4370000)
    as (Hlt & Hown & hf & Hin & Hblock & _).
  - discriminate.
  - by_record.
  - reflexivity.
  - lia.
  - reflexivity.
  - split_and!; [exact Hlt | exact Hown |]. by exists hf.
Defined.

(** *** Parameters *)

Lemma paramByHardfork_stops_at_target_witness :
  paramByHardfork hardfork_changes eip_files standard_runtime (mainnet_byzantium [])
    "gasPrices" "sstoreSet" "byzantium"
  = Ok (VNum 200).
Proof.
  rewrite (paramByHardfork_stops_at_target hardfork_changes eip_files standard_runtime
             (mainnet_byzantium []) "gasPrices" "sstoreSet" "byzantium" "byzantium"
             (take 2 hardfork_changes) (EIPReferencing [100])
             (drop 3 hardfork_changes)
             ltac:(reflexivity) ltac:(reflexivity) ltac:(by_decision)).
  reflexivity.
Defined.

Lemma paramByHardfork_unknown_name_witness :
  paramByHardfork hardfork_changes eip_files standard_runtime (mainnet_byzantium [])
    "gasConfig" "minGasLimit" "petersburg"
  = paramByHardfork hardfork_changes eip_files standard_runtime (mainnet_byzantium [])
      "gasConfig" "minGasLimit" "istanbul".
Proof.
  apply (paramByHardfork_unknown_name hardfork_changes eip_files standard_runtime
           (mainnet_byzantium []) "gasConfig" "minGasLimit" "petersburg" "petersburg"
           (take 3 hardfork_changes) "istanbul"
           (ParameterInlining (list_to_map [ ("gasConfig", ∅) ]))).
  - reflexivity.
  - reflexivity.
  - reflexivity.
  - by_decision.
  - by_decision.
Defined.

Lemma paramByHardfork_latest_change_witness :
  paramByHardfork hardfork_changes eip_files standard_runtime (mainnet_byzantium [])
    "gasPrices" "sstoreSet" "byzantium"
  = Ok (VNum 200).
Proof.
  apply (paramByHardfork_latest_change hardfork_changes eip_files standard_runtime
           (mainnet_byzantium []) "gasPrices" "sstoreSet" "byzantium" "byzantium"
           [] "chainstart"
           (list_to_map
              [ ("gasConfig", list_to_map [ ("minGasLimit", entry 5000) ]);
                ("gasPrices", list_to_map [ ("sstoreSet", entry 200) ]) ])
           (take 2 (drop 1 hardfork_changes)) (drop 3 hardfork_changes)
           (list_to_map [ ("sstoreSet", entry 200) ]) (entry 200) VNull).
  - reflexivity.
  - reflexivity.
  - by_decision.
  - by_decision.
  - reflexivity.
  - by_computation.
  - by_computation.
  - repeat constructor; intros value; by_computation.
Defined.

Lemma param_errors_after_setEIPs_witness :
  param hardfork_changes eip_files standard_runtime (mainnet_byzantium [1])
    "gasPrices" "sstoreSet"
  = Err (UnknownTopic "gasPrices")
  ∧ param hardfork_changes eip_files standard_runtime
      (common_of mainnet_hardforks "byzantium" ["homestead"] [3])
      "__proto__" "__proto__"
    = Err JsTypeError
  ∧ paramByHardfork hardfork_changes eip_files standard_runtime
      (common_of mainnet_hardforks "byzantium" ["homestead"] [3])
      "__proto__" "__proto__" "byzantium"
    = Err (UnsupportedHardfork "byzantium")
  ∧ ∃ eip eipParams, eip ∈ [3] ∧ eip_files !! eip = Some eipParams
                     ∧ EIP.topics eipParams !! "__proto__" = None.
Proof.
  destruct (param_errors_after_setEIPs hardfork_changes eip_files standard_runtime
              (mainnet_byzantium []) [1] (mainnet_byzantium [1])
              "gasPrices" "sstoreSet" (UnknownTopic "gasPrices"))
    as [Htopic | [[Htype _] | Htimeline]];
    [reflexivity | reflexivity | | discriminate Htype
     | vm_compute in Htimeline; discriminate].
  destruct (param_errors_after_setEIPs hardfork_changes eip_files standard_runtime
              (common_of mainnet_hardforks "byzantium" ["homestead"] [])
              [3] (common_of mainnet_hardforks "byzantium" ["homestead"] [3])
              "__proto__" "__proto__" JsTypeError)
    as [Htopic' | [[_ Hforeign] | Htimeline]];
    [reflexivity | reflexivity | discriminate Htopic' |
     | vm_compute in Htimeline; discriminate].
  split_and!; [reflexivity | reflexivity | reflexivity | exact Hforeign].
Defined.

Lemma param_unsupported_current_witness :
  param hardfork_changes eip_files standard_runtime
    (common_of mainnet_hardforks "byzantium" ["homestead"] [3])
    "gasPrices" "sstoreSet"
  = Err (UnsupportedHardfork "byzantium")
  ∧ param hardfork_changes eip_files standard_runtime
      (common_of mainnet_hardforks "byzantium" ["homestead"] [3; 2])
      "gasPrices" "sstoreSet"
    = Ok (VNum 500).
Proof.
  split.
  - apply (proj1 (param_unsupported_current hardfork_changes eip_files standard_runtime
                    (common_of mainnet_hardforks "byzantium" ["homestead"] [3])
                    "gasPrices" "sstoreSet" ltac:(discriminate) ltac:(reflexivity)
                    ltac:(by_computation))).
    repeat constructor. exact eip_3_passes.
  - apply (proj2 (param_unsupported_current hardfork_changes eip_files standard_runtime
                    (common_of mainnet_hardforks "byzantium" ["homestead"] [3; 2])
                    "gasPrices" "sstoreSet" ltac:(discriminate) ltac:(reflexivity)
                    ltac:(by_computation))
             [3] 2 []).
    + reflexivity.
    + repeat constructor. exact eip_3_passes.
    + unfold eip_defines. do 3 eexists. split_and!; by_computation.
Defined.

Lemma paramByHardfork_inlining_record_witness :
  paramByHardfork hardfork_changes eip_files standard_runtime
    (common_of mainnet_hardforks "istanbul" [] [])
    "gasPrices" "modexp" "istanbul" = Err (UnknownTopic "gasPrices")
  ∧ paramByHardfork hardfork_changes eip_files standard_runtime (mainnet_byzantium [])
      "gasConfig" "minGasLimit" "homestead" = Ok (VNum 5000).
Proof.
  split.
  - apply (proj1 (paramByHardfork_inlining_record hardfork_changes eip_files
                    standard_runtime
                    (common_of mainnet_hardforks "istanbul" [] [])
                    "gasPrices" "modexp" "istanbul" "istanbul"
                    (take 3 hardfork_changes) "istanbul"
                    (list_to_map [ ("gasConfig", ∅) ]) [] (VNum 20)
                    ltac:(reflexivity) ltac:(reflexivity) ltac:(by_decision)
                    ltac:(by_computation))); by_computation.
  - rewrite (proj2 (proj2 (paramByHardfork_inlining_record hardfork_changes eip_files
                    standard_runtime
                    (mainnet_byzantium [])
                    "gasConfig" "minGasLimit" "homestead" "homestead"
                    (take 1 hardfork_changes) "homestead"
                    (list_to_map
                       [ ("gasConfig", ∅);
                         ("gasPrices", list_to_map [ ("delegatecall", entry 40) ]) ])
                    (drop 2 hardfork_changes) (VNum 5000)
                    ltac:(reflexivity) ltac:(reflexivity) ltac:(by_decision)
                    ltac:(by_computation)) ∅ ltac:(by_computation) ltac:(by_computation)
                    ltac:(by_computation))).
    reflexivity.
Defined.

Lemma param_inherited_members_witness :
  param hardfork_changes eip_files standard_runtime (mainnet_byzantium [1])
    "toString" "minGasLimit"
  ≠ Err (UnknownTopic "toString")
  ∧ param hardfork_changes eip_files standard_runtime (mainnet_byzantium [3; 2])
      "gasPrices" "constructor"
    = Ok VUndefined
  ∧ paramByHardfork hardfork_changes eip_files standard_runtime (mainnet_byzantium [])
      "gasPrices" "constructor" "homestead"
    = Ok VUndefined.
Proof.
  split_and!.
  - apply (proj1 (param_inherited_members hardfork_changes eip_files standard_runtime
                    (mainnet_byzantium [1]) "toString" "minGasLimit")
             ltac:(by_computation) "toString").
  - eapply (proj1 (proj2 (param_inherited_members hardfork_changes eip_files
                            standard_runtime (mainnet_byzantium [3; 2])
                            "gasPrices" "constructor") ltac:(by_computation))
              3 [2]); [reflexivity | reflexivity | by_computation | by_computation].
  - eapply (proj2 (proj2 (param_inherited_members hardfork_changes eip_files
                            standard_runtime (mainnet_byzantium [])
                            "gasPrices" "constructor") ltac:(by_computation))
              "homestead" "homestead" (take 1 hardfork_changes) _
              (drop 2 hardfork_changes) _ (VUndefined));
      [reflexivity | reflexivity | by_decision | by_computation | by_computation
      | by_computation].
Defined.

Lemma nextHardforkBlock_first_in_order_witness :
  nextHardforkBlock (common_of unordered_hardforks "byzantium" [] []) (Some "chainstart")
  = Ok (Some 2000)
  ∧ Hardfork.mk "byzantium" (Some 1000) SUndefined
    ∈ hardforks (common_of unordered_hardforks "byzantium" [] []).
Proof.
  destruct (nextHardforkBlock_first_in_order
              (common_of unordered_hardforks "byzantium" [] []) "chainstart"
              (Hardfork.mk "chainstart" (Some 0) SUndefined))
    as (next & Heq & _); [discriminate | by_record |].
  assert (next = Some 2000) as -> by (vm_compute in Heq; congruence).
  split; [exact Heq | by_decision].
Defined.

(** *** Fork hashes *)

Lemma hardforkForForkHash_unique_witness :
  hardforkForForkHash (common_of mainnet_hardforks_hashed "byzantium" [] [])
    (SStr "0x97c2c34c")
  = Some (Hardfork.mk "homestead" (Some 1150000) (SStr "0x97c2c34c"))
  ∧ hardforkForForkHash (mainnet_byzantium []) SUndefined = None.
Proof.
  destruct (hardforkForForkHash_unique
              (common_of mainnet_hardforks_hashed "byzantium" [] [])
              (SStr "0x97c2c34c")) as [Hone _].
  destruct (hardforkForForkHash_unique (mainnet_byzantium []) SUndefined)
    as [_ Htwo].
  split.
  - apply Hone. exists (take 1 mainnet_hardforks_hashed),
                       (drop 2 mainnet_hardforks_hashed).
    split_and!; [reflexivity | reflexivity | |];
      repeat constructor; discriminate.
  - apply (Htwo [] (Hardfork.mk "chainstart" (Some 0) SUndefined) []
             (Hardfork.mk "homestead" (Some 1150000) SUndefined)
             (drop 2 mainnet_hardforks)); reflexivity.
Defined.

Lemma _calcForkHash_same_block_witness :
  _calcForkHash (common_of genesis_forks "byzantium" [] []) "homestead"
  = _calcForkHash (common_of genesis_forks "byzantium" [] []) "chainstart".
Proof.
  apply (_calcForkHash_same_block (common_of genesis_forks "byzantium" [] []) []
           (Hardfork.mk "chainstart" (Some 0) SUndefined)
           (Hardfork.mk "homestead" (Some 0) (SStr "0xfc64ec04"))
           (drop 2 genesis_forks)).
  - reflexivity.
  - by_decision.
  - by_decision.
  - discriminate.
  - right. reflexivity.
Defined.

Lemma _calcForkHash_genesis_only_witness :
  _calcForkHash (mainnet_byzantium []) "chainstart" = "0xfc64ec04".
Proof.
  rewrite (_calcForkHash_genesis_only (mainnet_byzantium []) "chainstart").
  - by_computation.
  - replace (up_to "chainstart" (hardforks (mainnet_byzantium [])))
      with [Hardfork.mk "chainstart" (Some 0) SUndefined] by by_computation.
    apply Forall_cons. split; [by right | apply Forall_nil; exact I].
Defined.

Lemma new_Common_outcome_witness :
  new_Common hardfork_changes eip_files (chain_of mainnet_hardforks)
    (CommonOpts.mk (Some "byzantium") None (Some [3]))
  = Ok (mainnet_byzantium [3])
  ∧ ∀ e, new_Common hardfork_changes eip_files (chain_of mainnet_hardforks)
           (CommonOpts.mk (Some "byzantium") None (Some [4]))
         = Err e →
         e = HardforkTooOld 4 "byzantium".
Proof.
  split.
  - apply (proj1 (new_Common_outcome hardfork_changes eip_files
                    (chain_of mainnet_hardforks)
                    (CommonOpts.mk (Some "byzantium") None (Some [3])))).
    split_and!.
    + reflexivity.
    + intros h [= <-]. split; [reflexivity | by_decision].
    + apply Forall_cons. split; [apply eip_3_acceptable | apply Forall_nil; exact I].
  - intros e Herr.
    destruct (proj2 (new_Common_outcome hardfork_changes eip_files
                       (chain_of mainnet_hardforks)
                       (CommonOpts.mk (Some "byzantium") None (Some [4]))) e Herr)
      as [(h & [= <-] & [[Hsup _] | [Hnotin _]])
         | (_ & eip & Hin & [[Hun _] | [_ ->]])].
    + discriminate Hsup.
    + exfalso. apply Hnotin. by_decision.
    + apply list_elem_of_singleton in Hin as ->. discriminate Hun.
    + apply list_elem_of_singleton in Hin as ->. reflexivity.
Defined.

Lemma new_Common_default_unchecked_witness :
  ∃ c, new_Common hardfork_changes eip_files (chain_of mainnet_hardforks)
         (CommonOpts.mk None (Some ["byzantium"]) None) = Ok c
       ∧ hardfork c = "istanbul"
       ∧ param hardfork_changes eip_files standard_runtime c "gasConfig" "minGasLimit"
         = Err (UnsupportedHardfork "istanbul")
       ∧ setHardfork hardfork_changes "istanbul" c
         = (Err (UnsupportedHardfork "istanbul"), c).
Proof.
  destruct (new_Common_default_unchecked hardfork_changes eip_files standard_runtime
              (chain_of mainnet_hardforks) ["byzantium"])
    as (c & Hnew & Hhf & Hparam & Hset).
  - discriminate.
  - by_decision.
  - exists c. rewrite Hhf in Hset. split_and!; [exact Hnew | exact Hhf | apply Hparam | exact Hset].
Defined.

Lemma hardfork_admitted_invariant_witness :
  hardfork_admitted hardfork_changes
    (after_calls hardfork_changes eip_files (mainnet_byzantium [3])
       [CallSetEIPs [4]; CallSetHardfork "petersburg";
        CallSetHardforkByBlockNumber 1150000])
  ∧ _hardfork
      (after_calls hardfork_changes eip_files (mainnet_byzantium [3])
         [CallSetEIPs [4]; CallSetHardfork "petersburg";
          CallSetHardforkByBlockNumber 1150000])
    = "homestead".
Proof.
  split; [| reflexivity].
  apply (hardfork_admitted_invariant hardfork_changes eip_files
           (chain_of mainnet_hardforks)
           (CommonOpts.mk (Some "byzantium") None (Some [3]))
           (mainnet_byzantium [3])
           [CallSetEIPs [4]; CallSetHardfork "petersburg";
            CallSetHardforkByBlockNumber 1150000]).
  reflexivity.
Defined.
